(** * PACE key generation and revocation ([pace/pki/keygen.py])

    A shallow embedding of the [KeyGen] class: the HMAC-based key derivation
    [_generate_key], and the revocation protocol [revoke] /
    [revoke_all_attrs] running against a key store and two attribute
    indices.  Python 2 byte strings are Rocq [string]s (sequences of 8-bit
    characters), Python integers are [Z], dictionaries are [gmap]s and sets
    are [gset]s. *)

From Stdlib Require Import ZArith.
From stdpp Require Import base gmap sets list strings pretty.

#[local] Set Warnings "-clear-no-such-hyp".

(** ** Python runtime: exceptions and results *)

(** The exceptions the modelled code can raise. *)
Inductive exn :=
  | ValueError      (* raise ValueError('Key length must be non-negative') *)
  | StructError     (* struct.error: argument out of range for '>i' *)
  | KeyError        (* user_pks[user] on a missing user *)
  | LookupError     (* keystore.retrieve_latest_version finds no record *)
  | UnboundLocalError (* a local read before any assignment *)
  | WrapError       (* utils.wrap_key fails *)
  | CollaboratorError. (* a method of the key store or of an index fails *)

Inductive outcome (A : Type) :=
  | Return (a : A)
  | Raise (e : exn).
Arguments Return {A} a.
Arguments Raise {A} e.

Definition obind {A B} (x : outcome A) (f : A → outcome B) : outcome B :=
  match x with
  | Return a => f a
  | Raise e => Raise e
  end.

(** [for x in xs: acc = body(acc, x)], stopping at the first exception. *)
Fixpoint ofold {A S} (body : S → A → outcome S) (acc : S) (xs : list A)
  : outcome S :=
  match xs with
  | [] => Return acc
  | x :: xs' => obind (body acc x) (fun acc' => ofold body acc' xs')
  end.

(** ** Python runtime: strings and integers *)

(** A one-character byte string holding the byte [n mod 256]. *)
Definition chr (n : Z) : string :=
  String (Ascii.ascii_of_N (Z.to_N (Z.land n 255))) EmptyString.

(** [struct.pack('>i', n)]: the four bytes of a signed 32-bit integer, most
    significant first; [struct.error] outside the 32-bit range. *)
Definition struct_pack_be_i (n : Z) : outcome (list string) :=
  if decide (- 2 ^ 31 ≤ n < 2 ^ 31)%Z
  then Return [chr (Z.shiftr n 24); chr (Z.shiftr n 16);
               chr (Z.shiftr n 8); chr n]
  else Raise StructError.

(** [s[:n]] for a non-negative [n]. *)
Fixpoint string_take (n : nat) (s : string) : string :=
  match n, s with
  | S n', String c s' => String c (string_take n' s')
  | _, _ => EmptyString
  end.

(** [s[:n]] for any integer [n]: a negative bound counts from the end. *)
Definition slice_to (s : string) (n : Z) : string :=
  if decide (0 ≤ n)%Z then string_take (Z.to_nat n) s
  else string_take (String.length s - Z.to_nat (- n)) s.

(** [str(n)] of a Python integer. *)
Definition str_int (n : Z) : string := pretty n.

(** The [vers] argument of [_generate_key] is passed to [str()]: the
    docstring types it as a string, [revoke] passes an integer. *)
Inductive version :=
  | VInt (n : Z)
  | VStr (s : string).

Definition str (v : version) : string :=
  match v with
  | VInt n => str_int n
  | VStr s => s
  end.

(** [int(math.ceil((keylen*1.0)/d))] for a positive [d], on integers.  The
    floating-point quotient of the source has this ceiling for every key
    length below [d * 2^48]; beyond [d * (2^31 - 1)] the block loop fails in
    [struct.pack] whatever the exact number of blocks. *)
Definition ceil_div (keylen d : Z) : Z := (- ((- keylen) `div` d))%Z.

(** ** KeyGen._generate_key *)

Record KeyGen := { _msk : string }.

Definition digest_size : Z := 20.

Section KeyDeriver.
(** [hmac keybytes msg] is [hmac.new(keybytes, msg, sha1).digest()]. *)
Context (hmac : string → string → string).

(** The joined [key_info] string. *)
Definition key_info (attr : string) (vers : version) (metadata : string)
    (keylen : Z) : string :=
  String.concat "|" [attr; str vers; metadata; str_int keylen].

(** One iteration of the block loop, on the locals [(block, key)]. *)
Definition block_loop_body (self : KeyGen) (info : string)
    (locals : string * string) (i : Z) : outcome (string * string) :=
  let '(block, key) := locals in
  obind (struct_pack_be_i (i + 1)) (fun packed =>
    let block_num := default "" (last packed) in
    let block := hmac (_msk self) (block +:+ info +:+ block_num) in
    Return (block, key +:+ block)).

Definition _generate_key (self : KeyGen) (attr : string) (vers : version)
    (metadata : string) (keylen : Z) : outcome string :=
  if decide (keylen < 0)%Z then Raise ValueError
  else
    let num_blocks := ceil_div keylen digest_size in
    let info := key_info attr vers metadata keylen in
    obind (ofold (block_loop_body self info) ("", "")
                 (seqZ 0 num_blocks))
          (fun '(_, key) => Return (slice_to key keylen)).
End KeyDeriver.

(** ** HMAC-SHA1, executable

    [hmac.new(key, msg, sha1).digest()] computed on 32-bit words held in [Z]
    (FIPS 180 SHA-1, RFC 2104 HMAC).  The derivation above is stated for any
    keyed function; this instance makes it run on concrete inputs. *)
Module SHA1.
Local Open Scope Z_scope.

Definition w32 (x : Z) : Z := Z.land x 0xFFFFFFFF.
Definition rotl (n x : Z) : Z :=
  w32 (Z.lor (Z.shiftl x n) (Z.shiftr (w32 x) (32 - n))).

Definition bytes_of_string (s : string) : list Z :=
  map (fun c => Z.of_N (Ascii.N_of_ascii c)) (String.list_ascii_of_string s).
Definition string_of_bytes (bs : list Z) : string :=
  String.string_of_list_ascii (map (fun b => Ascii.ascii_of_N (Z.to_N b)) bs).

(** Big-endian bytes of a word, [n] bytes wide. *)
Fixpoint be_bytes (n : nat) (x : Z) : list Z :=
  match n with
  | O => []
  | S n' => Z.land (Z.shiftr x (8 * Z.of_nat n')) 255 :: be_bytes n' x
  end.

Definition pad (msg : list Z) : list Z :=
  let len := Z.of_nat (length msg) in
  msg ++ [128] ++ replicate (Z.to_nat ((55 - len) `mod` 64)) 0
      ++ be_bytes 8 (8 * len).

(** Big-endian 32-bit words of a byte sequence. *)
Fixpoint words (fuel : nat) (bs : list Z) : list Z :=
  match fuel, bs with
  | S fuel', b0 :: b1 :: b2 :: b3 :: rest =>
      (Z.shiftl b0 24 + Z.shiftl b1 16 + Z.shiftl b2 8 + b3)
        :: words fuel' rest
  | _, _ => []
  end.

(** The message schedule W_0 .. W_(n-1), from a window of sixteen words. *)
Fixpoint schedule (n : nat) (win : list Z) : list Z :=
  match n, win with
  | S n', w0 :: rest =>
      let x := Z.lxor (Z.lxor (nth 13 win 0) (nth 8 win 0))
                      (Z.lxor (nth 2 win 0) w0) in
      w0 :: schedule n' (rest ++ [rotl 1 x])
  | _, _ => []
  end.

Definition state : Type := Z * Z * Z * Z * Z.

Definition round (st : state * Z) (w : Z) : state * Z :=
  let '((a, b, c, d, e), t) := st in
  let '(f, k) :=
    if decide (t < 20) then
      (Z.lor (Z.land b c) (Z.land (Z.lxor b 0xFFFFFFFF) d), 0x5A827999)
    else if decide (t < 40) then
      (Z.lxor (Z.lxor b c) d, 0x6ED9EBA1)
    else if decide (t < 60) then
      (Z.lor (Z.lor (Z.land b c) (Z.land b d)) (Z.land c d), 0x8F1BBCDC)
    else (Z.lxor (Z.lxor b c) d, 0xCA62C1D6) in
  let temp := w32 (rotl 5 a + f + e + k + w) in
  ((temp, a, rotl 30 b, c, d), t + 1).

Definition compress (h : state) (block : list Z) : state :=
  let '(h0, h1, h2, h3, h4) := h in
  let '((a, b, c, d, e), _) :=
    fold_left round (schedule 80 (words 16 block)) (h, 0) in
  (w32 (h0 + a), w32 (h1 + b), w32 (h2 + c), w32 (h3 + d), w32 (h4 + e)).

Fixpoint blocks (fuel : nat) (h : state) (bs : list Z) : state :=
  match fuel, bs with
  | S fuel', _ :: _ => blocks fuel' (compress h (take 64 bs)) (drop 64 bs)
  | _, _ => h
  end.

Definition sha1 (msg : list Z) : list Z :=
  let p := pad msg in
  let '(h0, h1, h2, h3, h4) :=
    blocks (length p)
      (0x67452301, 0xEFCDAB89, 0x98BADCFE, 0x10325476, 0xC3D2E1F0) p in
  be_bytes 4 h0 ++ be_bytes 4 h1 ++ be_bytes 4 h2 ++ be_bytes 4 h3
    ++ be_bytes 4 h4.

Definition hmac_bytes (key msg : list Z) : list Z :=
  let k0 := if decide (64 < Z.of_nat (length key)) then sha1 key else key in
  let k := k0 ++ replicate (64 - length k0)%nat 0 in
  sha1 (map (Z.lxor 0x5C) k ++ sha1 (map (Z.lxor 0x36) k ++ msg)).

Definition hmac (key msg : string) : string :=
  string_of_bytes (hmac_bytes (bytes_of_string key) (bytes_of_string msg)).

(** Lower-case hexadecimal digits of a byte string. *)
Definition hex_digit (n : Z) : Ascii.ascii :=
  default Ascii.zero
    (String.list_ascii_of_string "0123456789abcdef" !! Z.to_nat n).
Definition hex (s : string) : string :=
  String.string_of_list_ascii
    (flat_map (fun b => [hex_digit (Z.shiftr b 4); hex_digit (Z.land b 15)])
       (bytes_of_string s)).
End SHA1.

(** ** Collaborators: key records, key store, attribute indices *)

(** [KeyInfo(attr, vers, metadata, keywrap, keylen)]: a wrapped key and the
    identity of the key it wraps. *)
Record KeyInfo := mkKeyInfo {
  attr : string;
  vers : Z;
  metadata : string;
  keywrap : string;
  keylen : Z;
}.

Global Instance KeyInfo_eq_dec : EqDecision KeyInfo.
Proof. solve_decision. Defined.

(** Modelled from the spec: the key store, the class [AbstractKeyStore] of
    [pace.pki.keystore] that [keygen.py] only calls.  A store is the
    sequence of (user, record) rows in insertion order.  [insert] and [batch_insert] add rows;
    [get_metadatas] is the set of metadata under which a user holds an
    attribute; [retrieve_latest_version] is the record with the greatest
    stored version for (user, metadata, attribute); [remove_revoked_keys]
    purges the user's rows for (attribute, metadata). *)
Module KeyStore.
Abbreviation t := (list (string * KeyInfo)).

Definition held (userid attr0 : string) (row : string * KeyInfo) : Prop :=
  row.1 = userid ∧ attr row.2 = attr0.
Definition keyed (userid meta attr0 : string) (row : string * KeyInfo)
  : Prop := row.1 = userid ∧ attr row.2 = attr0 ∧ metadata row.2 = meta.

Global Instance held_dec u a row : Decision (held u a row).
Proof. unfold held. apply _. Defined.
Global Instance keyed_dec u m a row : Decision (keyed u m a row).
Proof. unfold keyed. apply _. Defined.

Definition insert (userid : string) (info : KeyInfo) (ks : t) : t :=
  ks ++ [(userid, info)].

Definition batch_insert (userid : string) (infos : list KeyInfo) (ks : t)
  : t := ks ++ map (pair userid) infos.

Definition get_metadatas (userid attr0 : string) (ks : t) : gset string :=
  list_to_set (map (fun row => metadata row.2) (filter (held userid attr0) ks)).

(** The later of two records is kept only when its version is greater. *)
Definition newer (best : option KeyInfo) (row : string * KeyInfo)
  : option KeyInfo :=
  match best with
  | Some b => if decide (vers b < vers row.2)%Z then Some row.2 else Some b
  | None => Some row.2
  end.

Definition retrieve_latest_version (userid meta attr0 : string) (ks : t)
  : option KeyInfo :=
  fold_left newer (filter (keyed userid meta attr0) ks) None.

Definition remove_revoked_keys (userid meta attr0 : string) (ks : t) : t :=
  filter (fun row => ¬ keyed userid meta attr0 row) ks.
End KeyStore.

(** Modelled from the spec: the attribute-to-users index, the class
    [AbstractAttrUserMap] that [keygen.py] only calls.  [users_by_attribute]
    returns the set of users of an attribute as a snapshot, a value of its
    own that later deletions do not change; [delete_user] removes one
    (attribute, user) pair. *)
Module AttrUserMap.
Abbreviation t := (gmap string (gset string)).

Definition users_by_attribute (attr0 : string) (m : t) : gset string :=
  default ∅ (m !! attr0).

Definition delete_user (attr0 user : string) (m : t) : t :=
  alter (fun users => users ∖ {[user]}) attr0 m.
End AttrUserMap.

(** Modelled from the spec: the user-to-attributes index, the class
    [AbstractUserAttrMap] that [keygen.py] only calls, the mirror image of
    [AttrUserMap]: [attributes_by_user] returns a snapshot, [delete_attr]
    removes one (user, attribute) pair. *)
Module UserAttrMap.
Abbreviation t := (gmap string (gset string)).

Definition attributes_by_user (userid : string) (m : t) : gset string :=
  default ∅ (m !! userid).

Definition delete_attr (userid attr0 : string) (m : t) : t :=
  alter (fun attrs => attrs ∖ {[attr0]}) userid m.
End UserAttrMap.

(** ** The world the revocation protocol runs in *)

(** Calls made on the collaborators, in program order. *)
Inductive call :=
  | users_by_attribute_call (attr0 : string)
  | delete_user_call (attr0 user : string)
  | attributes_by_user_call (userid : string)
  | delete_attr_call (userid attr0 : string)
  | get_metadatas_call (userid attr0 : string)
  | retrieve_latest_version_call (userid meta attr0 : string)
  | remove_revoked_keys_call (userid meta attr0 : string)
  | insert_call (userid : string) (info : KeyInfo).

Global Instance call_eq_dec : EqDecision call.
Proof. solve_decision. Defined.

(** A dictionary object is named by its address in [dicts]; the two default
    arguments [metas_keylens={}] are objects created once, when the methods
    are defined. *)
Abbreviation loc := nat.
Definition revoke_defaults : loc := 0.
Definition revoke_all_attrs_defaults : loc := 1.

Record world := mkWorld {
  keystore : KeyStore.t;
  attr_user_map : AttrUserMap.t;
  user_attr_map : UserAttrMap.t;
  dicts : gmap loc (gmap string Z);
  trace : list call;
}.

(** Computations that read and write the world and may raise; the state
    reached when an exception is raised is kept. *)
Definition M (A : Type) : Type := world → outcome A * world.

Definition ret {A} (a : A) : M A := fun w => (Return a, w).
Definition raise {A} (e : exn) : M A := fun w => (Raise e, w).
Definition lift {A} (o : outcome A) : M A := fun w => (o, w).
Definition bind {A B} (m : M A) (k : A → M B) : M B :=
  fun w =>
    match m w with
    | (Return a, w') => k a w'
    | (Raise e, w') => (Raise e, w')
    end.

Declare Scope M_scope.
Delimit Scope M_scope with M.
Notation "x <- m ;; k" := (bind m (fun x => k))
  (at level 100, m at next level, right associativity) : M_scope.
Notation "m ;; k" := (bind m (fun _ => k))
  (at level 100, right associativity) : M_scope.
Local Open Scope M_scope.

(** [for x in xs: body(x)] *)
Fixpoint for_each {A} (xs : list A) (body : A → M unit) : M unit :=
  match xs with
  | [] => ret tt
  | x :: xs' => body x ;; for_each xs' body
  end.

(** [for x in xs: locals = body(locals, x)] *)
Fixpoint for_fold {A S} (xs : list A) (body : S → A → M S) (locals : S)
  : M S :=
  match xs with
  | [] => ret locals
  | x :: xs' => locals' <- body locals x ;; for_fold xs' body locals'
  end.

Definition log (c : call) (w : world) : world :=
  mkWorld (keystore w) (attr_user_map w) (user_attr_map w) (dicts w)
          (trace w ++ [c]).
Definition set_keystore (ks : KeyStore.t) (w : world) : world :=
  mkWorld ks (attr_user_map w) (user_attr_map w) (dicts w) (trace w).
Definition set_attr_user_map (m : AttrUserMap.t) (w : world) : world :=
  mkWorld (keystore w) m (user_attr_map w) (dicts w) (trace w).
Definition set_user_attr_map (m : UserAttrMap.t) (w : world) : world :=
  mkWorld (keystore w) (attr_user_map w) m (dicts w) (trace w).

(** Methods of the collaborators, as calls on the world. *)
Definition users_by_attribute (attr0 : string) : M (gset string) :=
  fun w => (Return (AttrUserMap.users_by_attribute attr0 (attr_user_map w)),
            log (users_by_attribute_call attr0) w).
Definition delete_user (attr0 user : string) : M unit :=
  fun w => (Return tt,
            log (delete_user_call attr0 user)
              (set_attr_user_map
                 (AttrUserMap.delete_user attr0 user (attr_user_map w)) w)).
Definition attributes_by_user (userid : string) : M (gset string) :=
  fun w => (Return (UserAttrMap.attributes_by_user userid (user_attr_map w)),
            log (attributes_by_user_call userid) w).
Definition delete_attr (userid attr0 : string) : M unit :=
  fun w => (Return tt,
            log (delete_attr_call userid attr0)
              (set_user_attr_map
                 (UserAttrMap.delete_attr userid attr0 (user_attr_map w)) w)).
Definition get_metadatas (userid attr0 : string) : M (gset string) :=
  fun w => (Return (KeyStore.get_metadatas userid attr0 (keystore w)),
            log (get_metadatas_call userid attr0) w).
Definition retrieve_latest_version (userid meta attr0 : string) : M KeyInfo :=
  fun w =>
    (match KeyStore.retrieve_latest_version userid meta attr0 (keystore w) with
     | Some info => Return info
     | None => Raise LookupError
     end, log (retrieve_latest_version_call userid meta attr0) w).
Definition remove_revoked_keys (userid meta attr0 : string) : M unit :=
  fun w => (Return tt,
            log (remove_revoked_keys_call userid meta attr0)
              (set_keystore
                 (KeyStore.remove_revoked_keys userid meta attr0 (keystore w))
                 w)).
Definition insert (userid : string) (info : KeyInfo) : M unit :=
  fun w => (Return tt,
            log (insert_call userid info)
              (set_keystore (KeyStore.insert userid info (keystore w)) w)).

(** Reads of a dictionary object: [k in d] and [d[k]].  An address that
    holds no object reads as the empty dictionary. *)
Definition dict_at (d : loc) (w : world) : gmap string Z :=
  default ∅ (dicts w !! d).
Definition dict_contains (d : loc) (k : string) : M bool :=
  fun w => (Return (bool_decide (is_Some (dict_at d w !! k))), w).
Definition dict_getitem (d : loc) (k : string) : M Z :=
  fun w => (match dict_at d w !! k with
            | Some v => Return v
            | None => Raise KeyError
            end, w).

(** A local variable that is bound only once a loop body has run. *)
Definition read_local {A} (x : option A) : M A :=
  match x with
  | Some a => ret a
  | None => raise UnboundLocalError
  end.

(** ** KeyGen.revoke and KeyGen.revoke_all_attrs

    The key store and the two indices that the methods receive are the
    components of the world; [user_pks] is passed as a value, and
    [metas_keylens] as the address of a dictionary object ([None] when the
    argument is omitted and the default object is used).  A [for] loop over
    a set visits its [elements]. *)

(** The locals of [revoke] that outlive the rotation loop: the dictionary
    [new_keys], and [new_vers] / [new_keylen], which are bound only once the
    loop body has run. *)
Record locals := mkLocals {
  new_keys : gmap string string;
  new_vers : option Z;
  new_keylen : option Z;
}.

Section Revocation.
Context (hmac : string → string → string).
(** [wrap_key sk pk] is [utils.wrap_key(sk, RSA_pk)]; [None] when the
    wrap primitive fails. *)
Context {PK : Type} (wrap_key : string → PK → option string).

(** Body of [for meta in metas]. *)
Definition rotate (self : KeyGen) (userid attr0 : string)
    (metas_keylens : loc) (l : locals) (meta : string) : M locals :=
  cur_info <- retrieve_latest_version userid meta attr0 ;;
  let new_vers := (vers cur_info + 1)%Z in
  overridden <- dict_contains metas_keylens meta ;;
  new_keylen <- (if overridden : bool then dict_getitem metas_keylens meta
                 else ret (keylen cur_info)) ;;
  new_key <- lift (_generate_key hmac self attr0 (VInt new_vers) meta
                                 new_keylen) ;;
  let new_keys := <[meta := new_key]> (new_keys l) in
  remove_revoked_keys userid meta attr0 ;;
  ret (mkLocals new_keys (Some new_vers) (Some new_keylen)).

(** Body of [for meta in keystore.get_metadatas(user, attr)]. *)
Definition rewrap (attr0 : string) (user_pks : gmap string PK) (l : locals)
    (user meta : string) : M unit :=
  match new_keys l !! meta with
  | Some sk =>
      RSA_pk <- lift (match user_pks !! user with
                      | Some pk => Return pk
                      | None => Raise KeyError
                      end) ;;
      keywrap <- lift (match wrap_key sk RSA_pk with
                       | Some c => Return c
                       | None => Raise WrapError
                       end) ;;
      new_vers <- read_local (new_vers l) ;;
      new_keylen <- read_local (new_keylen l) ;;
      insert user (mkKeyInfo attr0 new_vers meta keywrap new_keylen)
  | None => ret tt
  end.

(** Body of [for user in cur_users]. *)
Definition redistribute (attr0 : string) (user_pks : gmap string PK)
    (l : locals) (user : string) : M unit :=
  metas <- get_metadatas user attr0 ;;
  for_each (elements metas) (rewrap attr0 user_pks l user).

Definition revoke (self : KeyGen) (userid attr0 : string)
    (user_pks : gmap string PK) (metas_keylens : option loc) : M unit :=
  let metas_keylens := default revoke_defaults metas_keylens in
  cur_users <- users_by_attribute attr0 ;;
  if decide (userid ∉ cur_users) then ret tt
  else
    delete_user attr0 userid ;;
    delete_attr userid attr0 ;;
    metas <- get_metadatas userid attr0 ;;
    l <- for_fold (elements metas)
           (rotate self userid attr0 metas_keylens)
           (mkLocals ∅ None None) ;;
    let cur_users := cur_users ∖ {[userid]} in
    for_each (elements cur_users) (redistribute attr0 user_pks l).

Definition revoke_all_attrs (self : KeyGen) (userid : string)
    (user_pks : gmap string PK) (metas_keylens : option loc) : M unit :=
  let metas_keylens := default revoke_all_attrs_defaults metas_keylens in
  attrs <- attributes_by_user userid ;;
  for_each (elements attrs)
    (fun attr0 => revoke self userid attr0 user_pks (Some metas_keylens)).
End Revocation.

(** ** The derivation as the specification words it *)

Section KeyDeriverSpec.
Context (hmac : string → string → string).

(** [byte(i)]: the single byte of value [i]. *)
Definition byte (i : nat) : string :=
  String (Ascii.ascii_of_nat i) EmptyString.

(** attribute, version, metadata and length joined with the delimiter. *)
Definition spec_info (attr0 : string) (v : version) (meta : string)
    (len : Z) : string :=
  attr0 +:+ "|" +:+ str v +:+ "|" +:+ meta +:+ "|" +:+ str_int len.

(** block_0 is empty, block_i = HMAC(secret, block_(i-1) || info || byte(i)). *)
Fixpoint spec_block (secret info : string) (i : nat) : string :=
  match i with
  | O => ""
  | S j => hmac secret (spec_block secret info j +:+ info +:+ byte i)
  end.

(** block_1 || ... || block_n *)
Fixpoint spec_blocks (secret info : string) (n : nat) : string :=
  match n with
  | O => ""
  | S j => spec_blocks secret info j +:+ spec_block secret info n
  end.

(** ceil(length / digestSize) *)
Definition spec_num_blocks (len : Z) : nat :=
  Z.to_nat ((len + digest_size - 1) `div` digest_size).

Definition spec_generate (secret attr0 : string) (v : version)
    (meta : string) (len : Z) : string :=
  string_take (Z.to_nat len)
    (spec_blocks secret (spec_info attr0 v meta len) (spec_num_blocks len)).
End KeyDeriverSpec.

(** The delimiter occurs in a field. *)
Definition has_delimiter (s : string) : Prop :=
  Ascii.ascii_of_nat 124 ∈ String.list_ascii_of_string s.

(** The inputs the specification calls invalid for [generate]. *)
Definition invalid_inputs (attr0 : string) (v : version) (meta : string)
    (len : Z) : Prop :=
  (len < 0)%Z ∨ (255 * digest_size < len)%Z ∨ has_delimiter attr0
  ∨ has_delimiter (str v) ∨ has_delimiter meta.

Definition raises {A} (o : outcome A) : Prop := ∃ e, o = Raise e.

(** ** Notions used to state the properties of revocation *)

(** The calls made on the collaborators between two worlds. *)
Definition new_calls (w w' : world) : list call :=
  drop (length (trace w)) (trace w').

(** Index mirror invariant: a user is listed for an attribute exactly when
    the attribute is listed for the user. *)
Definition mirror (w : world) : Prop :=
  ∀ u a, u ∈ AttrUserMap.users_by_attribute a (attr_user_map w)
         ↔ a ∈ UserAttrMap.attributes_by_user u (user_attr_map w).

(** The version a rotation of (attribute, metadata) leads to: the revoked
    user's latest stored version plus one. *)
Definition rotated_vers (w : world) (userid attr0 meta : string) : option Z :=
  (fun info => vers info + 1)%Z
    <$> KeyStore.retrieve_latest_version userid meta attr0 (keystore w).

(** The length determined for a metadata: the override when the dictionary
    has one, else the length of the revoked user's latest record. *)
Definition rotated_keylen (w : world) (metas_keylens : loc)
    (userid attr0 meta : string) : option Z :=
  match dict_at metas_keylens w !! meta with
  | Some n => Some n
  | None => keylen <$> KeyStore.retrieve_latest_version userid meta attr0
                         (keystore w)
  end.

(** Every record inserted between [w] and [w'] carries the version and the
    length of its own metadata. *)
Definition versioned_per_metadata (w w' : world) (metas_keylens : loc)
    (userid attr0 : string) : Prop :=
  ∀ u info, insert_call u info ∈ new_calls w w' →
    rotated_vers w userid attr0 (metadata info) = Some (vers info)
    ∧ rotated_keylen w metas_keylens userid attr0 (metadata info)
      = Some (keylen info).

(** What [revoke userid attr0] may ask of the collaborators, in terms of the
    world [w] it starts from: it deletes only the pair (attr0, userid),
    purges only the revoked user's keys for metadata that user held, and
    inserts only for other authorized users, under metadata that both the
    receiving user and the revoked user held. *)
Definition allowed (w : world) (userid attr0 : string) (c : call) : Prop :=
  match c with
  | delete_user_call a u => a = attr0 ∧ u = userid
  | delete_attr_call u a => u = userid ∧ a = attr0
  | remove_revoked_keys_call u m a =>
      u = userid ∧ a = attr0
      ∧ m ∈ KeyStore.get_metadatas userid attr0 (keystore w)
  | insert_call u info =>
      u ∈ AttrUserMap.users_by_attribute attr0 (attr_user_map w)
      ∧ u ≠ userid
      ∧ attr info = attr0
      ∧ metadata info ∈ KeyStore.get_metadatas u attr0 (keystore w)
      ∧ metadata info ∈ KeyStore.get_metadatas userid attr0 (keystore w)
  | _ => True
  end.

(** Sequential single-attribute revocations, one call after the other,
    stopping at the first exception. *)
Fixpoint sequential_revokes (hmac : string → string → string) {PK : Type}
    (wrap_key : string → PK → option string) (self : KeyGen)
    (userid : string) (attrs : list string) (user_pks : gmap string PK)
    (metas_keylens : option loc) : M unit :=
  match attrs with
  | [] => ret tt
  | attr0 :: rest =>
      fun w =>
        match revoke hmac wrap_key self userid attr0 user_pks metas_keylens w
        with
        | (Return _, w') =>
            sequential_revokes hmac wrap_key self userid rest user_pks
              metas_keylens w'
        | (Raise e, w') => (Raise e, w')
        end
  end.

(** ** Notions used in the proofs *)

(** [m] relates every world it starts from to the world it ends in, whether
    it returns or raises. *)
Definition preserves (R : world → world → Prop) {A} (m : M A) : Prop :=
  ∀ w, R w (m w).2.

(** The dictionary objects are the same. *)
Definition same_dicts (w w' : world) : Prop := dicts w' = dicts w.
(** Both indices are the same. *)
Definition same_indices (w w' : world) : Prop :=
  attr_user_map w' = attr_user_map w ∧ user_attr_map w' = user_attr_map w.


(** [Q] holds of the outcome and the final world of [m] started in [w]. *)
Definition wp {A} (m : M A) (Q : outcome A → world → Prop) (w : world)
  : Prop := Q (m w).1 (m w).2.

(** Invariant of a running [revoke userid attr0] started in [w0]: users
    other than the revoked one hold the attribute under the metadata they
    held at the start, and every call made so far is [allowed]; [removed]
    lists metadata whose purge is known to have been called. *)
Definition revoking (w0 : world) (userid attr0 : string)
    (removed : list string) (w : world) : Prop :=
  (∀ u, u ≠ userid →
        KeyStore.get_metadatas u attr0 (keystore w)
        = KeyStore.get_metadatas u attr0 (keystore w0))
  ∧ ∃ tr, trace w = trace w0 ++ tr
          ∧ Forall (allowed w0 userid attr0) tr
          ∧ ∀ m, m ∈ removed → remove_revoked_keys_call userid m attr0 ∈ tr.

(** Invariant of the rotation loop of [revoke]: the store is a part of the
    initial one with no key of the revoked user left for the metadata
    already handled, and keys were minted for those metadata only. *)
Definition rotating (w0 : world) (userid attr0 : string)
    (handled : list string) (l : locals) (w : world) : Prop :=
  revoking w0 userid attr0 handled w
  ∧ (∀ row, row ∈ keystore w → row ∈ keystore w0)
  ∧ (∀ row, row ∈ keystore w → KeyStore.held userid attr0 row →
            metadata row.2 ∉ handled)
  ∧ (∀ m, is_Some (new_keys l !! m) → m ∈ handled).

(** No key of the user for the attribute is stored. *)
Definition purged (userid attr0 : string) (w : world) : Prop :=
  ∀ row, row ∈ keystore w → ¬ KeyStore.held userid attr0 row.

(** Every call made between [w] and [w'] satisfies [P]. *)
Definition calls_satisfy (P : call → Prop) (w w' : world) : Prop :=
  ∃ tr, trace w' = trace w ++ tr ∧ Forall P tr.

Definition no_insert (c : call) : Prop :=
  match c with
  | insert_call _ _ => False
  | _ => True
  end.

(** An inserted record carries the version and length left in the locals. *)
Definition stamped (l : locals) (c : call) : Prop :=
  match c with
  | insert_call _ info =>
      new_vers l = Some (vers info) ∧ new_keylen l = Some (keylen info)
  | _ => True
  end.

(** (user, metadata, version, length) of the records inserted by a
    sequence of calls. *)
Definition inserted (tr : list call) : list (string * string * Z * Z) :=
  omap (fun c => match c with
                 | insert_call u info =>
                     Some (u, metadata info, vers info, keylen info)
                 | _ => None
                 end) tr.

(** [sk] is the key that the rotation started in [w] mints for a metadata:
    the key derived for the rotated version and the determined length. *)
Definition minted (hmac : string → string → string) (self : KeyGen)
    (w : world) (metas_keylens : loc) (userid attr0 meta sk : string)
  : Prop :=
  ∃ v n, rotated_vers w userid attr0 meta = Some v
         ∧ rotated_keylen w metas_keylens userid attr0 meta = Some n
         ∧ _generate_key hmac self attr0 (VInt v) meta n = Return sk.

(** Invariant of the rotation loop on the keys it mints: the dictionaries
    are untouched, the revoked user's records for the metadata not yet
    handled are those of the start, and every key in [new_keys] is the one
    minted for its metadata. *)
Definition minting (hmac : string → string → string) (self : KeyGen)
    (w0 : world) (metas_keylens : loc) (userid attr0 : string)
    (handled : list string) (l : locals) (w : world) : Prop :=
  dicts w = dicts w0
  ∧ (∀ m, m ∉ handled →
          filter (KeyStore.keyed userid m attr0) (keystore w)
          = filter (KeyStore.keyed userid m attr0) (keystore w0))
  ∧ (∀ m sk, new_keys l !! m = Some sk →
             minted hmac self w0 metas_keylens userid attr0 m sk).

(** An inserted record wraps, under the public key of its user, the key
    held in [new_keys] for its metadata. *)
Definition wraps_new_key {PK : Type} (wrap_key : string → PK → option string)
    (user_pks : gmap string PK) (l : locals) (c : call) : Prop :=
  match c with
  | insert_call u info =>
      ∃ sk pk, new_keys l !! metadata info = Some sk
               ∧ user_pks !! u = Some pk
               ∧ wrap_key sk pk = Some (keywrap info)
  | _ => True
  end.

(** ** Concrete inputs *)

Module Examples.
Definition self : KeyGen := {| _msk := "0123456789abcdefghij" |}.

(** A stand-in for the RSA wrap: the recipient's key and the hex digits of
    the wrapped bytes. *)
Definition wrap_key (sk pk : string) : option string :=
  Some ("wrap[" +:+ pk +:+ "](" +:+ SHA1.hex sk +:+ ")").

Definition stored (a : string) (v : Z) (m : string) (len : Z) : KeyInfo :=
  mkKeyInfo a v m "wrapped" len.

Definition user_pks : gmap string string :=
  {[ "A" := "pkA"; "B" := "pkB" ]}.

(** Users A and B hold "admin" under metadata "enc" (version 1, 16 bytes)
    and "sig" (version 5, 32 bytes); A also holds "read". *)
Definition w0 : world :=
  mkWorld
    [("A", stored "admin" 1 "enc" 16); ("A", stored "admin" 5 "sig" 32);
     ("B", stored "admin" 1 "enc" 16); ("B", stored "admin" 5 "sig" 32);
     ("A", stored "read" 1 "enc" 16)]
    {[ "admin" := {[ "A"; "B" ]}; "read" := {[ "A" ]} ]}
    {[ "A" := {[ "admin"; "read" ]}; "B" := {[ "admin" ]} ]}
    {[ revoke_defaults := ∅; revoke_all_attrs_defaults := ∅ ]}
    [].

(** As [w0], but B holds "admin" under "enc" only. *)
Definition w_subset : world :=
  mkWorld
    [("A", stored "admin" 1 "enc" 16); ("A", stored "admin" 5 "sig" 32);
     ("B", stored "admin" 1 "enc" 16)]
    (attr_user_map w0) (user_attr_map w0) (dicts w0) [].

(** Revoking "admin" from A, with the default [metas_keylens]. *)
Definition revoke_admin_from_A : outcome unit * world :=
  revoke SHA1.hmac wrap_key self "A" "admin" user_pks None w0.

(** The record that this revocation inserts for B under "sig". *)
Definition sig_record_of_B : KeyInfo :=
  mkKeyInfo "admin" 2 "sig"
    "wrap[pkB](2aaf0818a76e2769aafed2727853d0922857689def417cc01b9530897ca0d5df)"
    16.
End Examples.


(** ** The derivation as a method of an object

    [_generate_key] is a method: [self] is a reference to a [KeyGen] object,
    whose attribute is read wherever the body says [self._msk], and every
    [hmac.new] creates an object.  The memory holds the [KeyGen] objects by
    address and the hmac objects in the order of their creation; an hmac
    object is the key and the message it was created with, which [digest]
    reads. *)
Record memory := mkMemory {
  instances : loc → KeyGen;
  hmacs : list (string * string);
}.

Module Method.
(** Computations that read and write the memory and may raise. *)
Definition Py (A : Type) : Type := memory → outcome A * memory.

Definition ret {A} (a : A) : Py A := fun mem => (Return a, mem).
Definition raise {A} (e : exn) : Py A := fun mem => (Raise e, mem).
Definition lift {A} (o : outcome A) : Py A := fun mem => (o, mem).
Definition bind {A B} (m : Py A) (k : A → Py B) : Py B :=
  fun mem =>
    match m mem with
    | (Return a, mem') => k a mem'
    | (Raise e, mem') => (Raise e, mem')
    end.

(** [for x in xs: locals = body(locals, x)] *)
Fixpoint for_fold {A S} (xs : list A) (body : S → A → Py S) (locals : S)
  : Py S :=
  match xs with
  | [] => ret locals
  | x :: xs' => bind (body locals x) (for_fold xs' body)
  end.

(** [self._msk] *)
Definition getattr_msk (self : loc) : Py string :=
  fun mem => (Return (_msk (instances mem self)), mem).

(** [hmac.new(key, msg, sha1)] *)
Definition hmac_new (key msg : string) : Py (string * string) :=
  fun mem => (Return (key, msg),
              mkMemory (instances mem) (hmacs mem ++ [(key, msg)])).

Section KeyDeriver.
Context (hmac : string → string → string).

(** [h.digest()] *)
Definition digest (h : string * string) : string := hmac h.1 h.2.

(** One iteration of the block loop, on the locals [(block, key)]. *)
Definition block_loop_body (self : loc) (info : string)
    (locals : string * string) (i : Z) : Py (string * string) :=
  let '(block, key) := locals in
  bind (lift (struct_pack_be_i (i + 1))) (fun packed =>
  let block_num := default "" (last packed) in
  bind (getattr_msk self) (fun msk =>
  bind (hmac_new msk (block +:+ info +:+ block_num)) (fun h =>
  let block := digest h in
  ret (block, key +:+ block)))).

Definition _generate_key (self : loc) (attr : string) (vers : version)
    (metadata : string) (keylen : Z) : Py string :=
  bind (getattr_msk self) (fun msk =>
  bind (hmac_new msk "") (fun h =>
  if decide (keylen < 0)%Z then raise ValueError
  else
    let num_blocks := ceil_div keylen digest_size in
    let info := key_info attr vers metadata keylen in
    bind (for_fold (seqZ 0 num_blocks) (block_loop_body self info) ("", ""))
         (fun '(_, key) => ret (slice_to key keylen)))).

(** An earlier invocation: the object and the four arguments. *)
Definition invocation : Type := loc * string * version * string * Z.

(** The memory left by earlier invocations, whatever they returned. *)
Definition after (prior : list invocation) (mem : memory) : memory :=
  fold_left
    (fun mem '(self, attr, vers, metadata, keylen) =>
       (_generate_key self attr vers metadata keylen mem).2)
    prior mem.
End KeyDeriver.
End Method.

Module MethodExamples.
(** A memory in which every address holds a key generator with the secret
    of [Examples.self], and no hmac object was created yet. *)
Definition fresh : memory := mkMemory (fun _ => Examples.self) [].

(** A memory with two key generators of different secrets, at the addresses
    0 and 1, and hmac objects left by earlier work. *)
Definition used : memory :=
  mkMemory (fun a => if decide (a = 1) then Examples.self
                     else {| _msk := "another secret" |})
           [("k", "m"); ("0123456789abcdefghij", "")].

Definition prior : list Method.invocation :=
  [(0, "admin", VInt 1, "enc", 16%Z); (1, "read", VInt 7, "sig", (-1)%Z);
   (1, "role", VStr "1", "enc", 40%Z)].
End MethodExamples.
(** ** The block loop beyond 255 blocks *)

Section KeyDeriverWrapping.
Context (hmac : string → string → string).

(** The blocks with the block number reduced to one byte: block_0 is empty,
    block_i = HMAC(secret, block_(i-1) || info || byte(i mod 256)). *)
Fixpoint wrapping_block (secret info : string) (i : nat) : string :=
  match i with
  | O => ""
  | S j =>
      hmac secret (wrapping_block secret info j +:+ info
                   +:+ byte (i `mod` 256))
  end.

Fixpoint wrapping_blocks (secret info : string) (n : nat) : string :=
  match n with
  | O => ""
  | S j => wrapping_blocks secret info j +:+ wrapping_block secret info n
  end.
End KeyDeriverWrapping.

(** ** KeyGen.initialize_users

    [users] maps a user ID to the user's public key and the list of
    (attr, vers, metadata, keylen) descriptors of the keys to issue, with
    integer versions as [file_to_dict] produces them.  The method receives
    the key store alone; the store reached when an exception is raised is
    kept. *)

Abbreviation descriptor := (string * Z * string * Z)%type.

Section KeyDistributor.
Context (hmac : string → string → string).
Context {PK : Type} (wrap_key : string → PK → option string).

(** Body of [for attr, vers, metadata, keylen in info], on the local list
    [keywraps]. *)
Definition wrap_descriptor (self : KeyGen) (RSA_pk : PK)
    (keywraps : list KeyInfo) (d : descriptor) : outcome (list KeyInfo) :=
  let '(attr0, vers0, metadata0, keylen0) := d in
  obind (_generate_key hmac self attr0 (VInt vers0) metadata0 keylen0)
    (fun sk =>
       match wrap_key sk RSA_pk with
       | Some keywrap0 =>
           Return (keywraps
                   ++ [mkKeyInfo attr0 vers0 metadata0 keywrap0 keylen0])
       | None => Raise WrapError
       end).

(** [for userid, (RSA_pk, info) in users.iteritems()], on the items in the
    order of the iteration. *)
Fixpoint initialize_loop (self : KeyGen)
    (items : list (string * (PK * list descriptor))) (keystore0 : KeyStore.t)
  : outcome unit * KeyStore.t :=
  match items with
  | [] => (Return tt, keystore0)
  | (userid, (RSA_pk, info)) :: rest =>
      match ofold (wrap_descriptor self RSA_pk) [] info with
      | Return keywraps =>
          initialize_loop self rest
            (KeyStore.batch_insert userid keywraps keystore0)
      | Raise e => (Raise e, keystore0)
      end
  end.

Definition initialize_users (self : KeyGen)
    (users : gmap string (PK * list descriptor)) (keystore0 : KeyStore.t)
  : outcome unit * KeyStore.t :=
  initialize_loop self (map_to_list users) keystore0.

(** [info] is the record issued for a descriptor under a public key: it
    carries the fields of the descriptor and wraps the key derived for them. *)
Definition issued (self : KeyGen) (RSA_pk : PK) (d : descriptor)
    (info : KeyInfo) : Prop :=
  let '(attr0, vers0, metadata0, keylen0) := d in
  attr info = attr0 ∧ vers info = vers0 ∧ metadata info = metadata0
  ∧ keylen info = keylen0
  ∧ ∃ sk, _generate_key hmac self attr0 (VInt vers0) metadata0 keylen0
          = Return sk
          ∧ wrap_key sk RSA_pk = Some (keywrap info).
End KeyDistributor.

(** The records stored for a user, in the order of their insertion. *)
Definition user_records (userid : string) (ks : KeyStore.t) : list KeyInfo :=
  map snd (filter (fun row : string * KeyInfo => row.1 = userid) ks).

(** ** Notions used to state further properties of revocation *)

(** What makes [revoke userid attr0], started in [w] with the dictionary
    [metas_keylens], raise [e]: a key length that the derivation rejects for
    a metadata of the revoked user, a remaining user without a public key,
    or a key that the wrap primitive refuses.  No other exception has a
    cause. *)
Definition raised_for (hmac : string → string → string) {PK : Type}
    (wrap_key : string → PK → option string) (self : KeyGen) (w : world)
    (metas_keylens : loc) (userid attr0 : string) (user_pks : gmap string PK)
    (e : exn) : Prop :=
  match e with
  | ValueError | StructError =>
      ∃ m v n, m ∈ KeyStore.get_metadatas userid attr0 (keystore w)
               ∧ rotated_vers w userid attr0 m = Some v
               ∧ rotated_keylen w metas_keylens userid attr0 m = Some n
               ∧ _generate_key hmac self attr0 (VInt v) m n = Raise e
  | KeyError =>
      ∃ u, u ∈ AttrUserMap.users_by_attribute attr0 (attr_user_map w)
               ∖ {[userid]}
           ∧ user_pks !! u = None
  | WrapError =>
      ∃ u pk m sk,
        u ∈ AttrUserMap.users_by_attribute attr0 (attr_user_map w)
            ∖ {[userid]}
        ∧ user_pks !! u = Some pk
        ∧ minted hmac self w metas_keylens userid attr0 m sk
        ∧ wrap_key sk pk = None
  | LookupError | UnboundLocalError | CollaboratorError => False
  end.

Definition raised_with {A} (C : exn → Prop) (o : outcome A) : Prop :=
  match o with
  | Return _ => True
  | Raise e => C e
  end.

(** The locals [new_vers] and [new_keylen] after the metadata in [handled]
    went through the rotation loop started in [w0]: they are bound as soon
    as a key is in [new_keys], and hold the rotated version and the
    determined length of one of those metadata. *)
Definition settled (w0 : world) (metas_keylens : loc) (userid attr0 : string)
    (handled : list string) (l : locals) : Prop :=
  (∀ m, is_Some (new_keys l !! m) →
        is_Some (new_vers l) ∧ is_Some (new_keylen l))
  ∧ (∀ v n, new_vers l = Some v → new_keylen l = Some n →
            ∃ m, m ∈ handled
                 ∧ rotated_vers w0 userid attr0 m = Some v
                 ∧ rotated_keylen w0 metas_keylens userid attr0 m = Some n).

(** The metadata of the revoked user all lead to the same version and the
    same length. *)
Definition agreeing (w : world) (metas_keylens : loc) (userid attr0 : string)
  : Prop :=
  ∀ m m', m ∈ KeyStore.get_metadatas userid attr0 (keystore w) →
          m' ∈ KeyStore.get_metadatas userid attr0 (keystore w) →
          rotated_vers w userid attr0 m = rotated_vers w userid attr0 m'
          ∧ rotated_keylen w metas_keylens userid attr0 m
            = rotated_keylen w metas_keylens userid attr0 m'.

(** Between [w] and [w'] the store lost no record but records of the user
    for the attribute, and gained no record but by an [insert] call. *)
Definition keeps_others (userid attr0 : string) (w w' : world) : Prop :=
  ∃ tr, trace w' = trace w ++ tr
        ∧ (∀ row, row ∈ keystore w → ¬ KeyStore.held userid attr0 row →
                  row ∈ keystore w')
        ∧ (∀ row, row ∈ keystore w' →
                  row ∈ keystore w ∨ insert_call row.1 row.2 ∈ tr).

(** A descriptor whose key can be derived and wrapped under a public key. *)
Definition issuable (hmac : string → string → string) {PK : Type}
    (wrap_key : string → PK → option string) (self : KeyGen) (RSA_pk : PK)
    (d : descriptor) : Prop :=
  let '(attr0, vers0, metadata0, keylen0) := d in
  ∃ sk keywrap0,
    _generate_key hmac self attr0 (VInt vers0) metadata0 keylen0 = Return sk
    ∧ wrap_key sk RSA_pk = Some keywrap0.

(** ** Collaborators that fail

    The key store and the two indices are abstract classes, and a method of
    an implementation may raise.  [fault w c] tells whether the call [c],
    made in the world [w], fails.  A call that fails is made (it is logged),
    leaves the store and the indices as they were, and raises; the methods
    of [KeyGen] have no [try], so the exception ends them. *)
Definition reliable (fault : world → call → bool) (c : call) : Prop :=
  ∀ w, fault w c = false.

Module Failing.
Section Protocol.
Context (fault : world → call → bool).
Context (hmac : string → string → string).
Context {PK : Type} (wrap_key : string → PK → option string).

Definition attempt {A} (c : call) (m : M A) : M A :=
  fun w => if fault w c then (Raise CollaboratorError, log c w) else m w.

(** The methods of the collaborators, now fallible. *)
Definition users_by_attribute (attr0 : string) : M (gset string) :=
  attempt (users_by_attribute_call attr0) (users_by_attribute attr0).
Definition delete_user (attr0 user : string) : M unit :=
  attempt (delete_user_call attr0 user) (delete_user attr0 user).
Definition delete_attr (userid attr0 : string) : M unit :=
  attempt (delete_attr_call userid attr0) (delete_attr userid attr0).
Definition get_metadatas (userid attr0 : string) : M (gset string) :=
  attempt (get_metadatas_call userid attr0) (get_metadatas userid attr0).
Definition retrieve_latest_version (userid meta attr0 : string) : M KeyInfo :=
  attempt (retrieve_latest_version_call userid meta attr0)
    (retrieve_latest_version userid meta attr0).
Definition remove_revoked_keys (userid meta attr0 : string) : M unit :=
  attempt (remove_revoked_keys_call userid meta attr0)
    (remove_revoked_keys userid meta attr0).
Definition insert (userid : string) (info : KeyInfo) : M unit :=
  attempt (insert_call userid info) (insert userid info).

(** [KeyGen.revoke], line by line as above, on these collaborators. *)
Definition rotate (self : KeyGen) (userid attr0 : string)
    (metas_keylens : loc) (l : locals) (meta : string) : M locals :=
  cur_info <- retrieve_latest_version userid meta attr0 ;;
  let new_vers := (vers cur_info + 1)%Z in
  overridden <- dict_contains metas_keylens meta ;;
  new_keylen <- (if overridden : bool then dict_getitem metas_keylens meta
                 else ret (keylen cur_info)) ;;
  new_key <- lift (_generate_key hmac self attr0 (VInt new_vers) meta
                                 new_keylen) ;;
  let new_keys := <[meta := new_key]> (new_keys l) in
  remove_revoked_keys userid meta attr0 ;;
  ret (mkLocals new_keys (Some new_vers) (Some new_keylen)).

Definition rewrap (attr0 : string) (user_pks : gmap string PK) (l : locals)
    (user meta : string) : M unit :=
  match new_keys l !! meta with
  | Some sk =>
      RSA_pk <- lift (match user_pks !! user with
                      | Some pk => Return pk
                      | None => Raise KeyError
                      end) ;;
      keywrap <- lift (match wrap_key sk RSA_pk with
                       | Some c => Return c
                       | None => Raise WrapError
                       end) ;;
      new_vers <- read_local (new_vers l) ;;
      new_keylen <- read_local (new_keylen l) ;;
      insert user (mkKeyInfo attr0 new_vers meta keywrap new_keylen)
  | None => ret tt
  end.

Definition redistribute (attr0 : string) (user_pks : gmap string PK)
    (l : locals) (user : string) : M unit :=
  metas <- get_metadatas user attr0 ;;
  for_each (elements metas) (rewrap attr0 user_pks l user).

Definition revoke (self : KeyGen) (userid attr0 : string)
    (user_pks : gmap string PK) (metas_keylens : option loc) : M unit :=
  let metas_keylens := default revoke_defaults metas_keylens in
  cur_users <- users_by_attribute attr0 ;;
  if decide (userid ∉ cur_users) then ret tt
  else
    delete_user attr0 userid ;;
    delete_attr userid attr0 ;;
    metas <- get_metadatas userid attr0 ;;
    l <- for_fold (elements metas)
           (rotate self userid attr0 metas_keylens)
           (mkLocals ∅ None None) ;;
    let cur_users := cur_users ∖ {[userid]} in
    for_each (elements cur_users) (redistribute attr0 user_pks l).
End Protocol.

Section Distribution.
(** [batch_fault ks userid keywraps] tells whether
    [keystore.batch_insert(userid, keywraps)] fails on the store [ks]. *)
Context (batch_fault : KeyStore.t → string → list KeyInfo → bool).
Context (hmac : string → string → string).
Context {PK : Type} (wrap_key : string → PK → option string).

(** [KeyGen.initialize_users], as above, on a store that may fail. *)
Fixpoint initialize_loop (self : KeyGen)
    (items : list (string * (PK * list descriptor))) (keystore0 : KeyStore.t)
  : outcome unit * KeyStore.t :=
  match items with
  | [] => (Return tt, keystore0)
  | (userid, (RSA_pk, info)) :: rest =>
      match ofold (wrap_descriptor hmac wrap_key self RSA_pk) [] info with
      | Return keywraps =>
          if batch_fault keystore0 userid keywraps
          then (Raise CollaboratorError, keystore0)
          else initialize_loop self rest
                 (KeyStore.batch_insert userid keywraps keystore0)
      | Raise e => (Raise e, keystore0)
      end
  end.

Definition initialize_users (self : KeyGen)
    (users : gmap string (PK * list descriptor)) (keystore0 : KeyStore.t)
  : outcome unit * KeyStore.t :=
  initialize_loop self (map_to_list users) keystore0.
End Distribution.
End Failing.

(** Collaborators that never fail, a key store that refuses every insert,
    an index that refuses to delete an attribute, and a key store that
    refuses the batches of one user. *)
Module Faults.
Definition none : world → call → bool := fun _ _ => false.

Definition insert_fails : world → call → bool :=
  fun _ c => match c with
             | insert_call _ _ => true
             | _ => false
             end.

Definition delete_attr_fails : world → call → bool :=
  fun _ c => match c with
             | delete_attr_call _ _ => true
             | _ => false
             end.

Definition no_batch : KeyStore.t → string → list KeyInfo → bool :=
  fun _ _ _ => false.

Definition batch_of_B_fails : KeyStore.t → string → list KeyInfo → bool :=
  fun _ userid _ => bool_decide (userid = "B").
End Faults.

(** ** Further concrete inputs *)

Module MoreExamples.
(** A and B hold "admin" under the one metadata "enc", at version 1. *)
Definition w_one : world :=
  mkWorld
    [("A", Examples.stored "admin" 1 "enc" 16);
     ("B", Examples.stored "admin" 1 "enc" 16)]
    {[ "admin" := {[ "A"; "B" ]} ]}
    {[ "A" := {[ "admin" ]}; "B" := {[ "admin" ]} ]}
    {[ revoke_defaults := ∅; revoke_all_attrs_defaults := ∅ ]}
    [].

(** The record that revoking "admin" from A in [w_one] inserts for B. *)
Definition enc_record_of_B : KeyInfo :=
  mkKeyInfo "admin" 2 "enc" "wrap[pkB](623c7ee520689099426115f9e8c9b8c0)" 16.

(** A directory of public keys that lacks the key of B. *)
Definition pks_without_B : gmap string string := {[ "A" := "pkA" ]}.

(** The keys to issue at start-up: three for A, one for B. *)
Definition users : gmap string (string * list descriptor) :=
  {[ "A" := ("pkA", [("admin", 1%Z, "enc", 16%Z);
                     ("admin", 5%Z, "sig", 32%Z);
                     ("read", 1%Z, "enc", 16%Z)]);
     "B" := ("pkB", [("admin", 1%Z, "enc", 16%Z)]) ]}.
End MoreExamples.

(** ** Notions used to state the completeness of the re-distribution *)

(** Since [w0], a record of the attribute and the metadata was inserted for
    the user, and is stored. *)
Definition delivered (w0 : world) (attr0 u m : string) (w : world) : Prop :=
  ∃ tr info, trace w = trace w0 ++ tr
             ∧ insert_call u info ∈ tr
             ∧ attr info = attr0 ∧ metadata info = m
             ∧ (u, info) ∈ keystore w.

(** * Properties of the key derivation *)

Section KeyDeriverProperties.
Context (hmac : string → string → string).
Implicit Types (self : KeyGen) (v : version).

Lemma key_info_spec attr0 v meta len :
  key_info attr0 v meta len = spec_info attr0 v meta len.
Proof. reflexivity. Qed.

Lemma ceil_div_spec len :
  (0 ≤ len)%Z → ceil_div len digest_size = Z.of_nat (spec_num_blocks len).
Proof.
  intros Hlen. unfold ceil_div, spec_num_blocks, digest_size.
  rewrite Z2Nat.id by (apply Z.div_pos; lia).
  pose proof (Z.div_mod (- len) 20 ltac:(lia)) as H1.
  pose proof (Z.mod_pos_bound (- len) 20 ltac:(lia)) as H2.
  pose proof (Z.div_mod (len + 20 - 1) 20 ltac:(lia)) as H3.
  pose proof (Z.mod_pos_bound (len + 20 - 1) 20 ltac:(lia)) as H4.
  lia.
Qed.

Lemma chr_byte (i : nat) : (i ≤ 255)%nat → chr (Z.of_nat i) = byte i.
Proof.
  intros Hi. unfold chr, byte, Ascii.ascii_of_nat. do 2 f_equal.
  change 255%Z with (Z.ones 8). rewrite Z.land_ones by lia.
  rewrite Z.mod_small by (change (2 ^ 8)%Z with 256%Z; lia).
  by rewrite <- nat_N_Z, N2Z.id.
Qed.

Lemma ofold_app {A S} (body : S → A → outcome S) acc (xs ys : list A) :
  ofold body acc (xs ++ ys)
  = obind (ofold body acc xs) (fun acc' => ofold body acc' ys).
Proof.
  revert acc. induction xs as [|x xs IH]; intros acc; simpl; [done|].
  destruct (body acc x); simpl; [apply IH | done].
Qed.

(** One iteration of the loop computes the next block of the
    specification, as long as the block number fits in a byte. *)
Lemma block_loop_body_step self info (n : nat) :
  (n < 255)%nat →
  block_loop_body hmac self info
    (spec_block hmac (_msk self) info n, spec_blocks hmac (_msk self) info n)
    (Z.of_nat n)
  = Return (spec_block hmac (_msk self) info (S n),
            spec_blocks hmac (_msk self) info (S n)).
Proof.
  intros Hn. unfold block_loop_body, struct_pack_be_i.
  rewrite decide_True by lia. cbn [obind last default].
  replace (Z.of_nat n + 1)%Z with (Z.of_nat (S n)) by lia.
  rewrite chr_byte by lia. reflexivity.
Qed.

Lemma block_loop_spec self info (n : nat) :
  (n ≤ 255)%nat →
  ofold (block_loop_body hmac self info) ("", "") (seqZ 0 (Z.of_nat n))
  = Return (spec_block hmac (_msk self) info n,
            spec_blocks hmac (_msk self) info n).
Proof.
  induction n as [|n IH]; intros Hn; [done|].
  rewrite seqZ_S, ofold_app, IH by lia. cbn [obind ofold].
  rewrite Z.add_0_l, block_loop_body_step by lia. reflexivity.
Qed.

(** The block loop never fails while the block numbers fit in 32 bits. *)
Lemma block_loop_returns self info acc (xs : list Z) :
  Forall (fun i => - 2 ^ 31 ≤ i + 1 < 2 ^ 31)%Z xs →
  ∃ r, ofold (block_loop_body hmac self info) acc xs = Return r.
Proof.
  intros Hxs. revert acc.
  induction Hxs as [|i xs Hi _ IH]; intros [block key]; [by eexists|].
  cbn [ofold]. unfold block_loop_body at 1, struct_pack_be_i.
  rewrite decide_True by done. cbn [obind]. apply IH.
Qed.

Lemma generate_key_negative self attr0 v meta len :
  (len < 0)%Z → _generate_key hmac self attr0 v meta len = Raise ValueError.
Proof. intros Hlen. unfold _generate_key. by rewrite decide_True. Qed.

Lemma generate_key_returns self attr0 v meta len :
  (0 ≤ len ≤ digest_size * (2 ^ 31 - 1))%Z →
  ∃ key, _generate_key hmac self attr0 v meta len = Return key.
Proof.
  intros Hlen. unfold _generate_key. rewrite decide_False by lia.
  destruct (block_loop_returns self (key_info attr0 v meta len) ("", "")
              (seqZ 0 (ceil_div len digest_size))) as [[block key] Hr].
  - apply Forall_seqZ. intros i Hi.
    rewrite ceil_div_spec in Hi by lia. unfold spec_num_blocks in Hi.
    rewrite Z2Nat.id in Hi by (apply Z.div_pos; unfold digest_size; lia).
    assert ((len + digest_size - 1) `div` digest_size ≤ 2 ^ 31 - 1)%Z.
    { unfold digest_size in *.
      pose proof (Z.div_mod (len + 20 - 1) 20 ltac:(lia)) as H3.
      pose proof (Z.mod_pos_bound (len + 20 - 1) 20 ltac:(lia)) as H4.
      lia. }
    lia.
  - rewrite Hr. cbn [obind]. by eexists.
Qed.

Lemma generate_key_zero self attr0 v meta :
  _generate_key hmac self attr0 v meta 0 = Return "".
Proof. reflexivity. Qed.

(** C2 (as amended): for a key length of at most [255 * digest_size],
    [_generate_key] raises exactly when [keylen < 0], and what it raises then
    is the length-domain error ([ValueError]), before any block is computed;
    the fields are not validated, so a delimiter in the attribute, the
    version or the metadata does not make it raise; a key length of 0 yields
    the empty key. *)
Theorem generate_key_validation self attr0 v meta len :
  (len ≤ 255 * digest_size)%Z →
  (raises (_generate_key hmac self attr0 v meta len) ↔ (len < 0)%Z)
  ∧ ((len < 0)%Z →
     _generate_key hmac self attr0 v meta len = Raise ValueError)
  ∧ _generate_key hmac self attr0 v meta 0 = Return "".
Proof.
  intros Hlen. split; [|split].
  - split.
    + intros [e He]. destruct (decide (len < 0)%Z) as [|Hge]; [done|].
      destruct (generate_key_returns self attr0 v meta len) as [key Hkey].
      { unfold digest_size in *. lia. }
      congruence.
    + intros Hneg. exists ValueError. by apply generate_key_negative.
  - apply generate_key_negative.
  - apply generate_key_zero.
Qed.

(** C3: for a key length in range, [_generate_key] returns the first
    [keylen] bytes of block_1 || ... || block_n with n = ceil(keylen / 20),
    block_0 empty and block_i = HMAC(secret, block_(i-1) || info || byte(i)),
    where info joins attribute, version, metadata and key length with the
    delimiter: the length is part of every HMAC input. *)
Theorem generate_key_refines_spec self attr0 v meta len :
  (0 ≤ len ≤ 255 * digest_size)%Z →
  _generate_key hmac self attr0 v meta len
  = Return (spec_generate hmac (_msk self) attr0 v meta len).
Proof.
  intros Hlen. unfold _generate_key, spec_generate.
  rewrite decide_False by lia. cbv zeta.
  rewrite ceil_div_spec, key_info_spec by lia.
  rewrite block_loop_spec.
  - cbn [obind]. unfold slice_to. by rewrite decide_True by lia.
  - unfold spec_num_blocks, digest_size in *.
    pose proof (Z.div_mod (len + 20 - 1) 20 ltac:(lia)) as H3.
    pose proof (Z.mod_pos_bound (len + 20 - 1) 20 ltac:(lia)) as H4.
    lia.
Qed.

(** The block loop of the method runs as the loop on the secret that the
    object holds, and leaves the objects as they are: it only creates hmac
    objects. *)
Lemma method_block_loop_run (self : loc) info xs locals mem :
  ∃ created,
    Method.for_fold xs (Method.block_loop_body hmac self info) locals mem
    = (ofold (block_loop_body hmac (instances mem self) info) locals xs,
       mkMemory (instances mem) (hmacs mem ++ created)).
Proof.
  revert locals mem. induction xs as [|i xs IH]; intros [block key] mem.
  - exists []. destruct mem. simpl. by rewrite app_nil_r.
  - cbn [Method.for_fold ofold].
    unfold Method.bind at 1, Method.block_loop_body, block_loop_body.
    unfold Method.bind at 1, Method.lift, struct_pack_be_i.
    case_decide; cbn [obind].
    + unfold Method.bind, Method.getattr_msk, Method.hmac_new, Method.ret,
        Method.digest. cbn [fst snd].
      edestruct (IH (hmac (_msk (instances mem self))
                       (block +:+ info +:+ chr (i + 1)),
                     key +:+ hmac (_msk (instances mem self))
                               (block +:+ info +:+ chr (i + 1)))) as [created ->].
      eexists. cbn [instances hmacs]. by rewrite <- app_assoc.
    + exists []. destruct mem. simpl. by rewrite app_nil_r.
Qed.

(** An invocation of the method returns what the derivation gives for the
    secret that the object holds. *)
Lemma method_generate_key_run (self : loc) attr0 v meta len mem :
  ∃ created,
    Method._generate_key hmac self attr0 v meta len mem
    = (_generate_key hmac (instances mem self) attr0 v meta len,
       mkMemory (instances mem) (hmacs mem ++ created)).
Proof.
  unfold Method._generate_key, _generate_key.
  unfold Method.bind at 1, Method.getattr_msk.
  unfold Method.bind at 1, Method.hmac_new.
  case_decide.
  - eexists. reflexivity.
  - cbv zeta. unfold Method.bind.
    edestruct (method_block_loop_run self
                 (key_info attr0 v meta len)
                 (seqZ 0 (ceil_div len digest_size)) ("", "")) as [created ->].
    cbn [instances hmacs].
    destruct (ofold _ _ _) as [[block key]|e]; cbn [obind];
      eexists; unfold Method.ret; by rewrite <- app_assoc.
Qed.

Lemma method_after_instances (prior : list Method.invocation) mem :
  instances (Method.after hmac prior mem) = instances mem.
Proof.
  unfold Method.after. revert mem.
  induction prior as [|[[[[self attr0] v] meta] len] prior IH];
    intros mem; [done|].
  cbn [fold_left]. rewrite IH.
  by destruct (method_generate_key_run self attr0 v meta len mem)
    as [created ->].
Qed.

(** C9: two invocations of the method, on any two objects that hold the same
    master secret and in any two memories, return the same result for the
    same four arguments; earlier invocations, on whatever objects and
    arguments, do not change what an invocation returns; and an invocation
    leaves every key generator as it was. *)
Theorem generate_key_deterministic (self self' : loc) (mem mem' : memory)
    (prior : list Method.invocation) attr0 v meta len :
  _msk (instances mem self) = _msk (instances mem' self') →
  (Method._generate_key hmac self attr0 v meta len mem).1
  = (Method._generate_key hmac self' attr0 v meta len mem').1
  ∧ (Method._generate_key hmac self attr0 v meta len
       (Method.after hmac prior mem)).1
    = (Method._generate_key hmac self attr0 v meta len mem).1
  ∧ instances (Method._generate_key hmac self attr0 v meta len mem).2
    = instances mem.
Proof.
  intros Hmsk.
  destruct (method_generate_key_run self attr0 v meta len mem)
    as [created ->].
  destruct (method_generate_key_run self' attr0 v meta len mem')
    as [created' ->].
  destruct (method_generate_key_run self attr0 v meta len
              (Method.after hmac prior mem)) as [created'' ->].
  cbn [fst snd instances]. rewrite method_after_instances.
  split; [|done].
  destruct (instances mem self) as [k], (instances mem' self') as [k'].
  simpl in Hmsk. by subst k'.
Qed.
End KeyDeriverProperties.

(** * Properties of revocation *)

(** ** Relations kept by every step of a computation *)

Section Preserves.
Context (R : world → world → Prop) `{!PreOrder R}.
Lemma preserves_ret {A} (a : A) : preserves R (ret a).
Proof. intros w. reflexivity. Qed.

Lemma preserves_raise {A} (e : exn) : preserves R (@raise A e).
Proof. intros w. reflexivity. Qed.

Lemma preserves_lift {A} (o : outcome A) : preserves R (lift o).
Proof. intros w. reflexivity. Qed.

Lemma preserves_read_local {A} (x : option A) : preserves R (read_local x).
Proof. destruct x; [apply preserves_ret | apply preserves_raise]. Qed.

Lemma preserves_bind {A B} (m : M A) (k : A → M B) :
  preserves R m → (∀ a, preserves R (k a)) → preserves R (bind m k).
Proof.
  intros Hm Hk w. unfold bind. specialize (Hm w).
  destruct (m w) as [[a|e] w1]; simpl in *; [|done].
  etrans; [exact Hm | apply Hk].
Qed.

Lemma preserves_for_each {A} (xs : list A) (body : A → M unit) :
  (∀ x, preserves R (body x)) → preserves R (for_each xs body).
Proof.
  intros Hbody. induction xs as [|x xs IH]; simpl.
  - apply preserves_ret.
  - apply preserves_bind; [apply Hbody | intros _; apply IH].
Qed.

Lemma preserves_for_fold {A S} (xs : list A) (body : S → A → M S) l :
  (∀ l x, preserves R (body l x)) → preserves R (for_fold xs body l).
Proof.
  intros Hbody. revert l. induction xs as [|x xs IH]; intros l; simpl.
  - apply preserves_ret.
  - apply preserves_bind; [apply Hbody | intros l'; apply IH].
Qed.
End Preserves.

Global Instance same_dicts_preorder : PreOrder same_dicts.
Proof. split; unfold same_dicts; [done | intros x y z; congruence]. Qed.
Global Instance same_indices_preorder : PreOrder same_indices.
Proof.
  split; unfold same_indices; [done|].
  intros x y z [??] [??]. split; congruence.
Qed.

(** Structural steps shared by the frame proofs below. *)
Ltac frame_step :=
  first
    [ apply preserves_bind; [apply _| |intros ?]
    | apply preserves_for_each; [apply _|intros ?]
    | apply preserves_for_fold; [apply _|intros ? ?]
    | apply preserves_ret; apply _
    | apply preserves_raise; apply _
    | apply preserves_lift; apply _
    | apply preserves_read_local; apply _
    | match goal with
      | |- preserves _ (if ?b then _ else _) => destruct b
      | |- preserves _ (match ?x with _ => _ end) => destruct x
      end
    | progress (intros ?; done) ].

Section RevocationFrames.
Context (hmac : string → string → string).
Context {PK : Type} (wrap_key : string → PK → option string).
Implicit Types (self : KeyGen) (user_pks : gmap string PK).

Lemma rotate_same_dicts self userid attr0 d l meta :
  preserves same_dicts (rotate hmac self userid attr0 d l meta).
Proof.
  unfold rotate. repeat frame_step.
Qed.

Lemma rewrap_same_dicts attr0 user_pks l user meta :
  preserves same_dicts (rewrap wrap_key attr0 user_pks l user meta).
Proof. unfold rewrap. repeat frame_step. Qed.

Lemma revoke_same_dicts self userid attr0 user_pks mk :
  preserves same_dicts (revoke hmac wrap_key self userid attr0 user_pks mk).
Proof.
  unfold revoke, redistribute. frame_step; [by intros ?|].
  case_decide; repeat frame_step.
  all: first [apply rotate_same_dicts | apply rewrap_same_dicts].
Qed.

Lemma revoke_all_attrs_same_dicts self userid user_pks mk :
  preserves same_dicts
    (revoke_all_attrs hmac wrap_key self userid user_pks mk).
Proof.
  unfold revoke_all_attrs. frame_step; [by intros ?|].
  apply preserves_for_each; [apply _|]. intros attr0.
  apply revoke_same_dicts.
Qed.

Lemma rotate_same_indices self userid attr0 d l meta :
  preserves same_indices (rotate hmac self userid attr0 d l meta).
Proof.
  unfold rotate. repeat frame_step.
Qed.

Lemma rewrap_same_indices attr0 user_pks l user meta :
  preserves same_indices (rewrap wrap_key attr0 user_pks l user meta).
Proof. unfold rewrap. repeat frame_step. Qed.
End RevocationFrames.

(** ** Outcomes and final worlds *)

Lemma wp_bind {A B} (m : M A) (k : A → M B) Q w :
  wp m (fun o w' => match o with
                    | Return a => wp (k a) Q w'
                    | Raise e => Q (Raise e) w'
                    end) w →
  wp (bind m k) Q w.
Proof. unfold wp, bind. by destruct (m w) as [[a|e] w']. Qed.

Lemma wp_mono {A} (m : M A) (Q Q' : outcome A → world → Prop) w :
  (∀ o w', Q o w' → Q' o w') → wp m Q w → wp m Q' w.
Proof. unfold wp. auto. Qed.

(** A loop keeps an invariant that each iteration keeps, also when an
    iteration raises. *)
Lemma wp_for_each {A} (I : world → Prop) (xs : list A) (body : A → M unit) w :
  I w →
  (∀ x w', x ∈ xs → I w' → wp (body x) (fun _ w'' => I w'') w') →
  wp (for_each xs body) (fun _ w' => I w') w.
Proof.
  revert w. induction xs as [|x xs IH]; intros w Hw Hbody; [done|].
  simpl. apply wp_bind.
  eapply wp_mono; [|apply (Hbody x w); [left | done]].
  intros [[]|e] w' Hw'; [|done].
  apply IH; [done|]. intros y w'' Hy. apply Hbody. by right.
Qed.

(** A loop with locals: the invariant is indexed by the elements already
    handled; [E] is what is known when an iteration raises. *)
Lemma wp_for_fold {A S} (I : list A → S → world → Prop) (E : world → Prop)
    (xs : list A) (body : S → A → M S) (l0 : S) w :
  I [] l0 w →
  (∀ handled x rest l w', xs = handled ++ x :: rest → I handled l w' →
     wp (body l x) (fun o w'' => match o with
                                 | Return l' => I (handled ++ [x]) l' w''
                                 | Raise _ => E w''
                                 end) w') →
  wp (for_fold xs body l0)
     (fun o w' => match o with
                  | Return l => I xs l w'
                  | Raise _ => E w'
                  end) w.
Proof.
  intros Hw Hbody.
  enough (∀ ys handled l w, xs = handled ++ ys → I handled l w →
            wp (for_fold ys body l)
               (fun o w' => match o with
                            | Return l' => I (handled ++ ys) l' w'
                            | Raise _ => E w'
                            end) w) as Hgen.
  { apply (Hgen xs [] l0 w); done. }
  clear w l0 Hw. induction ys as [|y ys IH]; intros handled l w Hxs Hw.
  - unfold wp. simpl. by rewrite app_nil_r.
  - simpl. apply wp_bind.
    eapply wp_mono; [|apply (Hbody handled y ys l w); done].
    intros [l'|e] w' Hw'; [|done].
    replace (handled ++ y :: ys) with ((handled ++ [y]) ++ ys)
      by (by rewrite <- app_assoc).
    apply IH; [|done]. by rewrite <- app_assoc.
Qed.

Lemma wp_and {A} (m : M A) (Q1 Q2 : outcome A → world → Prop) w :
  wp m Q1 w → wp m Q2 w → wp m (fun o w' => Q1 o w' ∧ Q2 o w') w.
Proof. unfold wp. by split. Qed.

(** ** The key store *)

Lemma elem_of_get_metadatas (u a m : string) (ks : KeyStore.t) :
  m ∈ KeyStore.get_metadatas u a ks
  ↔ ∃ row, row ∈ ks ∧ KeyStore.held u a row ∧ metadata row.2 = m.
Proof.
  unfold KeyStore.get_metadatas. rewrite elem_of_list_to_set, list_elem_of_fmap.
  split.
  - intros (row & -> & Hrow). apply list_elem_of_filter in Hrow as [??].
    by exists row.
  - intros (row & Hrow & Hheld & <-). exists row. split; [done|].
    by apply list_elem_of_filter.
Qed.

Lemma get_metadatas_remove_other (u u' a a' m : string) (ks : KeyStore.t) :
  u ≠ u' →
  KeyStore.get_metadatas u a (KeyStore.remove_revoked_keys u' m a' ks)
  = KeyStore.get_metadatas u a ks.
Proof.
  intros Hne. apply set_eq. intros x. rewrite !elem_of_get_metadatas.
  unfold KeyStore.remove_revoked_keys.
  split; intros (row & Hrow & Hheld & Hx); exists row.
  - apply list_elem_of_filter in Hrow as [??]. done.
  - split; [|done]. apply list_elem_of_filter. split; [|done].
    destruct Hheld as [Hu _]. unfold KeyStore.keyed. intros [Hu' _]. congruence.
Qed.

Lemma get_metadatas_insert_other (u u' a : string) info (ks : KeyStore.t) :
  u ≠ u' →
  KeyStore.get_metadatas u a (KeyStore.insert u' info ks)
  = KeyStore.get_metadatas u a ks.
Proof.
  intros Hne. apply set_eq. intros x. rewrite !elem_of_get_metadatas.
  unfold KeyStore.insert.
  split; intros (row & Hrow & Hheld & Hx); exists row.
  - apply elem_of_app in Hrow as [Hrow|Hrow]; [done|].
    apply list_elem_of_singleton in Hrow as ->.
    destruct Hheld as [Hu _]. simpl in Hu. congruence.
  - split; [|done]. apply elem_of_app. by left.
Qed.

Lemma get_metadatas_insert_held (u a : string) info (ks : KeyStore.t) :
  metadata info ∈ KeyStore.get_metadatas u a ks →
  KeyStore.get_metadatas u a (KeyStore.insert u info ks)
  = KeyStore.get_metadatas u a ks.
Proof.
  intros Hin. apply set_eq. intros x. rewrite !elem_of_get_metadatas.
  unfold KeyStore.insert. split.
  - intros (row & Hrow & Hheld & Hx).
    apply elem_of_app in Hrow as [Hrow|Hrow]; [by exists row|].
    apply list_elem_of_singleton in Hrow as ->. simpl in Hx. subst x.
    by apply elem_of_get_metadatas.
  - intros (row & Hrow & Hheld & Hx). exists row.
    split; [|done]. apply elem_of_app. by left.
Qed.

(** ** The invariants of a running revocation *)

Lemma new_calls_app (w w' : world) (tr : list call) :
  trace w' = trace w ++ tr → new_calls w w' = tr.
Proof. unfold new_calls. intros ->. by rewrite drop_app_length. Qed.

Lemma revoking_start (w0 : world) (userid attr0 : string) :
  revoking w0 userid attr0 [] w0.
Proof.
  split; [done|]. exists []. rewrite app_nil_r.
  split; [done|]. split; [done|]. intros m Hm. by apply elem_of_nil in Hm.
Qed.

Lemma revoking_forget (w0 : world) (userid attr0 : string) removed w :
  revoking w0 userid attr0 removed w → revoking w0 userid attr0 [] w.
Proof.
  intros (Hmeta & tr & Htr & Hall & _). split; [done|].
  exists tr. do 2 (split; [done|]). intros m Hm. by apply elem_of_nil in Hm.
Qed.

(** One more allowed call, by which the metadata of the other users stay
    as they are; the call may be the purge of one more metadata. *)
Lemma revoking_call (w0 : world) (userid attr0 : string) removed removed'
    w w' c :
  revoking w0 userid attr0 removed w →
  (∀ u, u ≠ userid → KeyStore.get_metadatas u attr0 (keystore w')
                     = KeyStore.get_metadatas u attr0 (keystore w)) →
  trace w' = trace w ++ [c] →
  allowed w0 userid attr0 c →
  (∀ m, m ∈ removed' →
        m ∈ removed ∨ c = remove_revoked_keys_call userid m attr0) →
  revoking w0 userid attr0 removed' w'.
Proof.
  intros (Hmeta & tr & Htr & Hall & Hrem) Hmeta' Htr' Hc Hrem'. split.
  - intros u Hu. by rewrite Hmeta', Hmeta.
  - exists (tr ++ [c]). rewrite Htr', Htr, <- app_assoc. split; [done|]. split.
    + apply Forall_app. split; [done|]. by apply Forall_singleton.
    + intros m Hm. apply elem_of_app.
      destruct (Hrem' m Hm) as [Hold| ->]; [left; by apply Hrem|].
      right. by apply list_elem_of_singleton.
Qed.

Section RevocationInvariants.
Context (hmac : string → string → string).
Context {PK : Type} (wrap_key : string → PK → option string).
Implicit Types (self : KeyGen) (user_pks : gmap string PK) (w : world).

(** The end of the rotation body, from the derivation on. *)
Lemma rotate_tail_rotating self w0 userid attr0 handled l meta w
    (new_vers0 new_keylen0 : Z) :
  meta ∈ KeyStore.get_metadatas userid attr0 (keystore w0) →
  rotating w0 userid attr0 handled l w →
  wp (new_key <- lift (_generate_key hmac self attr0 (VInt new_vers0) meta
                                     new_keylen0) ;;
      remove_revoked_keys userid meta attr0 ;;
      ret (mkLocals (<[meta := new_key]> (new_keys l)) (Some new_vers0)
                    (Some new_keylen0)))
     (fun o w' =>
        match o with
        | Return l' => rotating w0 userid attr0 (handled ++ [meta]) l' w'
        | Raise _ => revoking w0 userid attr0 [] w'
        end) w.
Proof.
  intros Hmeta (Hrev & Hsub & Hfresh & Hkeys).
  unfold wp, bind, lift, remove_revoked_keys, ret.
  destruct (_generate_key _ _ _ _ _ _) as [new_key|e]; simpl;
    [|by eapply revoking_forget].
  split; [|split; [|split]].
  - eapply revoking_call; [exact Hrev| |reflexivity| |].
    + intros u Hu. simpl. by apply get_metadatas_remove_other.
    + simpl. done.
    + intros m Hm. apply elem_of_app in Hm as [Hm|Hm]; [by left|].
      apply list_elem_of_singleton in Hm as ->. by right.
  - intros row Hrow. simpl in Hrow.
    apply list_elem_of_filter in Hrow as [_ Hrow]. by apply Hsub.
  - intros row Hrow Hheld. simpl in Hrow.
    apply list_elem_of_filter in Hrow as [Hkeyed Hrow].
    intros Hin. apply elem_of_app in Hin as [Hin|Hin].
    + by apply (Hfresh row).
    + apply list_elem_of_singleton in Hin. apply Hkeyed.
      destruct Hheld as [??]. done.
  - intros m Hm. simpl in Hm. apply elem_of_app.
    destruct (decide (meta = m)) as [->|Hne].
    + right. by apply list_elem_of_singleton.
    + left. apply Hkeys. by rewrite lookup_insert_ne in Hm.
Qed.

Lemma rotate_rotating self w0 userid attr0 d handled l meta w :
  meta ∈ KeyStore.get_metadatas userid attr0 (keystore w0) →
  rotating w0 userid attr0 handled l w →
  wp (rotate hmac self userid attr0 d l meta)
     (fun o w' =>
        match o with
        | Return l' => rotating w0 userid attr0 (handled ++ [meta]) l' w'
        | Raise _ => revoking w0 userid attr0 [] w'
        end) w.
Proof.
  intros Hmeta Hrot. unfold rotate.
  set (w1 := log (retrieve_latest_version_call userid meta attr0) w).
  assert (rotating w0 userid attr0 handled l w1) as Hrot1.
  { destruct Hrot as (Hrev & Hsub & Hfresh & Hkeys).
    split; [|done]. eapply revoking_call; [exact Hrev|done|done|done|auto]. }
  apply wp_bind. unfold wp at 1, retrieve_latest_version. simpl. fold w1.
  destruct (KeyStore.retrieve_latest_version _ _ _ _) as [cur_info|];
    [|destruct Hrot1 as [Hrev1 _]; by eapply revoking_forget].
  apply wp_bind. unfold wp at 1, dict_contains. simpl.
  apply wp_bind. destruct (bool_decide _).
  - unfold wp at 1, dict_getitem. simpl.
    destruct (dict_at d w1 !! meta) as [n|];
      [|destruct Hrot1 as [Hrev1 _]; by eapply revoking_forget].
    by apply rotate_tail_rotating.
  - unfold wp at 1, ret. simpl. by apply rotate_tail_rotating.
Qed.

(** Re-wrapping a key for another authorized user, under a metadata that
    user held at the start, keeps the invariant and leaves the revoked
    user purged. *)
Lemma rewrap_revoking w0 userid attr0 removed user_pks l user meta w :
  user ∈ AttrUserMap.users_by_attribute attr0 (attr_user_map w0) →
  user ≠ userid →
  meta ∈ KeyStore.get_metadatas user attr0 (keystore w0) →
  (∀ m, is_Some (new_keys l !! m) →
        m ∈ KeyStore.get_metadatas userid attr0 (keystore w0)) →
  revoking w0 userid attr0 removed w ∧ purged userid attr0 w →
  wp (rewrap wrap_key attr0 user_pks l user meta)
     (fun _ w' => revoking w0 userid attr0 removed w'
                  ∧ purged userid attr0 w') w.
Proof.
  intros Huser Hne Hmeta Hkeys [Hrev Hpurged]. unfold rewrap.
  destruct (new_keys l !! meta) as [sk|] eqn:Hsk; [|done].
  unfold wp, bind, lift, read_local, insert, ret, raise.
  destruct (user_pks !! user) as [pk|]; [|done].
  destruct (wrap_key sk pk) as [c|]; [|done].
  destruct (new_vers l) as [v|]; [|done].
  destruct (new_keylen l) as [n|]; [|done]. simpl. split.
  - eapply revoking_call; [exact Hrev| |reflexivity| |by left].
    + intros u Hu. simpl. destruct (decide (u = user)) as [->|Hother].
      * apply get_metadatas_insert_held. simpl.
        destruct Hrev as [Hsame _]. by rewrite Hsame.
      * by apply get_metadatas_insert_other.
    + simpl. repeat split; try done. apply Hkeys. by rewrite Hsk.
  - intros row Hrow. simpl in Hrow. unfold KeyStore.insert in Hrow.
    apply elem_of_app in Hrow as [Hrow|Hrow]; [by apply Hpurged|].
    apply list_elem_of_singleton in Hrow as ->. intros [Hu _]. done.
Qed.

Lemma redistribute_revoking w0 userid attr0 removed user_pks l user w :
  user ∈ AttrUserMap.users_by_attribute attr0 (attr_user_map w0) →
  user ≠ userid →
  (∀ m, is_Some (new_keys l !! m) →
        m ∈ KeyStore.get_metadatas userid attr0 (keystore w0)) →
  revoking w0 userid attr0 removed w ∧ purged userid attr0 w →
  wp (redistribute wrap_key attr0 user_pks l user)
     (fun _ w' => revoking w0 userid attr0 removed w'
                  ∧ purged userid attr0 w') w.
Proof.
  intros Huser Hne Hkeys [Hrev Hpurged]. unfold redistribute.
  apply wp_bind. unfold wp at 1, get_metadatas. simpl.
  apply wp_for_each.
  - split; [|done]. eapply revoking_call; [exact Hrev|done|done|done|auto].
  - intros meta w' Hmeta Hinv. apply rewrap_revoking; try done.
    apply elem_of_elements in Hmeta.
    destruct Hrev as [Hsame _]. by rewrite <- Hsame.
Qed.

(** What is known of [revoke] for a user who holds the attribute: every
    call is allowed whatever the outcome, and when it returns the revoked
    user is purged and a purge was called for each metadata the user
    held. *)
Lemma revoke_held_wp self userid attr0 user_pks mk w0 :
  userid ∈ AttrUserMap.users_by_attribute attr0 (attr_user_map w0) →
  wp (revoke hmac wrap_key self userid attr0 user_pks mk)
     (fun o w' =>
        revoking w0 userid attr0 [] w'
        ∧ (o = Return tt →
           purged userid attr0 w'
           ∧ revoking w0 userid attr0
               (elements (KeyStore.get_metadatas userid attr0 (keystore w0)))
               w')) w0.
Proof.
  intros Hheld. unfold revoke.
  apply wp_bind. unfold wp at 1, users_by_attribute. simpl.
  rewrite decide_False by (intros Hnot; by apply Hnot).
  apply wp_bind. unfold wp at 1, delete_user. simpl.
  apply wp_bind. unfold wp at 1, delete_attr. simpl.
  apply wp_bind. unfold wp at 1, get_metadatas. simpl.
  set (metas := KeyStore.get_metadatas userid attr0 (keystore w0)).
  match goal with |- wp _ _ ?w => set (w1 := w) end.
  assert (revoking w0 userid attr0 [] w1) as Hrev1.
  { split; [done|]. eexists. split; [unfold w1, log; simpl|].
    - rewrite <- !app_assoc. reflexivity.
    - split; [|intros m Hm; by apply elem_of_nil in Hm].
      repeat (apply Forall_cons; split; [done|]). done. }
  apply wp_bind.
  eapply wp_mono;
    [|apply (wp_for_fold (rotating w0 userid attr0)
               (revoking w0 userid attr0 []))].
  - intros [l|e] w2; [|done]. intros (Hrev2 & Hsub & Hfresh & Hkeys).
    assert (purged userid attr0 w2) as Hpurged.
    { intros row Hrow Hrowheld. apply (Hfresh row Hrow Hrowheld).
      apply elem_of_elements, elem_of_get_metadatas.
      exists row. eauto. }
    eapply wp_mono;
      [|apply (wp_for_each
                 (fun w' => revoking w0 userid attr0 (elements metas) w'
                            ∧ purged userid attr0 w'))].
    + intros o w3 [Hrev3 Hpurged3]. split; [by eapply revoking_forget|].
      done.
    + done.
    + intros user w3 Huser Hinv. apply elem_of_elements in Huser.
      apply elem_of_difference in Huser as [Huser Hne].
      apply redistribute_revoking; try done.
      * intros ->. apply Hne. by apply elem_of_singleton.
      * intros m Hm. apply elem_of_elements. by apply Hkeys.
  - split; [done|]. split; [done|]. split.
    + intros row _ _ Hin. by apply elem_of_nil in Hin.
    + intros m [x Hx]. simpl in Hx. by rewrite lookup_empty in Hx.
  - intros handled meta rest l w2 Hmetas Hrot.
    apply rotate_rotating; [|done].
    assert (meta ∈ elements metas) as Hin
      by (rewrite Hmetas; apply elem_of_app; right; left).
    by apply elem_of_elements in Hin.
Qed.
End RevocationInvariants.

(** ** The attribute indices *)

Lemma elem_of_users_delete_user (a u attr0 userid : string)
    (m : AttrUserMap.t) :
  u ∈ AttrUserMap.users_by_attribute a (AttrUserMap.delete_user attr0 userid m)
  ↔ u ∈ AttrUserMap.users_by_attribute a m ∧ ¬ (a = attr0 ∧ u = userid).
Proof.
  unfold AttrUserMap.users_by_attribute, AttrUserMap.delete_user.
  destruct (decide (a = attr0)) as [->|Hne].
  - rewrite lookup_alter_eq. destruct (m !! attr0); simpl; set_solver.
  - rewrite lookup_alter_ne by done. naive_solver.
Qed.

Lemma elem_of_attributes_delete_attr (u a userid attr0 : string)
    (m : UserAttrMap.t) :
  a ∈ UserAttrMap.attributes_by_user u (UserAttrMap.delete_attr userid attr0 m)
  ↔ a ∈ UserAttrMap.attributes_by_user u m ∧ ¬ (u = userid ∧ a = attr0).
Proof.
  unfold UserAttrMap.attributes_by_user, UserAttrMap.delete_attr.
  destruct (decide (u = userid)) as [->|Hne].
  - rewrite lookup_alter_eq. destruct (m !! userid); simpl; set_solver.
  - rewrite lookup_alter_ne by done. naive_solver.
Qed.

Lemma wp_preserves {A} (R : world → world → Prop) (m : M A) w :
  preserves R m → wp m (fun _ w' => R w w') w.
Proof. intros Hm. apply Hm. Qed.

(** ** The calls of a computation *)

Global Instance calls_satisfy_preorder (P : call → Prop) :
  PreOrder (calls_satisfy P).
Proof.
  split.
  - intros w. exists []. by rewrite app_nil_r.
  - intros w1 w2 w3 (t1 & H1 & F1) (t2 & H2 & F2). exists (t1 ++ t2).
    rewrite H2, H1, app_assoc. split; [done|]. by apply Forall_app.
Qed.

Lemma calls_satisfy_log (P : call → Prop) (c : call) (w w' : world) :
  trace w' = trace w ++ [c] → P c → calls_satisfy P w w'.
Proof. intros Htr Hc. exists [c]. split; [done|]. by apply Forall_singleton. Qed.

Lemma calls_satisfy_mono (P Q : call → Prop) (w w' : world) :
  (∀ c, P c → Q c) → calls_satisfy P w w' → calls_satisfy Q w w'.
Proof.
  intros HPQ (tr & Htr & Hall). exists tr. split; [done|].
  eapply Forall_impl; [exact Hall | exact HPQ].
Qed.

Lemma no_insert_stamped (l : locals) (c : call) : no_insert c → stamped l c.
Proof. by destruct c. Qed.

Lemma elem_of_inserted (tr : list call) u m v n :
  (u, m, v, n) ∈ inserted tr →
  ∃ info, insert_call u info ∈ tr
          ∧ metadata info = m ∧ vers info = v ∧ keylen info = n.
Proof.
  unfold inserted. rewrite list_elem_of_omap. intros (c & Hc & Heq).
  destruct c; try done. injection Heq as <- <- <- <-. by eexists.
Qed.

Ltac calls_step :=
  first
    [ frame_step
    | intros ?; first [ reflexivity
                      | eapply calls_satisfy_log; [reflexivity | done] ] ].

Section RevocationCalls.
Context (hmac : string → string → string).
Context {PK : Type} (wrap_key : string → PK → option string).
Implicit Types (self : KeyGen) (user_pks : gmap string PK) (w : world).

Lemma rotate_no_insert self userid attr0 d l meta :
  preserves (calls_satisfy no_insert) (rotate hmac self userid attr0 d l meta).
Proof. unfold rotate. repeat calls_step. Qed.

Lemma rewrap_stamped attr0 user_pks l user meta :
  preserves (calls_satisfy (stamped l))
    (rewrap wrap_key attr0 user_pks l user meta).
Proof.
  unfold rewrap. destruct (new_keys l !! meta) as [sk|]; [|calls_step].
  intros w. unfold bind, lift, read_local, insert, ret, raise.
  destruct (user_pks !! user) as [pk|]; [|reflexivity].
  destruct (wrap_key sk pk) as [c|]; [|reflexivity].
  destruct (new_vers l) as [v|] eqn:Hv; [|reflexivity].
  destruct (new_keylen l) as [n|] eqn:Hn; [|reflexivity].
  eapply calls_satisfy_log; [reflexivity|]. simpl. by split.
Qed.

Lemma redistribute_stamped attr0 user_pks l user :
  preserves (calls_satisfy (stamped l))
    (redistribute wrap_key attr0 user_pks l user).
Proof.
  unfold redistribute. apply preserves_bind; [apply _|calls_step|].
  intros metas. apply preserves_for_each; [apply _|]. intros meta.
  apply rewrap_stamped.
Qed.

(** All the records inserted by one call of [revoke] carry the version and
    the length that the rotation loop left in [new_vers] and [new_keylen]. *)
Lemma revoke_inserts_stamped self userid attr0 user_pks mk w :
  ∃ l, calls_satisfy (stamped l) w
         (revoke hmac wrap_key self userid attr0 user_pks mk w).2.
Proof.
  enough (wp (revoke hmac wrap_key self userid attr0 user_pks mk)
            (fun _ w' => ∃ l, calls_satisfy (stamped l) w w') w) as Hwp
    by exact Hwp.
  unfold revoke. apply wp_bind. unfold wp at 1, users_by_attribute. simpl.
  case_decide.
  { exists (mkLocals ∅ None None). by eapply calls_satisfy_log. }
  apply wp_bind. unfold wp at 1, delete_user. simpl.
  apply wp_bind. unfold wp at 1, delete_attr. simpl.
  apply wp_bind. unfold wp at 1, get_metadatas. simpl.
  match goal with |- wp _ _ ?w' => set (w1 := w') end.
  assert (calls_satisfy no_insert w w1) as H01.
  { eexists. split; [unfold w1, log; simpl; by rewrite <- !app_assoc|].
    repeat (apply Forall_cons; split; [done|]). done. }
  apply wp_bind.
  eapply wp_mono; [|apply (wp_preserves (calls_satisfy no_insert))].
  - intros [l|e] w2 H12.
    + eapply wp_mono; [|apply (wp_preserves (calls_satisfy (stamped l)))].
      * intros o w3 H23. exists l. etrans; [|exact H23].
        eapply calls_satisfy_mono; [apply no_insert_stamped|].
        etrans; [exact H01 | exact H12].
      * apply preserves_for_each; [apply _|]. intros user.
        apply redistribute_stamped.
    + exists (mkLocals ∅ None None).
      eapply calls_satisfy_mono; [apply no_insert_stamped|].
      etrans; [exact H01 | exact H12].
  - apply preserves_for_fold; [apply _|]. intros l meta.
    apply rotate_no_insert.
Qed.

(** So the records inserted by one call all carry one version and one
    length, whatever their metadata and whatever the order in which the
    metadata are enumerated. *)
Lemma revoke_inserts_share_version self userid attr0 user_pks mk w
    u1 info1 u2 info2 :
  let w' := (revoke hmac wrap_key self userid attr0 user_pks mk w).2 in
  insert_call u1 info1 ∈ new_calls w w' →
  insert_call u2 info2 ∈ new_calls w w' →
  vers info1 = vers info2 ∧ keylen info1 = keylen info2.
Proof.
  intros w'.
  destruct (revoke_inserts_stamped self userid attr0 user_pks mk w)
    as (l & tr & Htr & Hall).
  fold w' in Htr. rewrite (new_calls_app w w' tr Htr).
  rewrite Forall_forall in Hall. intros H1 H2.
  apply Hall in H1 as [Hv1 Hn1]. apply Hall in H2 as [Hv2 Hn2].
  split; congruence.
Qed.
End RevocationCalls.

(** ** The keys wrapped in the inserted records *)

Lemma filter_keyed_remove_other (u m m' a : string) (ks : KeyStore.t) :
  m ≠ m' →
  filter (KeyStore.keyed u m a) (KeyStore.remove_revoked_keys u m' a ks)
  = filter (KeyStore.keyed u m a) ks.
Proof.
  intros Hne. unfold KeyStore.remove_revoked_keys.
  induction ks as [|row ks IH]; [done|].
  rewrite (filter_cons (fun row => ¬ KeyStore.keyed u m' a row)).
  rewrite (filter_cons (KeyStore.keyed u m a) row ks).
  destruct (decide (¬ KeyStore.keyed u m' a row)) as [Hkeep|Hdrop].
  - rewrite filter_cons, IH. done.
  - rewrite IH. rewrite decide_False; [done|].
    intros (_ & _ & Hm). apply Hdrop. intros (_ & _ & Hm'). congruence.
Qed.

Section MintedKeys.
Context (hmac : string → string → string).
Context {PK : Type} (wrap_key : string → PK → option string).
Implicit Types (self : KeyGen) (user_pks : gmap string PK) (w : world).

Lemma rotate_tail_minting self w0 userid attr0 d handled l meta w cur_info
    (new_keylen0 : Z) :
  meta ∉ handled →
  KeyStore.retrieve_latest_version userid meta attr0 (keystore w0)
  = Some cur_info →
  rotated_keylen w0 d userid attr0 meta = Some new_keylen0 →
  minting hmac self w0 d userid attr0 handled l w →
  wp (new_key <- lift (_generate_key hmac self attr0
                         (VInt (vers cur_info + 1)) meta new_keylen0) ;;
      remove_revoked_keys userid meta attr0 ;;
      ret (mkLocals (<[meta := new_key]> (new_keys l))
                    (Some (vers cur_info + 1)%Z) (Some new_keylen0)))
     (fun o w' =>
        match o with
        | Return l' => minting hmac self w0 d userid attr0 (handled ++ [meta])
                         l' w'
        | Raise _ => True
        end) w.
Proof.
  intros Hfresh Hcur Hlen (Hdicts & Hrows & Hkeys).
  unfold wp, bind, lift, remove_revoked_keys, ret.
  destruct (_generate_key _ _ _ _ _ _) as [new_key|e] eqn:Hkey; simpl;
    [|done].
  split; [done|]. split.
  - intros m Hm.
    etrans; [apply (filter_keyed_remove_other userid m meta attr0)|].
    + intros ->. apply Hm. apply elem_of_app. right. left.
    + apply Hrows. intros Hin. apply Hm. apply elem_of_app. by left.
  - intros m sk Hm. simpl in Hm. destruct (decide (meta = m)) as [<-|Hne].
    + rewrite lookup_insert_eq in Hm. injection Hm as <-.
      exists (vers cur_info + 1)%Z, new_keylen0.
      split; [|done]. unfold rotated_vers. by rewrite Hcur.
    + rewrite lookup_insert_ne in Hm by done. by apply Hkeys.
Qed.

Lemma rotate_minting self w0 userid attr0 d handled l meta w :
  meta ∉ handled →
  minting hmac self w0 d userid attr0 handled l w →
  wp (rotate hmac self userid attr0 d l meta)
     (fun o w' =>
        match o with
        | Return l' => minting hmac self w0 d userid attr0 (handled ++ [meta])
                         l' w'
        | Raise _ => True
        end) w.
Proof.
  intros Hfresh Hmint. unfold rotate.
  set (w1 := log (retrieve_latest_version_call userid meta attr0) w).
  assert (minting hmac self w0 d userid attr0 handled l w1) as Hmint1
    by exact Hmint.
  destruct Hmint as (Hdicts & Hrows & Hkeys).
  apply wp_bind. unfold wp at 1, retrieve_latest_version. simpl. fold w1.
  assert (KeyStore.retrieve_latest_version userid meta attr0 (keystore w)
          = KeyStore.retrieve_latest_version userid meta attr0 (keystore w0))
    as ->.
  { unfold KeyStore.retrieve_latest_version. by rewrite (Hrows meta Hfresh). }
  destruct (KeyStore.retrieve_latest_version _ _ _ _) as [cur_info|] eqn:Hcur;
    [|done].
  assert (dict_at d w1 = dict_at d w0) as Hdict.
  { unfold dict_at. simpl. by rewrite Hdicts. }
  apply wp_bind. unfold wp at 1, dict_contains. simpl. rewrite Hdict.
  apply wp_bind. destruct (dict_at d w0 !! meta) as [n|] eqn:Hn.
  - rewrite bool_decide_eq_true_2 by by eexists.
    unfold wp at 1, dict_getitem. simpl. rewrite Hdict, Hn.
    eapply rotate_tail_minting; try done.
    unfold rotated_keylen. by rewrite Hn.
  - rewrite bool_decide_eq_false_2 by (by intros [??]).
    unfold wp at 1, ret. simpl.
    eapply rotate_tail_minting; try done.
    unfold rotated_keylen. by rewrite Hn, Hcur.
Qed.

Lemma rewrap_wraps_new_key attr0 user_pks l user meta :
  preserves (calls_satisfy (wraps_new_key wrap_key user_pks l))
    (rewrap wrap_key attr0 user_pks l user meta).
Proof.
  unfold rewrap. destruct (new_keys l !! meta) as [sk|] eqn:Hsk;
    [|calls_step].
  intros w. unfold bind, lift, read_local, insert, ret, raise.
  destruct (user_pks !! user) as [pk|] eqn:Hpk; [|reflexivity].
  destruct (wrap_key sk pk) as [c|] eqn:Hc; [|reflexivity].
  destruct (new_vers l) as [v|]; [|reflexivity].
  destruct (new_keylen l) as [n|]; [|reflexivity].
  eapply calls_satisfy_log; [reflexivity|]. simpl. by exists sk, pk.
Qed.

Lemma no_insert_wraps_new_key user_pks (l : locals) (c : call) :
  no_insert c → wraps_new_key wrap_key user_pks l c.
Proof. by destruct c. Qed.

(** Every record inserted by [revoke] wraps, under the public key of the
    user it is inserted for, the key minted for its own metadata: the key
    derived for the rotated version and the determined length of that
    metadata. *)
Lemma revoke_wraps_minted_keys self userid attr0 user_pks mk w u info :
  insert_call u info
    ∈ new_calls w (revoke hmac wrap_key self userid attr0 user_pks mk w).2 →
  ∃ sk pk, minted hmac self w (default revoke_defaults mk) userid attr0
             (metadata info) sk
           ∧ user_pks !! u = Some pk
           ∧ wrap_key sk pk = Some (keywrap info).
Proof.
  enough (wp (revoke hmac wrap_key self userid attr0 user_pks mk)
            (fun _ w' =>
               ∃ l, (∀ m sk, new_keys l !! m = Some sk →
                       minted hmac self w (default revoke_defaults mk) userid
                         attr0 m sk)
                    ∧ calls_satisfy (wraps_new_key wrap_key user_pks l) w w')
            w) as Hwp.
  { destruct Hwp as (l & Hkeys & tr & Htr & Hall). intros Hcall.
    rewrite (new_calls_app _ _ tr Htr) in Hcall.
    rewrite Forall_forall in Hall. apply Hall in Hcall.
    destruct Hcall as (sk & pk & Hsk & Hpk & Hwrap).
    exists sk, pk. split; [by apply Hkeys|done]. }
  unfold revoke. apply wp_bind. unfold wp at 1, users_by_attribute. simpl.
  case_decide.
  { exists (mkLocals ∅ None None). split; [|by eapply calls_satisfy_log].
    intros m sk Hm. simpl in Hm. by rewrite lookup_empty in Hm. }
  apply wp_bind. unfold wp at 1, delete_user. simpl.
  apply wp_bind. unfold wp at 1, delete_attr. simpl.
  apply wp_bind. unfold wp at 1, get_metadatas. simpl.
  set (metas := KeyStore.get_metadatas userid attr0 (keystore w)).
  set (d := default revoke_defaults mk).
  match goal with |- wp _ _ ?w' => set (w1 := w') end.
  assert (calls_satisfy no_insert w w1) as H01.
  { eexists. split; [unfold w1, log; simpl; by rewrite <- !app_assoc|].
    repeat (apply Forall_cons; split; [done|]). done. }
  apply wp_bind.
  eapply wp_mono;
    [|apply wp_and;
      [apply (wp_for_fold (minting hmac self w d userid attr0)
                (fun _ => True))
      |apply (wp_preserves (calls_satisfy no_insert))]].
  - intros [l|e] w2 [Hmint H12].
    + eapply wp_mono;
        [|apply (wp_preserves
                   (calls_satisfy (wraps_new_key wrap_key user_pks l)))].
      * intros o w3 H23. exists l. split; [by destruct Hmint as (_ & _ & ?)|].
        etrans; [|exact H23].
        eapply calls_satisfy_mono; [apply no_insert_wraps_new_key|].
        etrans; [exact H01 | exact H12].
      * apply preserves_for_each; [apply _|]. intros user.
        unfold redistribute. apply preserves_bind; [apply _|calls_step|].
        intros ms. apply preserves_for_each; [apply _|]. intros meta.
        apply rewrap_wraps_new_key.
    + exists (mkLocals ∅ None None). split.
      * intros m sk Hm. simpl in Hm. by rewrite lookup_empty in Hm.
      * eapply calls_satisfy_mono; [apply no_insert_wraps_new_key|].
        etrans; [exact H01 | exact H12].
  - split; [done|]. split; [done|].
    intros m sk Hm. simpl in Hm. by rewrite lookup_empty in Hm.
  - intros handled meta rest l w2 Hmetas Hmint.
    apply rotate_minting; [|done].
    pose proof (NoDup_elements metas) as Hnodup. rewrite Hmetas in Hnodup.
    apply NoDup_app in Hnodup as (_ & Hdisj & _).
    intros Hin. apply (Hdisj meta Hin). left.
  - apply preserves_for_fold; [apply _|]. intros l meta.
    apply rotate_no_insert.
Qed.
End MintedKeys.

Section RevocationClaims.
Context (hmac : string → string → string).
Context {PK : Type} (wrap_key : string → PK → option string).
Implicit Types (self : KeyGen) (user_pks : gmap string PK) (w : world).

(** The indices after [revoke]: the pair (attr0, userid) is deleted from
    both when the user holds the attribute, and nothing changes when not. *)
Lemma revoke_indices self userid attr0 user_pks mk w :
  let w' := (revoke hmac wrap_key self userid attr0 user_pks mk w).2 in
  if decide (userid ∈ AttrUserMap.users_by_attribute attr0 (attr_user_map w))
  then attr_user_map w'
       = AttrUserMap.delete_user attr0 userid (attr_user_map w)
       ∧ user_attr_map w'
         = UserAttrMap.delete_attr userid attr0 (user_attr_map w)
  else attr_user_map w' = attr_user_map w
       ∧ user_attr_map w' = user_attr_map w.
Proof.
  cbv zeta.
  enough (wp (revoke hmac wrap_key self userid attr0 user_pks mk)
            (fun _ w' =>
               if decide (userid ∈ AttrUserMap.users_by_attribute attr0
                                     (attr_user_map w))
               then attr_user_map w'
                    = AttrUserMap.delete_user attr0 userid (attr_user_map w)
                    ∧ user_attr_map w'
                      = UserAttrMap.delete_attr userid attr0
                          (user_attr_map w)
               else attr_user_map w' = attr_user_map w
                    ∧ user_attr_map w' = user_attr_map w) w) as Hwp
    by exact Hwp.
  unfold revoke. apply wp_bind. unfold wp at 1, users_by_attribute. simpl.
  destruct (decide (userid ∈ _)) as [Hheld|Hnot].
  - rewrite decide_False by (intros Hnot; by apply Hnot).
    apply wp_bind. unfold wp at 1, delete_user. simpl.
    apply wp_bind. unfold wp at 1, delete_attr. simpl.
    apply wp_bind. unfold wp at 1, get_metadatas. simpl.
    eapply wp_mono; [|apply (wp_preserves same_indices)].
    + intros _ w' [-> ->]. done.
    + apply preserves_bind; [apply _| |intros l].
      * apply preserves_for_fold; [apply _|]. intros l meta.
        apply rotate_same_indices.
      * apply preserves_for_each; [apply _|]. intros user.
        unfold redistribute. apply preserves_bind; [apply _|by intros ?|].
        intros metas. apply preserves_for_each; [apply _|]. intros meta.
        apply rewrap_same_indices.
  - rewrite decide_True by done. done.
Qed.

Lemma revoke_not_held_run self userid attr0 user_pks mk w :
  userid ∉ AttrUserMap.users_by_attribute attr0 (attr_user_map w) →
  revoke hmac wrap_key self userid attr0 user_pks mk w
  = (Return tt, log (users_by_attribute_call attr0) w).
Proof.
  intros Hnot. unfold revoke, bind, users_by_attribute. simpl.
  by rewrite decide_True.
Qed.

Lemma revoke_not_held_noop_calls self userid attr0 user_pks mk w :
  userid ∉ AttrUserMap.users_by_attribute attr0 (attr_user_map w) →
  new_calls w (revoke hmac wrap_key self userid attr0 user_pks mk w).2
  = [users_by_attribute_call attr0].
Proof.
  intros Hnot. rewrite revoke_not_held_run by done. by apply new_calls_app.
Qed.

(** C4: when the user is not among the users of the attribute, [revoke]
    returns without raising, the key store, both indices and the
    dictionaries are what they were, and the only call made on a
    collaborator is the reading [users_by_attribute]. *)
Theorem revoke_not_held_noop self userid attr0 user_pks mk w :
  userid ∉ AttrUserMap.users_by_attribute attr0 (attr_user_map w) →
  ∃ w', revoke hmac wrap_key self userid attr0 user_pks mk w = (Return tt, w')
        ∧ keystore w' = keystore w
        ∧ attr_user_map w' = attr_user_map w
        ∧ user_attr_map w' = user_attr_map w
        ∧ dicts w' = dicts w
        ∧ new_calls w w' = [users_by_attribute_call attr0].
Proof.
  intros Hnot. exists (log (users_by_attribute_call attr0) w).
  split; [by apply revoke_not_held_run|].
  do 4 (split; [done|]). by apply new_calls_app.
Qed.

(** C5: [revoke] keeps the index mirror invariant, whatever its outcome:
    it removes the pair (attr0, userid) from both indices and changes no
    other entry of either. *)
Theorem revoke_preserves_mirror self userid attr0 user_pks mk w :
  mirror w →
  let w' := (revoke hmac wrap_key self userid attr0 user_pks mk w).2 in
  mirror w'
  ∧ (∀ a u, u ∈ AttrUserMap.users_by_attribute a (attr_user_map w')
            ↔ u ∈ AttrUserMap.users_by_attribute a (attr_user_map w)
              ∧ ¬ (a = attr0 ∧ u = userid))
  ∧ (∀ u a, a ∈ UserAttrMap.attributes_by_user u (user_attr_map w')
            ↔ a ∈ UserAttrMap.attributes_by_user u (user_attr_map w)
              ∧ ¬ (u = userid ∧ a = attr0)).
Proof.
  intros Hmirror w'.
  pose proof (revoke_indices self userid attr0 user_pks mk w) as Hidx.
  cbv zeta in Hidx. fold w' in Hidx.
  assert ((∀ a u, u ∈ AttrUserMap.users_by_attribute a (attr_user_map w')
            ↔ u ∈ AttrUserMap.users_by_attribute a (attr_user_map w)
              ∧ ¬ (a = attr0 ∧ u = userid))
          ∧ (∀ u a, a ∈ UserAttrMap.attributes_by_user u (user_attr_map w')
            ↔ a ∈ UserAttrMap.attributes_by_user u (user_attr_map w)
              ∧ ¬ (u = userid ∧ a = attr0))) as [Hau Hua].
  { destruct (decide (userid ∈ _)) as [Hheld|Hnot];
      destruct Hidx as [-> ->].
    - split; intros ??.
      + apply elem_of_users_delete_user.
      + apply elem_of_attributes_delete_attr.
    - split.
      + intros a u. split; [|by intros [??]]. intros Hu.
        split; [done|]. intros [-> ->]. done.
      + intros u a. split; [|by intros [??]]. intros Ha.
        split; [done|]. intros [-> ->]. by apply Hmirror in Ha. }
  split; [|done].
  intros u a. rewrite Hau, Hua, (Hmirror u a). naive_solver.
Qed.

(** C6: when [revoke] returns for a user who held the attribute, the key
    store holds no record of that user under (attr0, m) for any metadata
    [m], and [remove_revoked_keys] was called for every metadata the user
    held under the attribute in the key store before the call. *)
Theorem revoke_purges_revoked_user self userid attr0 user_pks mk w w' :
  userid ∈ AttrUserMap.users_by_attribute attr0 (attr_user_map w) →
  revoke hmac wrap_key self userid attr0 user_pks mk w = (Return tt, w') →
  (∀ m row, row ∈ keystore w' → ¬ KeyStore.keyed userid m attr0 row)
  ∧ KeyStore.get_metadatas userid attr0 (keystore w') = ∅
  ∧ (∀ m, m ∈ KeyStore.get_metadatas userid attr0 (keystore w) →
          remove_revoked_keys_call userid m attr0 ∈ new_calls w w').
Proof.
  intros Hheld Hrun.
  pose proof (revoke_held_wp hmac wrap_key self userid attr0 user_pks mk w
                Hheld) as Hwp.
  unfold wp in Hwp. rewrite Hrun in Hwp. simpl in Hwp.
  destruct Hwp as [_ Hret].
  destruct (Hret eq_refl) as (Hpurged & _ & tr & Htr & _ & Hremoved).
  split; [|split].
  - intros m row Hrow (Hu & Ha & _). by apply (Hpurged row Hrow).
  - apply set_eq. intros m. rewrite elem_of_get_metadatas. split.
    + intros (row & Hrow & Hrowheld & _). by destruct (Hpurged row Hrow).
    + intros Hm. by apply elem_of_empty in Hm.
  - intros m Hm. rewrite (new_calls_app w w' tr Htr).
    apply Hremoved. by apply elem_of_elements.
Qed.

(** C7: whatever the outcome of [revoke], a record is inserted only for a
    user of the authorized set read at the start other than the revoked
    user, under the revoked attribute, and under a metadata that this user
    held under the attribute before the call and that the revoked user held
    too; the record wraps, under the public key of that user, the key minted
    for this metadata in the rotation step. *)
Theorem revoke_inserts_only_held self userid attr0 user_pks mk w u info :
  insert_call u info
    ∈ new_calls w (revoke hmac wrap_key self userid attr0 user_pks mk w).2 →
  u ∈ AttrUserMap.users_by_attribute attr0 (attr_user_map w) ∖ {[userid]}
  ∧ attr info = attr0
  ∧ metadata info ∈ KeyStore.get_metadatas u attr0 (keystore w)
  ∧ metadata info ∈ KeyStore.get_metadatas userid attr0 (keystore w)
  ∧ (∃ sk pk, minted hmac self w (default revoke_defaults mk) userid attr0
                (metadata info) sk
              ∧ user_pks !! u = Some pk
              ∧ wrap_key sk pk = Some (keywrap info)).
Proof.
  intros Hcall.
  destruct (decide (userid ∈ AttrUserMap.users_by_attribute attr0
                                (attr_user_map w))) as [Hheld|Hnot].
  - pose proof (revoke_wraps_minted_keys hmac wrap_key self userid attr0
                  user_pks mk w u info Hcall) as Hminted.
    pose proof (revoke_held_wp hmac wrap_key self userid attr0 user_pks mk w
                  Hheld) as Hwp.
    unfold wp in Hwp. destruct Hwp as [(_ & tr & Htr & Hall & _) _].
    rewrite (new_calls_app _ _ tr Htr) in Hcall.
    rewrite Forall_forall in Hall. apply Hall in Hcall.
    destruct Hcall as (Hu & Hne & Hattr & Hmu & Hmr).
    split; [|done]. apply elem_of_difference. split; [done|].
    intros Hin. by apply elem_of_singleton in Hin.
  - pose proof (revoke_not_held_noop_calls self userid attr0 user_pks mk w
                  Hnot) as Hcalls.
    rewrite Hcalls in Hcall.
    by apply list_elem_of_singleton in Hcall.
Qed.

Lemma for_each_revoke_sequential self userid attrs user_pks mk w :
  for_each attrs
    (fun attr0 => revoke hmac wrap_key self userid attr0 user_pks mk) w
  = sequential_revokes hmac wrap_key self userid attrs user_pks mk w.
Proof.
  revert w. induction attrs as [|attr0 attrs IH]; intros w; [done|].
  simpl. unfold bind.
  destruct (revoke hmac wrap_key self userid attr0 user_pks mk w)
    as [[[]|e] w']; [apply IH | done].
Qed.

(** C8: [revoke_all_attrs] reads the attributes of the user once, before
    any change, and its outcome and final world are those of calling
    [revoke] in sequence, once for each attribute the user held at that
    moment, with the same dictionary of key lengths. *)
Theorem revoke_all_attrs_sequential self userid user_pks mk w :
  let held := UserAttrMap.attributes_by_user userid (user_attr_map w) in
  let snapshot := elements held in
  NoDup snapshot
  ∧ (∀ a, a ∈ snapshot ↔ a ∈ held)
  ∧ revoke_all_attrs hmac wrap_key self userid user_pks mk w
    = sequential_revokes hmac wrap_key self userid snapshot user_pks
        (Some (default revoke_all_attrs_defaults mk))
        (log (attributes_by_user_call userid) w).
Proof.
  intros held snapshot. split; [apply NoDup_elements|].
  split; [intros a; apply elem_of_elements|].
  unfold revoke_all_attrs, bind, attributes_by_user. simpl.
  apply for_each_revoke_sequential.
Qed.

(** C10: [revoke] and [revoke_all_attrs] only read [metas_keylens]: every
    dictionary object, the one passed in and the two default objects
    included, holds after the call what it held before, whatever the
    outcome. *)
Theorem revoke_leaves_metas_keylens self userid attr0 user_pks mk w :
  let w1 := (revoke hmac wrap_key self userid attr0 user_pks mk w).2 in
  let w2 := (revoke_all_attrs hmac wrap_key self userid user_pks mk w).2 in
  dicts w1 = dicts w
  ∧ dicts w2 = dicts w
  ∧ (∀ d, dict_at d w1 = dict_at d w ∧ dict_at d w2 = dict_at d w).
Proof.
  intros w1 w2.
  pose proof (revoke_same_dicts hmac wrap_key self userid attr0 user_pks mk
                w) as H1.
  pose proof (revoke_all_attrs_same_dicts hmac wrap_key self userid user_pks
                mk w) as H2.
  unfold same_dicts in H1, H2. fold w1 in H1. fold w2 in H2.
  split; [done|]. split; [done|].
  intros d. unfold dict_at. by rewrite H1, H2.
Qed.
End RevocationClaims.

(** * The derivation and the protocol on concrete inputs *)

(** SHA-1 of "abc" (FIPS 180) and an HMAC-SHA1 check value. *)
Example sha1_abc :
  SHA1.hex (SHA1.string_of_bytes (SHA1.sha1 (SHA1.bytes_of_string "abc")))
  = "a9993e364706816aba3e25717850c26c9cd0d89d".
Proof. vm_compute. reflexivity. Qed.

Example hmac_sha1_fox :
  SHA1.hex (SHA1.hmac "key" "The quick brown fox jumps over the lazy dog")
  = "de7c9b85b8b78aa6bc8a7a36f70a90701c9db4d9".
Proof. vm_compute. reflexivity. Qed.

(** Sixteen and seventeen bytes for the same attribute, version and
    metadata: the first sixteen bytes differ. *)
Example generate_key_length_bound_into_key :
  (_generate_key SHA1.hmac Examples.self "role" (VStr "1") "enc" 16
   = Return (SHA1.string_of_bytes
       [217; 253; 247; 50; 230; 121; 94; 157; 177; 2; 225; 140; 219; 171;
        137; 32]%Z))
  ∧ (obind (_generate_key SHA1.hmac Examples.self "role" (VStr "1") "enc" 17)
           (fun key => Return (SHA1.hex (string_take 16 key)))
     = Return "f5e049689c52a2d3a4393250211bdeb1").
Proof. vm_compute. done. Qed.

(** C2, as stated, fails: a field containing the delimiter, and a key length
    above [255 * digest_size], are invalid inputs on which [_generate_key]
    returns a key. *)
Lemma generate_key_accepts_invalid_inputs :
  ¬ (raises (_generate_key SHA1.hmac Examples.self "a|b" (VInt 1) "enc" 16)
     ↔ invalid_inputs "a|b" (VInt 1) "enc" 16)
  ∧ ¬ (raises (_generate_key SHA1.hmac Examples.self "role" (VInt 1) "enc"
                 5101)
       ↔ invalid_inputs "role" (VInt 1) "enc" 5101).
Proof.
  split.
  - intros [_ Hraises].
    destruct Hraises as [e He].
    { right. right. left. unfold has_delimiter.
      apply (bool_decide_unpack _). vm_compute. exact I. }
    vm_compute in He. discriminate He.
  - intros [_ Hraises].
    destruct Hraises as [e He].
    { right. left. unfold digest_size. lia. }
    destruct (generate_key_returns SHA1.hmac Examples.self "role" (VInt 1)
                "enc" 5101) as [key Hkey]; [unfold digest_size; lia|].
    congruence.
Qed.

Lemma generate_key_validation_witness :
  (16 ≤ 255 * digest_size)%Z
  ∧ (raises (_generate_key SHA1.hmac Examples.self "a|b" (VInt 1) "enc" 16)
     ↔ (16 < 0)%Z).
Proof.
  split; [unfold digest_size; lia|].
  apply (generate_key_validation SHA1.hmac Examples.self "a|b" (VInt 1) "enc"
           16).
  unfold digest_size. lia.
Defined.

Lemma generate_key_refines_spec_witness :
  (0 ≤ 16 ≤ 255 * digest_size)%Z
  ∧ _generate_key SHA1.hmac Examples.self "role" (VStr "1") "enc" 16
    = Return (spec_generate SHA1.hmac (_msk Examples.self) "role" (VStr "1")
                "enc" 16).
Proof.
  split; [unfold digest_size; lia|].
  apply (generate_key_refines_spec SHA1.hmac Examples.self "role" (VStr "1")
           "enc" 16).
  unfold digest_size. lia.
Defined.

Lemma generate_key_deterministic_witness :
  _msk (instances MethodExamples.fresh 0)
  = _msk (instances MethodExamples.used 1)
  ∧ (Method._generate_key SHA1.hmac 0 "role" (VStr "1") "enc" 16
       MethodExamples.fresh).1
    = (Method._generate_key SHA1.hmac 1 "role" (VStr "1") "enc" 16
         MethodExamples.used).1
  ∧ (Method._generate_key SHA1.hmac 0 "role" (VStr "1") "enc" 16
       (Method.after SHA1.hmac MethodExamples.prior MethodExamples.fresh)).1
    = (Method._generate_key SHA1.hmac 0 "role" (VStr "1") "enc" 16
         MethodExamples.fresh).1
  ∧ instances (Method._generate_key SHA1.hmac 0 "role" (VStr "1") "enc" 16
                 MethodExamples.fresh).2
    = instances MethodExamples.fresh.
Proof.
  split; [reflexivity|].
  apply (generate_key_deterministic SHA1.hmac 0 1 MethodExamples.fresh
           MethodExamples.used MethodExamples.prior "role" (VStr "1") "enc"
           16).
  reflexivity.
Defined.

(** The objects matter through their secret alone: the key generator at
    address 0 of [MethodExamples.used] holds another secret and derives
    another key, and each invocation creates one hmac object before the
    loop and one per block. *)
Example method_reads_the_secret_of_self :
  (Method._generate_key SHA1.hmac 0 "role" (VStr "1") "enc" 16
     MethodExamples.used).1
  ≠ (Method._generate_key SHA1.hmac 1 "role" (VStr "1") "enc" 16
       MethodExamples.used).1
  ∧ length (hmacs (Method._generate_key SHA1.hmac 1 "role" (VStr "1") "enc"
                     41 MethodExamples.used).2)
    = (length (hmacs MethodExamples.used) + 1 + 3)%nat
  ∧ length (hmacs (Method._generate_key SHA1.hmac 1 "role" (VStr "1") "enc"
                     (-1) MethodExamples.used).2)
    = (length (hmacs MethodExamples.used) + 1)%nat.
Proof. vm_compute. split; [discriminate | done]. Qed.

(** C1 (the code departs from it): revoking "admin" from A, who holds it
    under "enc" at version 1 (16 bytes) and under "sig" at version 5
    (32 bytes), as B does.  The rotation leads to version 2 / 16 bytes for
    "enc" and to version 6 / 32 bytes for "sig", yet both records inserted
    for B carry the one version and the one length left in the locals by
    the last iteration of the rotation loop. *)
Theorem revoke_stamps_one_version_on_all_metadata :
  let w' := Examples.revoke_admin_from_A.2 in
  Examples.revoke_admin_from_A.1 = Return tt
  ∧ rotated_vers Examples.w0 "A" "admin" "enc" = Some 2%Z
  ∧ rotated_keylen Examples.w0 revoke_defaults "A" "admin" "enc" = Some 16%Z
  ∧ rotated_vers Examples.w0 "A" "admin" "sig" = Some 6%Z
  ∧ rotated_keylen Examples.w0 revoke_defaults "A" "admin" "sig" = Some 32%Z
  ∧ inserted (new_calls Examples.w0 w')
    = [("B", "sig", 2%Z, 16%Z); ("B", "enc", 2%Z, 16%Z)]
  ∧ ¬ versioned_per_metadata Examples.w0 w' revoke_defaults "A" "admin".
Proof.
  intros w'.
  assert (inserted (new_calls Examples.w0 w')
          = [("B", "sig", 2%Z, 16%Z); ("B", "enc", 2%Z, 16%Z)]) as Hins
    by (vm_compute; reflexivity).
  assert (rotated_vers Examples.w0 "A" "admin" "sig" = Some 6%Z) as Hsig
    by (vm_compute; reflexivity).
  do 5 (split; [vm_compute; reflexivity|]).
  split; [done|]. intros Hclaim.
  destruct (elem_of_inserted (new_calls Examples.w0 w') "B" "sig" 2 16)
    as (info & Hcall & Hm & Hv & Hn).
  { rewrite Hins. left. }
  destruct (Hclaim "B" info Hcall) as [Hvers _].
  rewrite Hm, Hv, Hsig in Hvers. discriminate Hvers.
Qed.

Lemma revoke_not_held_noop_witness :
  ("B" ∉ AttrUserMap.users_by_attribute "read" (attr_user_map Examples.w0))
  ∧ (∃ w', revoke SHA1.hmac Examples.wrap_key Examples.self "B" "read"
             Examples.user_pks None Examples.w0 = (Return tt, w')
           ∧ keystore w' = keystore Examples.w0
           ∧ attr_user_map w' = attr_user_map Examples.w0
           ∧ user_attr_map w' = user_attr_map Examples.w0
           ∧ dicts w' = dicts Examples.w0
           ∧ new_calls Examples.w0 w' = [users_by_attribute_call "read"]).
Proof.
  assert ("B" ∉ AttrUserMap.users_by_attribute "read"
                  (attr_user_map Examples.w0)) as Hnot.
  { apply (bool_decide_unpack _). vm_compute. exact I. }
  split; [exact Hnot|].
  exact (revoke_not_held_noop SHA1.hmac Examples.wrap_key Examples.self "B"
           "read" Examples.user_pks None Examples.w0 Hnot).
Defined.

Lemma mirror_w0 : mirror Examples.w0.
Proof.
  intros u a.
  unfold AttrUserMap.users_by_attribute, UserAttrMap.attributes_by_user.
  simpl.
  destruct (decide (a = "admin")) as [->|Ha1];
    [|destruct (decide (a = "read")) as [->|Ha2]];
    (destruct (decide (u = "A")) as [->|Hu1];
      [|destruct (decide (u = "B")) as [->|Hu2]]);
    simplify_map_eq; set_solver.
Defined.

Lemma revoke_preserves_mirror_witness :
  mirror Examples.w0 ∧ mirror Examples.revoke_admin_from_A.2.
Proof.
  split; [exact mirror_w0|].
  apply (revoke_preserves_mirror SHA1.hmac Examples.wrap_key Examples.self
           "A" "admin" Examples.user_pks None Examples.w0 mirror_w0).
Defined.

Lemma revoke_admin_from_A_returns :
  revoke SHA1.hmac Examples.wrap_key Examples.self "A" "admin"
    Examples.user_pks None Examples.w0
  = (Return tt, Examples.revoke_admin_from_A.2).
Proof. vm_compute. reflexivity. Defined.

Lemma A_holds_admin :
  "A" ∈ AttrUserMap.users_by_attribute "admin" (attr_user_map Examples.w0).
Proof. apply (bool_decide_unpack _). vm_compute. exact I. Defined.

Lemma revoke_purges_revoked_user_witness :
  (∀ m row, row ∈ keystore Examples.revoke_admin_from_A.2 →
            ¬ KeyStore.keyed "A" m "admin" row)
  ∧ KeyStore.get_metadatas "A" "admin"
      (keystore Examples.revoke_admin_from_A.2) = ∅
  ∧ (∀ m, m ∈ KeyStore.get_metadatas "A" "admin" (keystore Examples.w0) →
          remove_revoked_keys_call "A" m "admin"
            ∈ new_calls Examples.w0 Examples.revoke_admin_from_A.2).
Proof.
  exact (revoke_purges_revoked_user SHA1.hmac Examples.wrap_key Examples.self
           "A" "admin" Examples.user_pks None Examples.w0
           Examples.revoke_admin_from_A.2 A_holds_admin
           revoke_admin_from_A_returns).
Defined.

Lemma revoke_inserts_only_held_witness :
  insert_call "B" Examples.sig_record_of_B
    ∈ new_calls Examples.w0 Examples.revoke_admin_from_A.2
  ∧ "B" ∈ AttrUserMap.users_by_attribute "admin" (attr_user_map Examples.w0)
          ∖ {["A"]}
  ∧ attr Examples.sig_record_of_B = "admin"
  ∧ metadata Examples.sig_record_of_B
      ∈ KeyStore.get_metadatas "B" "admin" (keystore Examples.w0)
  ∧ metadata Examples.sig_record_of_B
      ∈ KeyStore.get_metadatas "A" "admin" (keystore Examples.w0)
  ∧ (∃ sk pk, minted SHA1.hmac Examples.self Examples.w0 revoke_defaults "A"
                "admin" (metadata Examples.sig_record_of_B) sk
              ∧ Examples.user_pks !! "B" = Some pk
              ∧ Examples.wrap_key sk pk
                = Some (keywrap Examples.sig_record_of_B)).
Proof.
  assert (insert_call "B" Examples.sig_record_of_B
            ∈ new_calls Examples.w0 Examples.revoke_admin_from_A.2) as Hcall.
  { apply (bool_decide_unpack _). vm_compute. exact I. }
  split; [exact Hcall|].
  exact (revoke_inserts_only_held SHA1.hmac Examples.wrap_key Examples.self
           "A" "admin" Examples.user_pks None Examples.w0 "B"
           Examples.sig_record_of_B Hcall).
Defined.

(** Revoking every attribute of A: "admin" and then "read", as two calls of
    [revoke] would. *)
Example revoke_all_attrs_of_A :
  let r := revoke_all_attrs SHA1.hmac Examples.wrap_key Examples.self "A"
             Examples.user_pks None Examples.w0 in
  r.1 = Return tt
  ∧ UserAttrMap.attributes_by_user "A" (user_attr_map r.2) = ∅
  ∧ KeyStore.get_metadatas "A" "admin" (keystore r.2) = ∅
  ∧ KeyStore.get_metadatas "A" "read" (keystore r.2) = ∅
  ∧ dict_at revoke_all_attrs_defaults r.2 = ∅.
Proof. vm_compute. done. Qed.

(** A user who held the attribute under a part of the metadata of the
    revoked user is re-issued keys for that part only: B, who held "admin"
    under "enc", receives one record, for "enc". *)
Example revoke_reissues_held_metadata_only :
  let r := revoke SHA1.hmac Examples.wrap_key Examples.self "A" "admin"
             Examples.user_pks None Examples.w_subset in
  r.1 = Return tt
  ∧ inserted (new_calls Examples.w_subset r.2) = [("B", "enc", 2%Z, 16%Z)]
  ∧ KeyStore.get_metadatas "B" "admin" (keystore r.2) = {["enc"]}.
Proof. vm_compute. done. Qed.

(** * Further properties of the key derivation *)

Lemma string_length_app (a b : string) :
  String.length (a +:+ b) = String.length a + String.length b.
Proof.
  induction a as [|c a IH]; [done|].
  change (String c a +:+ b) with (String c (a +:+ b)). simpl. by rewrite IH.
Qed.

Lemma string_app_assoc (a b c : string) : (a +:+ b) +:+ c = a +:+ (b +:+ c).
Proof.
  induction a as [|x a IH]; [done|].
  change ((String x a +:+ b) +:+ c) with (String x ((a +:+ b) +:+ c)).
  change (String x a +:+ (b +:+ c)) with (String x (a +:+ (b +:+ c))).
  by rewrite IH.
Qed.

Lemma string_take_length (n : nat) (s : string) :
  n ≤ String.length s → String.length (string_take n s) = n.
Proof.
  revert s. induction n as [|n IH]; intros s Hn; [by destruct s|].
  destruct s as [|c s]; simpl in *; [lia|]. rewrite IH; lia.
Qed.

Lemma has_delimiter_cons (c : Ascii.ascii) (s : string) :
  has_delimiter (String c s) ↔ c = Ascii.ascii_of_nat 124 ∨ has_delimiter s.
Proof.
  unfold has_delimiter. simpl. rewrite elem_of_cons. naive_solver.
Qed.

(** A field without the delimiter is cut off by the first delimiter. *)
Lemma delimited_inj (a a' x x' : string) :
  ¬ has_delimiter a → ¬ has_delimiter a' →
  a +:+ String (Ascii.ascii_of_nat 124) x
  = a' +:+ String (Ascii.ascii_of_nat 124) x' →
  a = a' ∧ x = x'.
Proof.
  revert a'. induction a as [|c a IH]; intros [|c' a'] Ha Ha' Heq.
  - by injection Heq as ->.
  - exfalso. apply Ha'. apply has_delimiter_cons. left.
    change (String c' a' +:+ ?y) with (String c' (a' +:+ y)) in Heq.
    change ("" +:+ ?y) with y in Heq. by injection Heq as <- _.
  - exfalso. apply Ha. apply has_delimiter_cons. left.
    change (String c a +:+ ?y) with (String c (a +:+ y)) in Heq.
    change ("" +:+ ?y) with y in Heq. by injection Heq as -> _.
  - change (String c a +:+ ?y) with (String c (a +:+ y)) in Heq.
    change (String c' a' +:+ ?y) with (String c' (a' +:+ y)) in Heq.
    injection Heq as -> Heq.
    destruct (IH a') as [-> ->]; [| |done|done].
    + intros H. apply Ha. apply has_delimiter_cons. by right.
    + intros H. apply Ha'. apply has_delimiter_cons. by right.
Qed.

(** X2: on fields without the delimiter, [key_info] tells the key
    identities apart: two derivations feed the same [key_info] to the HMAC
    only if they agree on the attribute, the version as a string, the
    metadata and the key length. *)
Theorem key_info_inj attr1 v1 meta1 len1 attr2 v2 meta2 len2 :
  ¬ has_delimiter attr1 → ¬ has_delimiter (str v1) → ¬ has_delimiter meta1 →
  ¬ has_delimiter attr2 → ¬ has_delimiter (str v2) → ¬ has_delimiter meta2 →
  key_info attr1 v1 meta1 len1 = key_info attr2 v2 meta2 len2 →
  attr1 = attr2 ∧ str v1 = str v2 ∧ meta1 = meta2 ∧ len1 = len2.
Proof.
  intros Ha1 Hv1 Hm1 Ha2 Hv2 Hm2 Heq.
  apply delimited_inj in Heq as [-> Heq]; [|done|done].
  apply delimited_inj in Heq as [Hv Heq]; [|done|done].
  apply delimited_inj in Heq as [-> Heq]; [|done|done].
  repeat split; [done|]. unfold str_int in Heq. by apply (inj pretty).
Qed.

Section KeyDeriverExtras.
Context (hmac : string → string → string).
Implicit Types (self : KeyGen) (v : version).

Lemma block_loop_length self info (xs : list Z) block key block' key' :
  (∀ k m, String.length (hmac k m) = 20) →
  ofold (block_loop_body hmac self info) (block, key) xs
  = Return (block', key') →
  String.length key' = String.length key + 20 * length xs.
Proof.
  intros Hhmac. revert block key.
  induction xs as [|i xs IH]; intros block key Hrun.
  - simpl in Hrun. injection Hrun as <- <-. simpl. lia.
  - cbn [ofold] in Hrun. unfold block_loop_body at 1 in Hrun.
    destruct (struct_pack_be_i (i + 1)) as [packed|e]; [|done].
    cbn [obind] in Hrun. apply IH in Hrun.
    rewrite Hrun, string_length_app, Hhmac. simpl. lia.
Qed.

(** X1: with a keyed function of 20-byte output, a derivation that is given
    a key length between 0 and [digest_size * (2^31 - 1)] returns a key of
    exactly that many bytes. *)
Theorem generate_key_length self attr0 v meta len :
  (∀ k m, String.length (hmac k m) = 20) →
  (0 ≤ len ≤ digest_size * (2 ^ 31 - 1))%Z →
  ∃ key, _generate_key hmac self attr0 v meta len = Return key
         ∧ Z.of_nat (String.length key) = len.
Proof.
  intros Hhmac Hlen.
  destruct (generate_key_returns hmac self attr0 v meta len Hlen)
    as [key Hkey].
  exists key. split; [done|].
  unfold _generate_key in Hkey. rewrite decide_False in Hkey by lia.
  cbv zeta in Hkey.
  destruct (ofold _ _ _) as [[block okm]|e] eqn:Hloop; [|done].
  cbn [obind] in Hkey. injection Hkey as <-.
  apply (block_loop_length _ _ _ _ _ _ _ Hhmac) in Hloop.
  rewrite length_seqZ in Hloop. simpl in Hloop.
  unfold slice_to. rewrite decide_True by lia.
  rewrite string_take_length; [lia|].
  rewrite Hloop, ceil_div_spec by lia. unfold spec_num_blocks, digest_size in *.
  rewrite Nat2Z.id.
  pose proof (Z.div_mod (len + 20 - 1) 20 ltac:(lia)) as H3.
  pose proof (Z.mod_pos_bound (len + 20 - 1) 20 ltac:(lia)) as H4.
  lia.
Qed.

(** X3: a delimiter in a field moves the boundary between the fields
    unnoticed: the attribute [a|b] with version [c] and metadata [m] gets
    the key of the attribute [a] with version [b] and metadata [c|m]. *)
Theorem generate_key_delimiter_collision self (a b c m : string) len :
  _generate_key hmac self (a +:+ "|" +:+ b) (VStr c) m len
  = _generate_key hmac self a (VStr b) (c +:+ "|" +:+ m) len.
Proof.
  assert (key_info (a +:+ "|" +:+ b) (VStr c) m len
          = key_info a (VStr b) (c +:+ "|" +:+ m) len) as Hinfo.
  { unfold key_info, String.concat. simpl str.
    by rewrite !string_app_assoc. }
  unfold _generate_key. by rewrite Hinfo.
Qed.

Lemma chr_byte_mod (i : nat) : chr (Z.of_nat i) = byte (i `mod` 256).
Proof.
  unfold chr, byte, Ascii.ascii_of_nat. do 2 f_equal.
  change 255%Z with (Z.ones 8). rewrite Z.land_ones by lia.
  change (2 ^ 8)%Z with (Z.of_nat 256). rewrite <- Nat2Z.inj_mod.
  by rewrite <- nat_N_Z, N2Z.id.
Qed.

Lemma block_loop_wrapping self info (n : nat) :
  (Z.of_nat n < 2 ^ 31)%Z →
  ofold (block_loop_body hmac self info) ("", "") (seqZ 0 (Z.of_nat n))
  = Return (wrapping_block hmac (_msk self) info n,
            wrapping_blocks hmac (_msk self) info n).
Proof.
  induction n as [|n IH]; intros Hn; [done|].
  rewrite seqZ_S, ofold_app, IH by lia. cbn [obind ofold].
  rewrite Z.add_0_l. unfold block_loop_body, struct_pack_be_i.
  rewrite decide_True by lia. cbn [obind last default].
  replace (Z.of_nat n + 1)%Z with (Z.of_nat (S n)) by lia.
  rewrite chr_byte_mod. reflexivity.
Qed.

(** X4: for every key length between 0 and [digest_size * (2^31 - 1)],
    beyond 255 blocks too, the key is the first [keylen] bytes of the blocks
    chained as block_i = HMAC(secret, block_(i-1) || info || byte(i mod
    256)): the block number is reduced to its low byte and block 256 is
    numbered 0, with no error. *)
Theorem generate_key_wraps_block_number self attr0 v meta len :
  (0 ≤ len ≤ digest_size * (2 ^ 31 - 1))%Z →
  _generate_key hmac self attr0 v meta len
  = Return (string_take (Z.to_nat len)
              (wrapping_blocks hmac (_msk self)
                 (key_info attr0 v meta len) (spec_num_blocks len))).
Proof.
  intros Hlen. unfold _generate_key.
  rewrite decide_False by lia. cbv zeta.
  rewrite ceil_div_spec by lia. rewrite block_loop_wrapping.
  - cbn [obind]. unfold slice_to. by rewrite decide_True by lia.
  - unfold spec_num_blocks, digest_size in *.
    rewrite Z2Nat.id by (apply Z.div_pos; lia).
    pose proof (Z.div_mod (len + 20 - 1) 20 ltac:(lia)) as H3.
    pose proof (Z.mod_pos_bound (len + 20 - 1) 20 ltac:(lia)) as H4.
    lia.
Qed.
End KeyDeriverExtras.

(** * Further properties of revocation *)

Lemma generate_key_raise_kinds (hmac : string → string → string)
    (self : KeyGen) attr0 v meta len e :
  _generate_key hmac self attr0 v meta len = Raise e →
  e = ValueError ∨ e = StructError.
Proof.
  unfold _generate_key. case_decide; [intros [= <-]; by left|].
  cbv zeta. intros Hrun. right.
  destruct (ofold _ _ _) as [[block key]|e'] eqn:Hloop; [done|].
  cbn [obind] in Hrun. injection Hrun as ->.
  revert Hloop. generalize (seqZ 0 (ceil_div len digest_size)).
  generalize (("", "") : string * string).
  intros acc xs. revert acc.
  induction xs as [|i xs IH]; intros [block key]; [done|].
  cbn [ofold]. unfold block_loop_body at 1, struct_pack_be_i.
  case_decide; cbn [obind]; [apply IH | by intros [= <-]].
Qed.

Lemma fold_left_newer_is_Some (rows : list (string * KeyInfo)) b :
  is_Some (fold_left KeyStore.newer rows (Some b)).
Proof.
  revert b. induction rows as [|row rows IH]; intros b; [by eexists|].
  simpl. case_decide; apply IH.
Qed.

(** A metadata enumerated for a user has a latest record. *)
Lemma retrieve_latest_version_is_Some (u m a : string) (ks : KeyStore.t) :
  m ∈ KeyStore.get_metadatas u a ks →
  is_Some (KeyStore.retrieve_latest_version u m a ks).
Proof.
  rewrite elem_of_get_metadatas. intros (row & Hrow & [Hu Ha] & Hm).
  unfold KeyStore.retrieve_latest_version.
  assert (row ∈ filter (KeyStore.keyed u m a) ks) as Hin.
  { apply list_elem_of_filter. by split. }
  destruct (filter (KeyStore.keyed u m a) ks) as [|row' rows].
  - by apply elem_of_nil in Hin.
  - simpl. apply fold_left_newer_is_Some.
Qed.

(** The loops, with what is known of the exception when one is raised. *)
Lemma wp_for_fold_exn {A S} (I : list A → S → world → Prop)
    (E : exn → world → Prop) (xs : list A) (body : S → A → M S) (l0 : S) w :
  I [] l0 w →
  (∀ handled x rest l w', xs = handled ++ x :: rest → I handled l w' →
     wp (body l x) (fun o w'' => match o with
                                 | Return l' => I (handled ++ [x]) l' w''
                                 | Raise e => E e w''
                                 end) w') →
  wp (for_fold xs body l0)
     (fun o w' => match o with
                  | Return l => I xs l w'
                  | Raise e => E e w'
                  end) w.
Proof.
  intros Hw Hbody.
  enough (∀ ys handled l w, xs = handled ++ ys → I handled l w →
            wp (for_fold ys body l)
               (fun o w' => match o with
                            | Return l' => I (handled ++ ys) l' w'
                            | Raise e => E e w'
                            end) w) as Hgen.
  { apply (Hgen xs [] l0 w); done. }
  clear w l0 Hw. induction ys as [|y ys IH]; intros handled l w Hxs Hw.
  - unfold wp. simpl. by rewrite app_nil_r.
  - simpl. apply wp_bind.
    eapply wp_mono; [|apply (Hbody handled y ys l w); done].
    intros [l'|e] w' Hw'; [|done].
    replace (handled ++ y :: ys) with ((handled ++ [y]) ++ ys)
      by (by rewrite <- app_assoc).
    apply IH; [|done]. by rewrite <- app_assoc.
Qed.

Lemma wp_for_each_exn {A} (I : world → Prop) (C : exn → Prop) (xs : list A)
    (body : A → M unit) w :
  I w →
  (∀ x w', x ∈ xs → I w' →
           wp (body x) (fun o w'' => I w'' ∧ raised_with C o) w') →
  wp (for_each xs body) (fun o w' => I w' ∧ raised_with C o) w.
Proof.
  revert w. induction xs as [|x xs IH]; intros w Hw Hbody; [done|].
  simpl. apply wp_bind.
  eapply wp_mono; [|apply (Hbody x w); [left | done]].
  intros [[]|e] w' [Hw' Hc]; [|done].
  apply IH; [done|]. intros y w'' Hy. apply Hbody. by right.
Qed.

Section RevocationOutcome.
Context (hmac : string → string → string).
Context {PK : Type} (wrap_key : string → PK → option string).
Implicit Types (self : KeyGen) (user_pks : gmap string PK) (w : world).

(** What one iteration of the rotation loop leaves in the locals, and why
    it may raise. *)
Lemma rotate_settled self w0 userid attr0 d user_pks handled l meta w :
  meta ∉ handled →
  meta ∈ KeyStore.get_metadatas userid attr0 (keystore w0) →
  minting hmac self w0 d userid attr0 handled l w →
  settled w0 d userid attr0 handled l →
  wp (rotate hmac self userid attr0 d l meta)
     (fun o _ =>
        match o with
        | Return l' => settled w0 d userid attr0 (handled ++ [meta]) l'
        | Raise e =>
            raised_for hmac wrap_key self w0 d userid attr0 user_pks e
        end) w.
Proof.
  intros Hfresh Hmeta (Hdicts & Hrows & Hkeys) [Hbound Hlast].
  unfold rotate.
  set (w1 := log (retrieve_latest_version_call userid meta attr0) w).
  apply wp_bind. unfold wp at 1, retrieve_latest_version. simpl. fold w1.
  assert (KeyStore.retrieve_latest_version userid meta attr0 (keystore w)
          = KeyStore.retrieve_latest_version userid meta attr0 (keystore w0))
    as ->.
  { unfold KeyStore.retrieve_latest_version. by rewrite (Hrows meta Hfresh). }
  destruct (retrieve_latest_version_is_Some userid meta attr0 (keystore w0)
              Hmeta) as [cur_info Hcur].
  rewrite Hcur.
  assert (dict_at d w1 = dict_at d w0) as Hdict.
  { unfold dict_at. simpl. by rewrite Hdicts. }
  apply wp_bind. unfold wp at 1, dict_contains. simpl. rewrite Hdict.
  assert (∀ n w2,
            rotated_keylen w0 d userid attr0 meta = Some n →
            wp (new_key <- lift (_generate_key hmac self attr0
                                   (VInt (vers cur_info + 1)) meta n) ;;
                remove_revoked_keys userid meta attr0 ;;
                ret (mkLocals (<[meta := new_key]> (new_keys l))
                              (Some (vers cur_info + 1)%Z) (Some n)))
               (fun o _ =>
                  match o with
                  | Return l' =>
                      settled w0 d userid attr0 (handled ++ [meta]) l'
                  | Raise e =>
                      raised_for hmac wrap_key self w0 d userid attr0
                        user_pks e
                  end) w2) as Htail.
  { intros n w2 Hn. unfold wp, bind, lift, remove_revoked_keys, ret.
    assert (rotated_vers w0 userid attr0 meta = Some (vers cur_info + 1)%Z)
      as Hv by (unfold rotated_vers; by rewrite Hcur).
    destruct (_generate_key _ _ _ _ _ _) as [new_key|e] eqn:Hkey; simpl.
    - split.
      + intros m _. split; by eexists.
      + intros v' n' Hv' Hn'. injection Hv' as Hv'. injection Hn' as Hn'.
        subst v' n'. exists meta.
        split; [|done]. apply elem_of_app. right. left.
    - destruct (generate_key_raise_kinds _ _ _ _ _ _ _ Hkey) as [-> | ->];
        exists meta, (vers cur_info + 1)%Z, n; done. }
  apply wp_bind. destruct (dict_at d w0 !! meta) as [n|] eqn:Hn.
  - rewrite bool_decide_eq_true_2 by by eexists.
    unfold wp at 1, dict_getitem. simpl. rewrite Hdict, Hn.
    apply Htail. unfold rotated_keylen. by rewrite Hn.
  - rewrite bool_decide_eq_false_2 by (by intros [??]).
    unfold wp at 1, ret. simpl.
    apply Htail. unfold rotated_keylen. by rewrite Hn, Hcur.
Qed.

(** Why re-wrapping for a remaining user may raise. *)
Lemma rewrap_raised_for self w0 userid attr0 d user_pks l user meta w :
  user ∈ AttrUserMap.users_by_attribute attr0 (attr_user_map w0)
         ∖ {[userid]} →
  (∀ m sk, new_keys l !! m = Some sk →
           minted hmac self w0 d userid attr0 m sk) →
  (∀ m, is_Some (new_keys l !! m) →
        is_Some (new_vers l) ∧ is_Some (new_keylen l)) →
  wp (rewrap wrap_key attr0 user_pks l user meta)
     (fun o _ =>
        raised_with (raised_for hmac wrap_key self w0 d userid attr0 user_pks)
          o) w.
Proof.
  intros Huser Hkeys Hbound. unfold rewrap.
  destruct (new_keys l !! meta) as [sk|] eqn:Hsk; [|done].
  destruct (Hbound meta) as [[v Hv] [n Hn]]; [by eexists|].
  unfold wp, bind, lift, read_local, insert, ret, raise.
  rewrite Hv, Hn.
  destruct (user_pks !! user) as [pk|] eqn:Hpk; simpl; [|by exists user].
  destruct (wrap_key sk pk) as [c|] eqn:Hc; simpl; [done|].
  exists user, pk, meta, sk. repeat split; try done. by apply Hkeys.
Qed.

(** The outcome of [revoke] and the stamps of the records it inserts: an
    exception has one of the causes of [raised_for], and the version and
    length left in the locals, which every inserted record carries, are the
    rotated version and the determined length of one metadata of the revoked
    user. *)
Lemma revoke_outcome self userid attr0 user_pks mk w :
  wp (revoke hmac wrap_key self userid attr0 user_pks mk)
     (fun o w' =>
        raised_with
          (raised_for hmac wrap_key self w (default revoke_defaults mk) userid
             attr0 user_pks) o
        ∧ ∃ l, calls_satisfy (stamped l) w w'
               ∧ ∀ v n, new_vers l = Some v → new_keylen l = Some n →
                   ∃ m, m ∈ KeyStore.get_metadatas userid attr0 (keystore w)
                        ∧ rotated_vers w userid attr0 m = Some v
                        ∧ rotated_keylen w (default revoke_defaults mk) userid
                            attr0 m = Some n) w.
Proof.
  unfold revoke. apply wp_bind. unfold wp at 1, users_by_attribute. simpl.
  set (users := AttrUserMap.users_by_attribute attr0 (attr_user_map w)).
  case_decide as Hheld.
  { split; [done|]. exists (mkLocals ∅ None None).
    split; [by eapply calls_satisfy_log | done]. }
  apply wp_bind. unfold wp at 1, delete_user. simpl.
  apply wp_bind. unfold wp at 1, delete_attr. simpl.
  apply wp_bind. unfold wp at 1, get_metadatas. simpl.
  set (metas := KeyStore.get_metadatas userid attr0 (keystore w)).
  set (d := default revoke_defaults mk).
  match goal with |- wp _ _ ?w' => set (w1 := w') end.
  assert (calls_satisfy no_insert w w1) as H01.
  { eexists. split; [unfold w1, log; simpl; by rewrite <- !app_assoc|].
    repeat (apply Forall_cons; split; [done|]). done. }
  apply wp_bind.
  eapply wp_mono;
    [|apply wp_and;
      [apply (wp_for_fold_exn
                (fun handled l w' =>
                   minting hmac self w d userid attr0 handled l w'
                   ∧ settled w d userid attr0 handled l)
                (fun e _ => raised_for hmac wrap_key self w d userid attr0
                              user_pks e))
      |apply (wp_preserves (calls_satisfy no_insert))]].
  - intros [l|e] w2 [Hloop H12].
    + destruct Hloop as [(_ & _ & Hkeys) [Hbound Hlast]].
      eapply wp_mono;
        [|apply (wp_for_each_exn
                   (fun w' => calls_satisfy (stamped l) w2 w')
                   (raised_for hmac wrap_key self w d userid attr0 user_pks))].
      * intros o w3 [H23 Hc]. split; [by destruct o|].
        exists l. split.
        -- etrans; [|exact H23].
           eapply calls_satisfy_mono; [apply no_insert_stamped|].
           etrans; [exact H01 | exact H12].
        -- intros v n Hv Hn. destruct (Hlast v n Hv Hn) as (m & Hm & ?).
           exists m. split; [|done]. by apply elem_of_elements in Hm.
      * reflexivity.
      * intros user w3 Huser H23. apply elem_of_elements in Huser.
        apply wp_and.
        -- eapply wp_mono;
             [|apply (wp_preserves (calls_satisfy (stamped l)));
               apply redistribute_stamped].
           intros o w4 H34. simpl in H34. etrans; [exact H23 | exact H34].
        -- unfold redistribute. apply wp_bind.
           unfold wp at 1, get_metadatas. simpl.
           eapply wp_mono;
             [|apply (wp_for_each_exn (fun _ => True)
                        (raised_for hmac wrap_key self w d userid attr0
                           user_pks))].
           ++ by intros o w4 [_ Hc].
           ++ done.
           ++ intros meta w4 _ _. split; [done|].
              by apply (rewrap_raised_for self w userid attr0 d user_pks l
                          user meta w4).
    + split; [exact Hloop|]. exists (mkLocals ∅ None None). split; [|done].
      eapply calls_satisfy_mono; [apply no_insert_stamped|].
      etrans; [exact H01 | exact H12].
  - split; [split; [done|]|].
    + split; [done|]. intros m sk Hm. simpl in Hm.
      by rewrite lookup_empty in Hm.
    + split; [|done]. intros m [sk Hm]. simpl in Hm.
      by rewrite lookup_empty in Hm.
  - intros handled meta rest l w2 Hmetas [Hmint Hsettled].
    assert (meta ∉ handled) as Hfresh.
    { pose proof (NoDup_elements metas) as Hnodup. rewrite Hmetas in Hnodup.
      apply NoDup_app in Hnodup as (_ & Hdisj & _).
      intros Hin. apply (Hdisj meta Hin). left. }
    assert (meta ∈ metas) as Hmeta.
    { apply elem_of_elements. rewrite Hmetas. apply elem_of_app. right. left. }
    eapply wp_mono;
      [|apply wp_and;
        [apply (rotate_minting hmac self w userid attr0 d handled l meta w2
                  Hfresh Hmint)
        |apply (rotate_settled self w userid attr0 d user_pks handled l meta
                  w2 Hfresh Hmeta Hmint Hsettled)]].
    intros [l'|e] w3 [H1 H2]; [by split | done].
  - apply preserves_for_fold; [apply _|]. intros l meta.
    apply rotate_no_insert.
Qed.
End RevocationOutcome.

Global Instance keeps_others_preorder (userid attr0 : string) :
  PreOrder (keeps_others userid attr0).
Proof.
  split.
  - intros w. exists []. rewrite app_nil_r. split; [done|]. split; auto.
  - intros w1 w2 w3 (t1 & H1 & Hk1 & Hn1) (t2 & H2 & Hk2 & Hn2).
    exists (t1 ++ t2). rewrite H2, H1, app_assoc. split; [done|]. split.
    + intros row Hrow Hheld. apply Hk2; [by apply Hk1 | done].
    + intros row Hrow. rewrite elem_of_app.
      destruct (Hn2 row Hrow) as [Hrow2|?]; [|by right; right].
      destruct (Hn1 row Hrow2) as [?|?]; [by left | by right; left].
Qed.

(** A call that leaves the store alone. *)
Lemma keeps_others_log (userid attr0 : string) (c : call) (w w' : world) :
  trace w' = trace w ++ [c] → keystore w' = keystore w →
  keeps_others userid attr0 w w'.
Proof.
  intros Htr Hks. exists [c]. split; [done|]. rewrite Hks. split; auto.
Qed.

Ltac keeps_step :=
  first
    [ frame_step
    | intros ?; first [ reflexivity
                      | eapply keeps_others_log; [reflexivity | reflexivity] ] ].

Section RevocationExtras.
Context (hmac : string → string → string).
Context {PK : Type} (wrap_key : string → PK → option string).
Implicit Types (self : KeyGen) (user_pks : gmap string PK) (w : world).

(** X7: [revoke] never reads [new_vers] or [new_keylen] before the rotation
    loop has bound them, and never asks the key store for the latest record
    of a metadata that has none: it raises neither [UnboundLocalError] nor
    [LookupError]. *)
Theorem revoke_locals_bound self userid attr0 user_pks mk w :
  (revoke hmac wrap_key self userid attr0 user_pks mk w).1
  ≠ Raise UnboundLocalError
  ∧ (revoke hmac wrap_key self userid attr0 user_pks mk w).1
    ≠ Raise LookupError.
Proof.
  destruct (revoke_outcome hmac wrap_key self userid attr0 user_pks mk w)
    as [Hcause _].
  split; intros Heq; rewrite Heq in Hcause; exact Hcause.
Qed.

(** What [revoke] inserts: records for other users, under the revoked
    attribute and a metadata of the revoked user. *)
Lemma revoke_insert_allowed self userid attr0 user_pks mk w u info :
  insert_call u info
    ∈ new_calls w (revoke hmac wrap_key self userid attr0 user_pks mk w).2 →
  u ≠ userid ∧ attr info = attr0
  ∧ metadata info ∈ KeyStore.get_metadatas userid attr0 (keystore w).
Proof.
  intros Hcall.
  destruct (decide (userid ∈ AttrUserMap.users_by_attribute attr0
                                (attr_user_map w))) as [Hheld|Hnot].
  - pose proof (revoke_held_wp hmac wrap_key self userid attr0 user_pks mk w
                  Hheld) as Hwp.
    unfold wp in Hwp. destruct Hwp as [(_ & tr & Htr & Hall & _) _].
    rewrite (new_calls_app _ _ tr Htr) in Hcall.
    rewrite Forall_forall in Hall. apply Hall in Hcall.
    by destruct Hcall as (_ & ? & ? & _ & ?).
  - rewrite revoke_not_held_noop_calls in Hcall by done.
    by apply list_elem_of_singleton in Hcall.
Qed.

Lemma revoke_stamps_some_metadata_aux self userid attr0 user_pks mk w u info :
  insert_call u info
    ∈ new_calls w (revoke hmac wrap_key self userid attr0 user_pks mk w).2 →
  ∃ m, m ∈ KeyStore.get_metadatas userid attr0 (keystore w)
       ∧ rotated_vers w userid attr0 m = Some (vers info)
       ∧ rotated_keylen w (default revoke_defaults mk) userid attr0 m
         = Some (keylen info).
Proof.
  intros Hcall.
  destruct (revoke_outcome hmac wrap_key self userid attr0 user_pks mk w)
    as [_ (l & (tr & Htr & Hall) & Hlast)].
  rewrite (new_calls_app _ _ tr Htr) in Hcall.
  rewrite Forall_forall in Hall.
  destruct (Hall _ Hcall) as [Hvers Hlen]. by apply Hlast.
Qed.

(** X9: every record inserted by [revoke] carries the rotated version and
    the determined length of a metadata that the revoked user held under
    the attribute; it need not be the metadata of the record. *)
Theorem revoke_stamps_some_metadata self userid attr0 user_pks mk w u info :
  insert_call u info
    ∈ new_calls w (revoke hmac wrap_key self userid attr0 user_pks mk w).2 →
  ∃ m, m ∈ KeyStore.get_metadatas userid attr0 (keystore w)
       ∧ rotated_vers w userid attr0 m = Some (vers info)
       ∧ rotated_keylen w (default revoke_defaults mk) userid attr0 m
         = Some (keylen info).
Proof.
  intros Hcall.
  destruct (revoke_outcome hmac wrap_key self userid attr0 user_pks mk w)
    as [_ (l & (tr & Htr & Hall) & Hlast)].
  rewrite (new_calls_app _ _ tr Htr) in Hcall.
  rewrite Forall_forall in Hall.
  destruct (Hall _ Hcall) as [Hvers Hlen]. by apply Hlast.
Qed.

(** X10: when the metadata that the revoked user held under the attribute
    all lead to the same version and the same length, one metadata alone
    for instance, every record inserted by [revoke] carries the version and
    the length of its own metadata. *)
Theorem revoke_versions_right_when_agreeing self userid attr0 user_pks mk w :
  agreeing w (default revoke_defaults mk) userid attr0 →
  versioned_per_metadata w
    (revoke hmac wrap_key self userid attr0 user_pks mk w).2
    (default revoke_defaults mk) userid attr0.
Proof.
  intros Hagree u info Hcall.
  destruct (revoke_stamps_some_metadata_aux self userid attr0 user_pks mk w u
              info Hcall) as (m & Hm & Hv & Hn).
  destruct (revoke_insert_allowed self userid attr0 user_pks mk w u info
              Hcall) as (_ & _ & Hmeta).
  destruct (Hagree (metadata info) m Hmeta Hm) as [-> ->]. done.
Qed.

(** X11: under the same agreement, every record that [revoke] inserts can
    be regenerated from its own fields: it wraps, under the public key of
    its user, the key derived for the attribute, version, metadata and
    length that the record carries. *)
Theorem revoke_records_regenerate_when_agreeing self userid attr0 user_pks mk
    w u info :
  agreeing w (default revoke_defaults mk) userid attr0 →
  insert_call u info
    ∈ new_calls w (revoke hmac wrap_key self userid attr0 user_pks mk w).2 →
  ∃ sk pk, _generate_key hmac self (attr info) (VInt (vers info))
             (metadata info) (keylen info) = Return sk
           ∧ user_pks !! u = Some pk
           ∧ wrap_key sk pk = Some (keywrap info).
Proof.
  intros Hagree Hcall.
  destruct (revoke_stamps_some_metadata_aux self userid attr0 user_pks mk w u
              info Hcall) as (m & Hm & Hv & Hn).
  destruct (revoke_insert_allowed self userid attr0 user_pks mk w u info
              Hcall) as (_ & Hattr & Hmeta).
  destruct (Hagree (metadata info) m Hmeta Hm) as [Hv' Hn'].
  destruct (revoke_wraps_minted_keys hmac wrap_key self userid attr0 user_pks
              mk w u info Hcall)
    as (sk & pk & (v & n & Hrv & Hrn & Hkey) & Hpk & Hwrap).
  exists sk, pk. split; [|done].
  rewrite Hattr.
  assert (v = vers info) as <- by congruence.
  assert (n = keylen info) as <- by congruence.
  done.
Qed.

Lemma remove_keeps_others userid meta attr0 :
  preserves (keeps_others userid attr0)
    (remove_revoked_keys userid meta attr0).
Proof.
  intros w. exists [remove_revoked_keys_call userid meta attr0].
  split; [done|]. simpl. split.
  - intros row Hrow Hheld. apply list_elem_of_filter. split; [|done].
    intros (Hu & Ha & _). apply Hheld. by split.
  - intros row Hrow. left. by apply list_elem_of_filter in Hrow as [_ ?].
Qed.

Lemma insert_keeps_others userid attr0 u info :
  preserves (keeps_others userid attr0) (insert u info).
Proof.
  intros w. exists [insert_call u info]. split; [done|]. simpl.
  unfold KeyStore.insert. split.
  - intros row Hrow _. apply elem_of_app. by left.
  - intros row Hrow. apply elem_of_app in Hrow as [Hrow|Hrow]; [by left|].
    apply list_elem_of_singleton in Hrow as ->. right. simpl. left.
Qed.

Lemma revoke_keeps_others_frame self userid attr0 user_pks mk :
  preserves (keeps_others userid attr0)
    (revoke hmac wrap_key self userid attr0 user_pks mk).
Proof.
  unfold revoke. apply preserves_bind; [apply _|keeps_step|]. intros users.
  case_decide; [keeps_step|].
  apply preserves_bind; [apply _|keeps_step|]. intros _.
  apply preserves_bind; [apply _|keeps_step|]. intros _.
  apply preserves_bind; [apply _|keeps_step|]. intros metas.
  apply preserves_bind; [apply _| |intros l].
  - apply preserves_for_fold; [apply _|]. intros l meta. unfold rotate.
    apply preserves_bind; [apply _|keeps_step|]. intros cur_info.
    apply preserves_bind; [apply _|keeps_step|]. intros overridden.
    apply preserves_bind; [apply _| |intros n].
    { destruct overridden; keeps_step. }
    apply preserves_bind; [apply _|keeps_step|]. intros new_key.
    apply preserves_bind; [apply _|apply remove_keeps_others|]. intros _.
    keeps_step.
  - apply preserves_for_each; [apply _|]. intros user. unfold redistribute.
    apply preserves_bind; [apply _|keeps_step|]. intros ms.
    apply preserves_for_each; [apply _|]. intros meta. unfold rewrap.
    destruct (new_keys l !! meta) as [sk|]; [|keeps_step].
    apply preserves_bind; [apply _|keeps_step|]. intros pk.
    apply preserves_bind; [apply _|keeps_step|]. intros c.
    apply preserves_bind; [apply _|keeps_step|]. intros v.
    apply preserves_bind; [apply _|keeps_step|]. intros n.
    apply insert_keeps_others.
Qed.

(** X12: [revoke] takes nothing from the key store but records of the
    revoked user for the revoked attribute, and adds nothing but the records
    of its [insert] calls: every other record, the earlier versions held by
    the remaining users among them, is still stored afterwards, whatever the
    outcome. *)
Theorem revoke_keeps_other_records self userid attr0 user_pks mk w :
  let w' := (revoke hmac wrap_key self userid attr0 user_pks mk w).2 in
  (∀ row, row ∈ keystore w → ¬ KeyStore.held userid attr0 row →
          row ∈ keystore w')
  ∧ (∀ row, row ∈ keystore w' →
            row ∈ keystore w ∨ insert_call row.1 row.2 ∈ new_calls w w').
Proof.
  intros w'.
  destruct (revoke_keeps_others_frame self userid attr0 user_pks mk w)
    as (tr & Htr & Hkept & Hnew).
  fold w' in Htr, Hkept, Hnew. rewrite (new_calls_app w w' tr Htr). done.
Qed.

(** One revocation, seen from the indices. *)
Lemma revoke_index_step self userid attr0 user_pks mk w :
  mirror w →
  let w' := (revoke hmac wrap_key self userid attr0 user_pks mk w).2 in
  mirror w'
  ∧ (∀ a u, u ∈ AttrUserMap.users_by_attribute a (attr_user_map w')
            ↔ u ∈ AttrUserMap.users_by_attribute a (attr_user_map w)
              ∧ ¬ (a = attr0 ∧ u = userid))
  ∧ (∀ u a, a ∈ UserAttrMap.attributes_by_user u (user_attr_map w')
            ↔ a ∈ UserAttrMap.attributes_by_user u (user_attr_map w)
              ∧ ¬ (u = userid ∧ a = attr0)).
Proof.
  intros Hmirror w'.
  pose proof (revoke_indices hmac wrap_key self userid attr0 user_pks mk w)
    as Hidx.
  cbv zeta in Hidx. fold w' in Hidx.
  assert ((∀ a u, u ∈ AttrUserMap.users_by_attribute a (attr_user_map w')
            ↔ u ∈ AttrUserMap.users_by_attribute a (attr_user_map w)
              ∧ ¬ (a = attr0 ∧ u = userid))
          ∧ (∀ u a, a ∈ UserAttrMap.attributes_by_user u (user_attr_map w')
            ↔ a ∈ UserAttrMap.attributes_by_user u (user_attr_map w)
              ∧ ¬ (u = userid ∧ a = attr0))) as [Hau Hua].
  { destruct (decide (userid ∈ _)) as [Hheld|Hnot];
      destruct Hidx as [-> ->].
    - split; intros ??;
        [apply elem_of_users_delete_user
        |apply elem_of_attributes_delete_attr].
    - split.
      + intros a u. split; [|by intros [??]]. intros Hu.
        split; [done|]. intros [-> ->]. done.
      + intros u a. split; [|by intros [??]]. intros Ha.
        split; [done|]. intros [-> ->]. by apply Hmirror in Ha. }
  split; [|done].
  intros u a. rewrite Hau, Hua, (Hmirror u a). naive_solver.
Qed.

(** A user purged for an attribute stays purged through any revocation of
    that user. *)
Lemma revoke_keeps_purged self userid attr0 user_pks mk w a :
  purged userid a w →
  purged userid a (revoke hmac wrap_key self userid attr0 user_pks mk w).2.
Proof.
  intros Hpurged row Hrow [Hu Ha].
  destruct (revoke_keeps_others_frame self userid attr0 user_pks mk w)
    as (tr & Htr & _ & Hnew).
  destruct (Hnew row Hrow) as [Hold|Hins].
  - by apply (Hpurged row Hold).
  - rewrite <- (new_calls_app _ _ tr Htr) in Hins.
    apply revoke_insert_allowed in Hins as (Hne & _). done.
Qed.

Lemma revoke_purges self userid attr0 user_pks mk w w' :
  userid ∈ AttrUserMap.users_by_attribute attr0 (attr_user_map w) →
  revoke hmac wrap_key self userid attr0 user_pks mk w = (Return tt, w') →
  purged userid attr0 w'.
Proof.
  intros Hheld Hrun.
  pose proof (revoke_held_wp hmac wrap_key self userid attr0 user_pks mk w
                Hheld) as Hwp.
  unfold wp in Hwp. rewrite Hrun in Hwp. simpl in Hwp.
  destruct Hwp as [_ Hret]. by destruct (Hret eq_refl).
Qed.

Lemma for_each_revoke_clears self userid user_pks mk (attrs : list string)
    w w' :
  mirror w →
  for_each attrs
    (fun attr0 => revoke hmac wrap_key self userid attr0 user_pks mk) w
  = (Return tt, w') →
  mirror w'
  ∧ (∀ a u, u ∈ AttrUserMap.users_by_attribute a (attr_user_map w')
            ↔ u ∈ AttrUserMap.users_by_attribute a (attr_user_map w)
              ∧ ¬ (u = userid ∧ a ∈ attrs))
  ∧ (∀ u a, a ∈ UserAttrMap.attributes_by_user u (user_attr_map w')
            ↔ a ∈ UserAttrMap.attributes_by_user u (user_attr_map w)
              ∧ ¬ (u = userid ∧ a ∈ attrs))
  ∧ (∀ a, purged userid a w → purged userid a w')
  ∧ (∀ a, a ∈ attrs →
          a ∈ UserAttrMap.attributes_by_user userid (user_attr_map w) →
          purged userid a w').
Proof.
  revert w. induction attrs as [|a0 rest IH]; intros w Hmirror Hrun.
  - simpl in Hrun. injection Hrun as <-.
    split; [done|]. split; [|split; [|split]].
    + intros a u. rewrite elem_of_nil. naive_solver.
    + intros u a. rewrite elem_of_nil. naive_solver.
    + done.
    + intros a Ha. by apply elem_of_nil in Ha.
  - simpl in Hrun. unfold bind in Hrun.
    destruct (revoke hmac wrap_key self userid a0 user_pks mk w)
      as [[[]|e] w1] eqn:Hstep; [|done].
    pose proof (revoke_index_step self userid a0 user_pks mk w Hmirror)
      as Hidx.
    cbv zeta in Hidx. rewrite Hstep in Hidx. simpl in Hidx.
    destruct Hidx as (Hmirror1 & Hau1 & Hua1).
    destruct (IH w1 Hmirror1 Hrun) as (Hmirror' & Hau & Hua & Hkeep & Hclr).
    pose proof (revoke_keeps_purged self userid a0 user_pks mk w) as Hkeep1.
    rewrite Hstep in Hkeep1. simpl in Hkeep1.
    split; [done|]. split; [|split; [|split]].
    + intros a u. rewrite Hau, Hau1, elem_of_cons. naive_solver.
    + intros u a. rewrite Hua, Hua1, elem_of_cons. naive_solver.
    + intros a Ha. by apply Hkeep, Hkeep1.
    + intros a Ha Hheld. destruct (decide (a = a0)) as [->|Hne].
      * apply Hkeep. eapply revoke_purges; [|exact Hstep].
        by apply Hmirror.
      * apply Hclr.
        -- apply elem_of_cons in Ha as [?|?]; done.
        -- apply Hua1. split; [done|]. intros [_ ?]. done.
Qed.

(** X13: from a world in which the two indices mirror each other, when
    [revoke_all_attrs] returns the user has no attribute left and is a user
    of no attribute, the indices still mirror each other, the entries of
    the other users are what they were, and the key store holds no record
    of the user under any attribute the user held. *)
Theorem revoke_all_attrs_clears_user self userid user_pks mk w w' :
  mirror w →
  revoke_all_attrs hmac wrap_key self userid user_pks mk w = (Return tt, w') →
  UserAttrMap.attributes_by_user userid (user_attr_map w') = ∅
  ∧ (∀ a, userid ∉ AttrUserMap.users_by_attribute a (attr_user_map w'))
  ∧ mirror w'
  ∧ (∀ u a, u ≠ userid →
            (u ∈ AttrUserMap.users_by_attribute a (attr_user_map w')
             ↔ u ∈ AttrUserMap.users_by_attribute a (attr_user_map w)))
  ∧ (∀ a, a ∈ UserAttrMap.attributes_by_user userid (user_attr_map w) →
          purged userid a w').
Proof.
  intros Hmirror Hrun.
  unfold revoke_all_attrs, bind, attributes_by_user in Hrun. simpl in Hrun.
  apply for_each_revoke_clears in Hrun
    as (Hmirror' & Hau & Hua & _ & Hclr); [|exact Hmirror].
  simpl in Hau, Hua, Hclr.
  split; [|split; [|split; [done|split]]].
  - apply set_eq. intros a. rewrite Hua, elem_of_elements.
    split; [intros [? Hn]; exfalso; by apply Hn | intros H; by apply elem_of_empty in H].
  - intros a. rewrite Hau. intros [Hin Hn]. apply Hn. split; [done|].
    apply elem_of_elements. by apply Hmirror.
  - intros u a Hne. rewrite Hau. naive_solver.
  - intros a Ha. apply Hclr; [by apply elem_of_elements | done].
Qed.
End RevocationExtras.

(** ** The re-distribution reaches every remaining user *)

Lemma wp_for_each_handled {A} (I : list A → world → Prop) (xs : list A)
    (body : A → M unit) w :
  I [] w →
  (∀ handled x rest w', xs = handled ++ x :: rest → I handled w' →
     wp (body x) (fun o w'' => o = Return tt → I (handled ++ [x]) w'') w') →
  wp (for_each xs body) (fun o w' => o = Return tt → I xs w') w.
Proof.
  intros Hw Hbody.
  enough (∀ ys handled w, xs = handled ++ ys → I handled w →
            wp (for_each ys body)
               (fun o w' => o = Return tt → I (handled ++ ys) w') w) as Hgen.
  { apply (Hgen xs [] w); done. }
  clear w Hw. induction ys as [|y ys IH]; intros handled w Hxs Hw.
  - unfold wp. simpl. by rewrite app_nil_r.
  - simpl. apply wp_bind.
    eapply wp_mono; [|apply (Hbody handled y ys w); done].
    intros [[]|e] w' Hw'; [|done].
    replace (handled ++ y :: ys) with ((handled ++ [y]) ++ ys)
      by (by rewrite <- app_assoc).
    apply IH; [by rewrite <- app_assoc | by apply Hw'].
Qed.

Lemma delivered_kept (w0 : world) (userid attr0 u m : string) w w' :
  u ≠ userid →
  delivered w0 attr0 u m w → keeps_others userid attr0 w w' →
  delivered w0 attr0 u m w'.
Proof.
  intros Hne (tr & info & Htr & Hcall & Ha & Hm & Hrow) (tr' & Htr' & Hkept & _).
  exists (tr ++ tr'), info. rewrite Htr', Htr, app_assoc.
  split; [done|]. split; [apply elem_of_app; by left|].
  do 2 (split; [done|]). apply Hkept; [done|]. intros [Hu _]. done.
Qed.

Lemma fold_left_newer_max (rows : list (string * KeyInfo)) b r :
  fold_left KeyStore.newer rows (Some b) = Some r →
  (vers b ≤ vers r)%Z ∧ ∀ row, row ∈ rows → (vers row.2 ≤ vers r)%Z.
Proof.
  revert b. induction rows as [|row rows IH]; intros b Hfold.
  - simpl in Hfold. injection Hfold as <-. split; [lia|].
    intros row Hrow. by apply elem_of_nil in Hrow.
  - simpl in Hfold. case_decide.
    + apply IH in Hfold as [Hb Hrows]. split; [lia|].
      intros row' Hrow'. apply elem_of_cons in Hrow' as [->|?]; auto.
    + apply IH in Hfold as [Hb Hrows]. split; [done|].
      intros row' Hrow'. apply elem_of_cons in Hrow' as [->|?]; [lia|auto].
Qed.

(** The latest record of (user, metadata, attribute) has the greatest
    version stored for them. *)
Lemma retrieve_latest_version_max (u m a : string) (ks : KeyStore.t) row :
  row ∈ ks → KeyStore.keyed u m a row →
  ∃ r, KeyStore.retrieve_latest_version u m a ks = Some r
       ∧ (vers row.2 ≤ vers r)%Z.
Proof.
  intros Hrow Hkeyed. unfold KeyStore.retrieve_latest_version.
  assert (row ∈ filter (KeyStore.keyed u m a) ks) as Hin
    by (apply list_elem_of_filter; by split).
  destruct (filter (KeyStore.keyed u m a) ks) as [|row0 rows];
    [by apply elem_of_nil in Hin|].
  simpl. destruct (fold_left_newer_is_Some rows row0.2) as [r Hr].
  exists r. split; [done|].
  apply fold_left_newer_max in Hr as [H0 Hrows].
  apply elem_of_cons in Hin as [->|Hin]; [done | by apply Hrows].
Qed.

Section Redistribution.
Context (hmac : string → string → string).
Context {PK : Type} (wrap_key : string → PK → option string).
Implicit Types (self : KeyGen) (user_pks : gmap string PK) (w : world).

Lemma rotate_keeps_others self userid attr0 d l meta :
  preserves (keeps_others userid attr0)
    (rotate hmac self userid attr0 d l meta).
Proof.
  unfold rotate.
  apply preserves_bind; [apply _|keeps_step|]. intros cur_info.
  apply preserves_bind; [apply _|keeps_step|]. intros overridden.
  apply preserves_bind; [apply _| |intros n].
  { destruct overridden; keeps_step. }
  apply preserves_bind; [apply _|keeps_step|]. intros new_key.
  apply preserves_bind; [apply _|apply remove_keeps_others|]. intros _.
  keeps_step.
Qed.

Lemma rewrap_keeps_others userid attr0 user_pks l user meta :
  preserves (keeps_others userid attr0)
    (rewrap wrap_key attr0 user_pks l user meta).
Proof.
  unfold rewrap. destruct (new_keys l !! meta) as [sk|]; [|keeps_step].
  apply preserves_bind; [apply _|keeps_step|]. intros pk.
  apply preserves_bind; [apply _|keeps_step|]. intros c.
  apply preserves_bind; [apply _|keeps_step|]. intros v.
  apply preserves_bind; [apply _|keeps_step|]. intros n.
  apply insert_keeps_others.
Qed.

(** An iteration of the rotation loop that returns has put a key for its
    metadata into [new_keys], beside the keys that were there. *)
Lemma rotate_adds_key self userid attr0 d l meta w :
  wp (rotate hmac self userid attr0 d l meta)
     (fun o _ =>
        match o with
        | Return l' =>
            ∀ m, m = meta ∨ is_Some (new_keys l !! m) →
                 is_Some (new_keys l' !! m)
        | Raise _ => True
        end) w.
Proof.
  unfold wp, rotate, bind, retrieve_latest_version, dict_contains,
    dict_getitem, lift, remove_revoked_keys, ret.
  simpl.
  destruct (KeyStore.retrieve_latest_version _ _ _ _) as [cur_info|];
    [|done].
  destruct (bool_decide _); simpl.
  - destruct (_ !! meta) as [n|]; simpl; [|done].
    destruct (_generate_key _ _ _ _ _ _) as [k|e]; simpl; [|done].
    intros m [->|Hm]; [by rewrite lookup_insert_eq|].
    destruct (decide (meta = m)) as [->|];
      [by rewrite lookup_insert_eq | by rewrite lookup_insert_ne].
  - destruct (_generate_key _ _ _ _ _ _) as [k|e]; simpl; [|done].
    intros m [->|Hm]; [by rewrite lookup_insert_eq|].
    destruct (decide (meta = m)) as [->|];
      [by rewrite lookup_insert_eq | by rewrite lookup_insert_ne].
Qed.

(** Re-wrapping a metadata that has a new key, when it returns, has
    delivered the record. *)
Lemma rewrap_delivers w0 attr0 user_pks l user meta w :
  (∃ tr, trace w = trace w0 ++ tr) →
  wp (rewrap wrap_key attr0 user_pks l user meta)
     (fun o w' => o = Return tt → is_Some (new_keys l !! meta) →
                  delivered w0 attr0 user meta w') w.
Proof.
  intros [tr Htr]. unfold rewrap.
  destruct (new_keys l !! meta) as [sk|]; [|by intros _ [??]].
  unfold wp, bind, lift, read_local, insert, ret, raise.
  destruct (user_pks !! user) as [pk|]; [|done].
  destruct (wrap_key sk pk) as [c|]; [|done].
  destruct (new_vers l) as [v|]; [|done].
  destruct (new_keylen l) as [n|]; [|done]. simpl.
  intros _ _.
  exists (tr ++ [insert_call user (mkKeyInfo attr0 v meta c n)]),
    (mkKeyInfo attr0 v meta c n).
  simpl. rewrite Htr, <- app_assoc. split; [done|].
  split; [apply elem_of_app; right; left|].
  do 2 (split; [done|]). unfold KeyStore.insert.
  apply elem_of_app. right. left.
Qed.

(** The loop over the metadata of one remaining user, when it returns, has
    delivered a record for every metadata of the user that has a new key. *)
Lemma redistribute_delivers w0 userid attr0 user_pks l user w :
  user ≠ userid →
  keeps_others userid attr0 w0 w →
  wp (redistribute wrap_key attr0 user_pks l user)
     (fun o w' =>
        keeps_others userid attr0 w0 w'
        ∧ (o = Return tt →
           ∀ m, m ∈ KeyStore.get_metadatas user attr0 (keystore w0) →
                is_Some (new_keys l !! m) →
                delivered w0 attr0 user m w')) w.
Proof.
  intros Hne Hkeeps. apply wp_and.
  { eapply wp_mono;
      [|apply (wp_preserves (keeps_others userid attr0))].
    - intros o w' Hw'. simpl in Hw'. etrans; [exact Hkeeps | exact Hw'].
    - unfold redistribute. apply preserves_bind; [apply _|keeps_step|].
      intros ms. apply preserves_for_each; [apply _|]. intros meta.
      apply rewrap_keeps_others. }
  unfold redistribute. apply wp_bind. unfold wp at 1, get_metadatas. simpl.
  set (ms := KeyStore.get_metadatas user attr0 (keystore w)).
  set (w1 := log (get_metadatas_call user attr0) w).
  assert (keeps_others userid attr0 w0 w1) as Hkeeps1.
  { etrans; [exact Hkeeps|]. by eapply keeps_others_log. }
  assert (∀ m, m ∈ KeyStore.get_metadatas user attr0 (keystore w0) → m ∈ ms)
    as Hsub.
  { intros m. unfold ms. rewrite !elem_of_get_metadatas.
    intros (row & Hrow & Hheld & Hm). exists row. split; [|done].
    destruct Hkeeps as (_ & _ & Hkept & _). apply Hkept; [done|].
    intros [Hu _]. destruct Hheld as [Hu' _]. congruence. }
  eapply wp_mono;
    [|apply (wp_for_each_handled
               (fun handled w' =>
                  keeps_others userid attr0 w0 w'
                  ∧ ∀ m, m ∈ handled → is_Some (new_keys l !! m) →
                         delivered w0 attr0 user m w'))].
  - intros o w' Hdone Ho m Hm Hkey. destruct (Hdone Ho) as [_ Hall].
    apply Hall; [|done]. apply elem_of_elements. by apply Hsub.
  - split; [done|]. intros m Hm. by apply elem_of_nil in Hm.
  - intros handled meta rest w2 Hms [Hk2 Hinv].
    eapply wp_mono;
      [|apply wp_and;
        [apply (rewrap_delivers w0 attr0 user_pks l user meta w2);
         destruct Hk2 as (tr & Htr & _); by exists tr
        |apply (wp_preserves (keeps_others userid attr0));
         apply (rewrap_keeps_others userid attr0 user_pks l user meta)]].
    intros o w3 [Hnew Hk23] Ho. simpl in Hk23. split.
    + etrans; [exact Hk2 | exact Hk23].
    + intros m Hm Hkey. apply elem_of_app in Hm as [Hm|Hm].
      * eapply delivered_kept; [exact Hne | by apply Hinv | exact Hk23].
      * apply list_elem_of_singleton in Hm as ->. by apply Hnew.
Qed.

Lemma redistribute_keeps_others userid attr0 user_pks l user :
  preserves (keeps_others userid attr0)
    (redistribute wrap_key attr0 user_pks l user).
Proof.
  unfold redistribute. apply preserves_bind; [apply _|keeps_step|].
  intros ms. apply preserves_for_each; [apply _|]. intros meta.
  apply rewrap_keeps_others.
Qed.

(** When [revoke] returns for a user who held the attribute, a record has
    been delivered to every other user of the attribute for every metadata
    that this user and the revoked user both held. *)
Lemma revoke_delivers self userid attr0 user_pks mk w :
  userid ∈ AttrUserMap.users_by_attribute attr0 (attr_user_map w) →
  wp (revoke hmac wrap_key self userid attr0 user_pks mk)
     (fun o w' =>
        o = Return tt →
        ∀ u m,
          u ∈ AttrUserMap.users_by_attribute attr0 (attr_user_map w)
              ∖ {[userid]} →
          m ∈ KeyStore.get_metadatas u attr0 (keystore w) →
          m ∈ KeyStore.get_metadatas userid attr0 (keystore w) →
          delivered w attr0 u m w') w.
Proof.
  intros Hheld. unfold revoke.
  apply wp_bind. unfold wp at 1, users_by_attribute. simpl.
  rewrite decide_False by (intros Hnot; by apply Hnot).
  apply wp_bind. unfold wp at 1, delete_user. simpl.
  apply wp_bind. unfold wp at 1, delete_attr. simpl.
  apply wp_bind. unfold wp at 1, get_metadatas. simpl.
  set (users := AttrUserMap.users_by_attribute attr0 (attr_user_map w)).
  set (metas := KeyStore.get_metadatas userid attr0 (keystore w)).
  match goal with |- wp _ _ ?w' => set (w1 := w') end.
  assert (keeps_others userid attr0 w w1) as H01.
  { eexists. split; [unfold w1, log; simpl; by rewrite <- !app_assoc|].
    simpl. split; auto. }
  apply wp_bind.
  eapply wp_mono;
    [|apply wp_and;
      [apply (wp_for_fold
                (fun handled l _ =>
                   ∀ m, m ∈ handled → is_Some (new_keys l !! m))
                (fun _ => True))
      |apply (wp_preserves (keeps_others userid attr0))]].
  - intros [l|e] w2 [Hkeys H12]; [|done]. simpl in H12.
    assert (keeps_others userid attr0 w w2) as H02
      by (etrans; [exact H01 | exact H12]).
    eapply wp_mono;
      [|apply (wp_for_each_handled
                 (fun handled w' =>
                    keeps_others userid attr0 w w'
                    ∧ ∀ u m, u ∈ handled →
                        m ∈ KeyStore.get_metadatas u attr0 (keystore w) →
                        is_Some (new_keys l !! m) →
                        delivered w attr0 u m w'))].
    + intros o w3 Hdone Ho u m Hu Hmu Hmr. destruct (Hdone Ho) as [_ Hall].
      apply Hall; [by apply elem_of_elements | done |].
      apply Hkeys. by apply elem_of_elements.
    + split; [done|]. intros u m Hu. by apply elem_of_nil in Hu.
    + intros handled user rest w3 Husers [Hk3 Hinv].
      assert (user ≠ userid) as Hne.
      { assert (user ∈ elements (users ∖ {[userid]})) as Hin
          by (rewrite Husers; apply elem_of_app; right; left).
        apply elem_of_elements, elem_of_difference in Hin as [_ Hin].
        intros ->. apply Hin. by apply elem_of_singleton. }
      assert (∀ u, u ∈ handled → u ≠ userid) as Hnes.
      { intros u Hu.
        assert (u ∈ elements (users ∖ {[userid]})) as Hin
          by (rewrite Husers; apply elem_of_app; by left).
        apply elem_of_elements, elem_of_difference in Hin as [_ Hin].
        intros ->. apply Hin. by apply elem_of_singleton. }
      eapply wp_mono;
        [|apply wp_and;
          [apply (redistribute_delivers w userid attr0 user_pks l user w3
                    Hne Hk3)
          |apply (wp_preserves (keeps_others userid attr0));
           apply (redistribute_keeps_others userid attr0 user_pks l user)]].
      intros o w4 [[Hk4 Hnew] H34] Ho. simpl in H34. split; [done|].
      intros u m Hu Hmu Hkey. apply elem_of_app in Hu as [Hu|Hu].
      * eapply delivered_kept; [by apply Hnes | by apply Hinv | exact H34].
      * apply list_elem_of_singleton in Hu as ->. by apply Hnew.
  - intros m Hm. by apply elem_of_nil in Hm.
  - intros handled meta rest l w2 Hmetas Hkeys.
    eapply wp_mono; [|apply rotate_adds_key].
    intros [l'|e] w3 Hadd; [|done]. intros m Hm. apply Hadd.
    apply elem_of_app in Hm as [Hm|Hm]; [right; by apply Hkeys|].
    left. by apply list_elem_of_singleton in Hm.
  - apply preserves_for_fold; [apply _|]. intros l meta.
    apply rotate_keeps_others.
Qed.

(** X18: when [revoke] returns for a user who held the attribute, every
    other user of the attribute has received, for every metadata that this
    user and the revoked user both held, a record of the attribute and the
    metadata, and the record is in the key store. *)
Theorem revoke_redistributes_to_all self userid attr0 user_pks mk w w' u m :
  revoke hmac wrap_key self userid attr0 user_pks mk w = (Return tt, w') →
  userid ∈ AttrUserMap.users_by_attribute attr0 (attr_user_map w) →
  u ∈ AttrUserMap.users_by_attribute attr0 (attr_user_map w) ∖ {[userid]} →
  m ∈ KeyStore.get_metadatas u attr0 (keystore w) →
  m ∈ KeyStore.get_metadatas userid attr0 (keystore w) →
  ∃ info, insert_call u info ∈ new_calls w w'
          ∧ attr info = attr0 ∧ metadata info = m
          ∧ (u, info) ∈ keystore w'.
Proof.
  intros Hrun Hheld Hu Hmu Hmr.
  pose proof (revoke_delivers self userid attr0 user_pks mk w Hheld) as Hwp.
  unfold wp in Hwp. rewrite Hrun in Hwp. simpl in Hwp.
  destruct (Hwp eq_refl u m Hu Hmu Hmr)
    as (tr & info & Htr & Hcall & Ha & Hm & Hrow).
  exists info. by rewrite (new_calls_app w w' tr Htr).
Qed.

(** X19: under the agreement of the rotated versions and lengths, when
    [revoke] returns, the latest record that the key store retrieves for a
    remaining user and a metadata shared with the revoked user has a version
    of at least the revoked user's latest version plus one. *)
Theorem revoke_rotates_latest_version self userid attr0 user_pks mk w w' u m :
  agreeing w (default revoke_defaults mk) userid attr0 →
  revoke hmac wrap_key self userid attr0 user_pks mk w = (Return tt, w') →
  userid ∈ AttrUserMap.users_by_attribute attr0 (attr_user_map w) →
  u ∈ AttrUserMap.users_by_attribute attr0 (attr_user_map w) ∖ {[userid]} →
  m ∈ KeyStore.get_metadatas u attr0 (keystore w) →
  m ∈ KeyStore.get_metadatas userid attr0 (keystore w) →
  ∃ v r, rotated_vers w userid attr0 m = Some v
         ∧ KeyStore.retrieve_latest_version u m attr0 (keystore w') = Some r
         ∧ (v ≤ vers r)%Z.
Proof.
  intros Hagree Hrun Hheld Hu Hmu Hmr.
  pose proof (revoke_delivers self userid attr0 user_pks mk w Hheld) as Hwp.
  unfold wp in Hwp. rewrite Hrun in Hwp. simpl in Hwp.
  destruct (Hwp eq_refl u m Hu Hmu Hmr)
    as (tr & info & Htr & Hcall & Ha & Hm & Hrow).
  rewrite <- (new_calls_app w w' tr Htr) in Hcall.
  assert (w' = (revoke hmac wrap_key self userid attr0 user_pks mk w).2)
    as Hw' by by rewrite Hrun.
  rewrite Hw' in Hcall.
  destruct (revoke_stamps_some_metadata_aux hmac wrap_key self userid attr0
              user_pks mk w u info Hcall) as (m0 & Hm0 & Hv & _).
  destruct (Hagree m m0 Hmr Hm0) as [Hsame _].
  destruct (retrieve_latest_version_max u m attr0 (keystore w') (u, info)
              Hrow) as (r & Hr & Hle); [done|].
  exists (vers info), r. split; [congruence|]. done.
Qed.
End Redistribution.

(** * Revocation on collaborators that fail *)

Lemma preserves_attempt (R : world → world → Prop) {A}
    (fault : world → call → bool) (c : call) (m : M A) :
  (∀ w, R w (log c w)) → preserves R m →
  preserves R (Failing.attempt fault c m).
Proof.
  intros Hlog Hm w. unfold Failing.attempt.
  destruct (fault w c); [apply Hlog | apply Hm].
Qed.

Lemma attempt_no_fault {A} (fault : world → call → bool) (c : call)
    (m : M A) w :
  fault w c = false → Failing.attempt fault c m w = m w.
Proof. intros Hok. unfold Failing.attempt. by rewrite Hok. Qed.

Lemma bind_ext {A B} (m m' : M A) (k k' : A → M B) w :
  m w = m' w → (∀ a w', k a w' = k' a w') → bind m k w = bind m' k' w.
Proof.
  intros Hm Hk. unfold bind. rewrite Hm.
  destruct (m' w) as [[a|e] w']; [apply Hk | done].
Qed.

Lemma for_each_ext {A} (xs : list A) (body body' : A → M unit) w :
  (∀ x w', body x w' = body' x w') →
  for_each xs body w = for_each xs body' w.
Proof.
  intros Hbody. revert w. induction xs as [|x xs IH]; intros w; [done|].
  simpl. apply bind_ext; [apply Hbody | intros _ w'; apply IH].
Qed.

Lemma for_fold_ext {A S} (xs : list A) (body body' : S → A → M S) l w :
  (∀ l' x w', body l' x w' = body' l' x w') →
  for_fold xs body l w = for_fold xs body' l w.
Proof.
  intros Hbody. revert l w. induction xs as [|x xs IH]; intros l w; [done|].
  simpl. apply bind_ext; [apply Hbody | intros l' w'; apply IH].
Qed.

Ltac fault_step :=
  first [ apply preserves_attempt; [by intros ? | by intros ?]
        | frame_step ].

Lemma failing_revoke_not_held_run (fault : world → call → bool)
    (hmac : string → string → string) {PK : Type}
    (wrap_key : string → PK → option string) (self : KeyGen) userid attr0
    (user_pks : gmap string PK) mk w :
  fault w (users_by_attribute_call attr0) = false →
  userid ∉ AttrUserMap.users_by_attribute attr0 (attr_user_map w) →
  Failing.revoke fault hmac wrap_key self userid attr0 user_pks mk w
  = (Return tt, log (users_by_attribute_call attr0) w).
Proof.
  intros Hok Hnot.
  unfold Failing.revoke, bind, Failing.users_by_attribute, Failing.attempt.
  rewrite Hok. unfold users_by_attribute. simpl. by rewrite decide_True.
Qed.

Section FailingRevocation.
Context (fault : world → call → bool).
Context (hmac : string → string → string).
Context {PK : Type} (wrap_key : string → PK → option string).
Implicit Types (self : KeyGen) (user_pks : gmap string PK) (w : world).

Lemma failing_rotate_same_indices self userid attr0 d l meta :
  preserves same_indices (Failing.rotate fault hmac self userid attr0 d l meta).
Proof.
  unfold Failing.rotate, Failing.retrieve_latest_version,
    Failing.remove_revoked_keys.
  repeat fault_step.
Qed.

Lemma failing_rewrap_same_indices attr0 user_pks l user meta :
  preserves same_indices
    (Failing.rewrap fault wrap_key attr0 user_pks l user meta).
Proof.
  unfold Failing.rewrap, Failing.insert. repeat fault_step.
Qed.

(** Once the three calls on the indices are behind, nothing touches the
    indices, whatever fails. *)
Lemma failing_revoke_tail_same_indices self userid attr0 user_pks d
    (cur_users : gset string) :
  preserves same_indices
    (metas <- Failing.get_metadatas fault userid attr0 ;;
     l <- for_fold (elements metas)
            (Failing.rotate fault hmac self userid attr0 d)
            (mkLocals ∅ None None) ;;
     for_each (elements cur_users)
       (Failing.redistribute fault wrap_key attr0 user_pks l)).
Proof.
  apply preserves_bind; [apply _| |intros metas].
  { unfold Failing.get_metadatas. fault_step. }
  apply preserves_bind; [apply _| |intros l].
  - apply preserves_for_fold; [apply _|]. intros l meta.
    apply failing_rotate_same_indices.
  - apply preserves_for_each; [apply _|]. intros user.
    unfold Failing.redistribute. apply preserves_bind; [apply _| |intros ms].
    { unfold Failing.get_metadatas. fault_step. }
    apply preserves_for_each; [apply _|]. intros meta.
    apply failing_rewrap_same_indices.
Qed.

(** The indices after a revocation in which the membership read and
    [delete_user] did not fail: wherever it ends, the user is deleted from
    the users of the attribute; the attribute is deleted from the attributes
    of the user unless [delete_attr] failed. *)
Lemma failing_revoke_indices self userid attr0 user_pks mk w :
  reliable fault (users_by_attribute_call attr0) →
  reliable fault (delete_user_call attr0 userid) →
  userid ∈ AttrUserMap.users_by_attribute attr0 (attr_user_map w) →
  wp (Failing.revoke fault hmac wrap_key self userid attr0 user_pks mk)
     (fun o w' =>
        attr_user_map w'
        = AttrUserMap.delete_user attr0 userid (attr_user_map w)
        ∧ (reliable fault (delete_attr_call userid attr0) →
           user_attr_map w'
           = UserAttrMap.delete_attr userid attr0 (user_attr_map w))) w.
Proof.
  intros Hub Hdu Hheld. unfold Failing.revoke.
  apply wp_bind.
  unfold wp at 1, Failing.users_by_attribute, Failing.attempt.
  rewrite Hub. unfold users_by_attribute. simpl.
  rewrite decide_False by (intros Hnot; by apply Hnot).
  apply wp_bind.
  unfold wp at 1, Failing.delete_user, Failing.attempt.
  rewrite Hdu. unfold delete_user. simpl.
  apply wp_bind.
  unfold wp at 1, Failing.delete_attr, Failing.attempt.
  match goal with |- context [fault ?w' ?c] => destruct (fault w' c) eqn:Hda end.
  - simpl. split; [done|]. intros Hrel. by rewrite Hrel in Hda.
  - unfold delete_attr. simpl.
    eapply wp_mono;
      [|apply (wp_preserves same_indices);
        apply failing_revoke_tail_same_indices].
    intros o w' [-> ->]. done.
Qed.

(** Without failures the protocol is the one above. *)
Lemma failing_rotate_no_fault self userid attr0 d l meta w :
  (∀ w0 c, fault w0 c = false) →
  Failing.rotate fault hmac self userid attr0 d l meta w
  = rotate hmac self userid attr0 d l meta w.
Proof.
  intros Hok. unfold Failing.rotate, rotate.
  unfold Failing.retrieve_latest_version, Failing.remove_revoked_keys.
  repeat (apply bind_ext;
          [first [by apply attempt_no_fault | reflexivity]|intros ? ?]).
  reflexivity.
Qed.

Lemma failing_redistribute_no_fault attr0 user_pks l user w :
  (∀ w0 c, fault w0 c = false) →
  Failing.redistribute fault wrap_key attr0 user_pks l user w
  = redistribute wrap_key attr0 user_pks l user w.
Proof.
  intros Hok. unfold Failing.redistribute, redistribute.
  apply bind_ext; [by apply attempt_no_fault|]. intros metas w'.
  apply for_each_ext. intros meta w''. unfold Failing.rewrap, rewrap.
  destruct (new_keys l !! meta); [|done].
  repeat (apply bind_ext; [reflexivity|intros ? ?]).
  by apply attempt_no_fault.
Qed.

Lemma failing_revoke_no_fault self userid attr0 user_pks mk w :
  (∀ w0 c, fault w0 c = false) →
  Failing.revoke fault hmac wrap_key self userid attr0 user_pks mk w
  = revoke hmac wrap_key self userid attr0 user_pks mk w.
Proof.
  intros Hok. unfold Failing.revoke, revoke.
  apply bind_ext; [by apply attempt_no_fault|]. intros cur_users w1.
  case_decide; [done|].
  apply bind_ext; [by apply attempt_no_fault|]. intros _ w2.
  apply bind_ext; [by apply attempt_no_fault|]. intros _ w3.
  apply bind_ext; [by apply attempt_no_fault|]. intros metas w4.
  apply bind_ext.
  - apply for_fold_ext. intros l meta w5.
    by apply failing_rotate_no_fault.
  - intros l w5. apply for_each_ext. intros user w6.
    by apply failing_redistribute_no_fault.
Qed.

(** X5: once [revoke] has run for a user and an attribute on collaborators
    that may fail, and neither its membership read nor [delete_user]
    failed, then whatever its outcome (it may have raised in the key
    derivation, for a missing public key, in the wrap primitive, or because
    [delete_attr] or a call on the key store failed), running it again for
    them, with any keys and key lengths, is the no-op as soon as the
    membership read goes through: it returns, having only read the users of
    the attribute.  A revocation that raised is not resumed by calling
    again. *)
Theorem revoke_again_noop (fault' : world → call → bool) self userid attr0
    user_pks mk self' user_pks' mk' w :
  reliable fault (users_by_attribute_call attr0) →
  reliable fault (delete_user_call attr0 userid) →
  let w1 :=
    (Failing.revoke fault hmac wrap_key self userid attr0 user_pks mk w).2 in
  fault' w1 (users_by_attribute_call attr0) = false →
  Failing.revoke fault' hmac wrap_key self' userid attr0 user_pks' mk' w1
  = (Return tt, log (users_by_attribute_call attr0) w1).
Proof.
  intros Hub Hdu w1 Hok. apply failing_revoke_not_held_run; [done|].
  destruct (decide (userid ∈ AttrUserMap.users_by_attribute attr0
                                (attr_user_map w))) as [Hheld|Hnot].
  - destruct (failing_revoke_indices self userid attr0 user_pks mk w Hub Hdu
                Hheld) as [Haum _].
    fold w1 in Haum. rewrite Haum, elem_of_users_delete_user.
    intros [_ Hne]. by apply Hne.
  - unfold w1. by rewrite failing_revoke_not_held_run.
Qed.

(** X6: on collaborators that may fail, when [revoke] raises although none
    of its three calls on the indices failed, the user held the attribute
    before the call and both indices have lost the pair in the world that is
    left: the exceptions of the key derivation, of a missing public key, of
    the wrap primitive and of the key store all come after the deletions,
    and nothing restores the indices. *)
Theorem revoke_raises_after_index_deletion self userid attr0 user_pks mk w e
    w' :
  reliable fault (users_by_attribute_call attr0) →
  reliable fault (delete_user_call attr0 userid) →
  reliable fault (delete_attr_call userid attr0) →
  Failing.revoke fault hmac wrap_key self userid attr0 user_pks mk w
  = (Raise e, w') →
  userid ∈ AttrUserMap.users_by_attribute attr0 (attr_user_map w)
  ∧ attr_user_map w' = AttrUserMap.delete_user attr0 userid (attr_user_map w)
  ∧ user_attr_map w'
    = UserAttrMap.delete_attr userid attr0 (user_attr_map w)
  ∧ (userid ∉ AttrUserMap.users_by_attribute attr0 (attr_user_map w'))
  ∧ (attr0 ∉ UserAttrMap.attributes_by_user userid (user_attr_map w')).
Proof.
  intros Hub Hdu Hda Hrun.
  destruct (decide (userid ∈ AttrUserMap.users_by_attribute attr0
                                (attr_user_map w))) as [Hheld|Hnot].
  - pose proof (failing_revoke_indices self userid attr0 user_pks mk w Hub Hdu
                  Hheld) as Hidx.
    unfold wp in Hidx. rewrite Hrun in Hidx. simpl in Hidx.
    destruct Hidx as [Haum Huam]. specialize (Huam Hda).
    split; [done|]. rewrite Haum, Huam. do 2 (split; [done|]). split.
    + rewrite elem_of_users_delete_user. intros [_ Hne]. by apply Hne.
    + rewrite elem_of_attributes_delete_attr. intros [_ Hne]. by apply Hne.
  - by rewrite failing_revoke_not_held_run in Hrun.
Qed.

(** X20: when [delete_attr] fails, after a membership read and a
    [delete_user] that went through for a user who held the attribute,
    [revoke] raises the error of the index and leaves the indices out of
    step: the user is no more among the users of the attribute, the
    attribute is still among the attributes of the user, and the key store
    was not touched.  Nothing between the two deletions guards the first. *)
Theorem revoke_breaks_mirror_when_delete_attr_fails self userid attr0 user_pks
    mk w :
  reliable fault (users_by_attribute_call attr0) →
  reliable fault (delete_user_call attr0 userid) →
  (∀ w0, fault w0 (delete_attr_call userid attr0) = true) →
  mirror w →
  userid ∈ AttrUserMap.users_by_attribute attr0 (attr_user_map w) →
  let r := Failing.revoke fault hmac wrap_key self userid attr0 user_pks mk w in
  r.1 = Raise CollaboratorError
  ∧ attr_user_map r.2
    = AttrUserMap.delete_user attr0 userid (attr_user_map w)
  ∧ user_attr_map r.2 = user_attr_map w
  ∧ keystore r.2 = keystore w
  ∧ new_calls w r.2
    = [users_by_attribute_call attr0; delete_user_call attr0 userid;
       delete_attr_call userid attr0]
  ∧ ¬ mirror r.2.
Proof.
  intros Hub Hdu Hda Hmirror Hheld r.
  assert (r = (Raise CollaboratorError,
               log (delete_attr_call userid attr0)
                 (log (delete_user_call attr0 userid)
                    (set_attr_user_map
                       (AttrUserMap.delete_user attr0 userid (attr_user_map w))
                       (log (users_by_attribute_call attr0) w))))) as ->.
  { unfold r, Failing.revoke, bind at 1, Failing.users_by_attribute,
      Failing.attempt.
    rewrite Hub. unfold users_by_attribute. cbn [fst snd].
    rewrite decide_False by (intros Hnot; by apply Hnot).
    unfold bind at 1, Failing.delete_user, Failing.attempt.
    rewrite Hdu. unfold delete_user. cbn [fst snd].
    unfold bind at 1, Failing.delete_attr, Failing.attempt.
    by rewrite Hda. }
  cbn [fst snd]. do 4 (split; [done|]). split.
  { apply new_calls_app. simpl. by rewrite <- !app_assoc. }
  intros Hm. specialize (Hm userid attr0). simpl in Hm.
  apply Hmirror in Hheld. apply Hm in Hheld.
  apply elem_of_users_delete_user in Hheld as [_ Hne]. by apply Hne.
Qed.

(** X8: on collaborators none of whose calls fails, [revoke] returns when
    every key length it determines for a metadata of the revoked user is
    between 0 and [digest_size * (2^31 - 1)], every other user of the
    attribute has a public key in [user_pks], and the wrap primitive
    succeeds on each key minted by the rotation under each of these public
    keys. *)
Theorem revoke_returns self userid attr0 user_pks mk w :
  (∀ w0 c, fault w0 c = false) →
  (∀ m n, m ∈ KeyStore.get_metadatas userid attr0 (keystore w) →
          rotated_keylen w (default revoke_defaults mk) userid attr0 m
          = Some n →
          (0 ≤ n ≤ digest_size * (2 ^ 31 - 1))%Z) →
  (∀ u, u ∈ AttrUserMap.users_by_attribute attr0 (attr_user_map w)
            ∖ {[userid]} →
        is_Some (user_pks !! u)) →
  (∀ u pk m sk,
     u ∈ AttrUserMap.users_by_attribute attr0 (attr_user_map w)
         ∖ {[userid]} →
     user_pks !! u = Some pk →
     minted hmac self w (default revoke_defaults mk) userid attr0 m sk →
     is_Some (wrap_key sk pk)) →
  (Failing.revoke fault hmac wrap_key self userid attr0 user_pks mk w).1
  = Return tt.
Proof.
  intros Hok Hlens Hpks Hwraps. rewrite failing_revoke_no_fault by done.
  destruct (revoke_outcome hmac wrap_key self userid attr0 user_pks mk w)
    as [Hcause _].
  destruct (revoke _ _ _ _ _ _ _ w).1 as [[]|e]; [done|]. exfalso.
  simpl in Hcause.
  assert (∀ m v n e',
            m ∈ KeyStore.get_metadatas userid attr0 (keystore w) →
            rotated_keylen w (default revoke_defaults mk) userid attr0 m
            = Some n →
            _generate_key hmac self attr0 (VInt v) m n ≠ Raise e') as Hgen.
  { intros m v n e' Hm Hn Hraise.
    destruct (generate_key_returns hmac self attr0 (VInt v) m n) as [key Hk];
      [by eapply Hlens|].
    congruence. }
  destruct e; simpl in Hcause; try done.
  - destruct Hcause as (m & v & n & Hm & _ & Hn & Hraise).
    by eapply Hgen.
  - destruct Hcause as (m & v & n & Hm & _ & Hn & Hraise).
    by eapply Hgen.
  - destruct Hcause as (u & Hu & Hnone).
    destruct (Hpks u Hu) as [pk Hpk]. congruence.
  - destruct Hcause as (u & pk & m & sk & Hu & Hpk & Hminted & Hwrap).
    destruct (Hwraps u pk m sk Hu Hpk Hminted) as [c Hc]. congruence.
Qed.
End FailingRevocation.

(** * Properties of the key distribution *)

Lemma user_records_batch_insert (u u' : string) (recs : list KeyInfo)
    (ks : KeyStore.t) :
  user_records u (KeyStore.batch_insert u' recs ks)
  = user_records u ks ++ (if decide (u' = u) then recs else []).
Proof.
  unfold user_records, KeyStore.batch_insert.
  rewrite filter_app, map_app. f_equal.
  destruct (decide (u' = u)) as [->|Hne].
  - induction recs as [|r recs IH]; [done|].
    simpl. rewrite filter_cons. simpl. rewrite decide_True by done.
    simpl. by rewrite IH.
  - induction recs as [|r recs IH]; [done|].
    simpl. rewrite filter_cons. simpl. by rewrite decide_False by done.
Qed.

Section KeyDistributorProperties.
Context (hmac : string → string → string).
Context {PK : Type} (wrap_key : string → PK → option string).
Implicit Types (self : KeyGen) (d : descriptor) (ks : KeyStore.t).

Lemma issued_issuable self pk d info :
  issued hmac wrap_key self pk d info → issuable hmac wrap_key self pk d.
Proof.
  destruct d as [[[a v] m] n]. intros (_ & _ & _ & _ & sk & Hsk & Hwrap).
  by exists sk, (keywrap info).
Qed.

Lemma issued_all_issuable self pk (info : list descriptor)
    (recs : list KeyInfo) d :
  Forall2 (issued hmac wrap_key self pk) info recs → d ∈ info →
  issuable hmac wrap_key self pk d.
Proof.
  induction 1 as [|d0 r info recs Hd _ IH]; intros Hin.
  - by apply elem_of_nil in Hin.
  - apply elem_of_cons in Hin as [->|Hin]; [by eapply issued_issuable|auto].
Qed.

(** The inner loop: the records of all the descriptors, in their order, or
    an exception at a descriptor that cannot be issued. *)
Lemma wrap_descriptors_spec self pk (info : list descriptor)
    (acc : list KeyInfo) :
  match ofold (wrap_descriptor hmac wrap_key self pk) acc info with
  | Return recs =>
      ∃ new, recs = acc ++ new
             ∧ Forall2 (issued hmac wrap_key self pk) info new
  | Raise e => ∃ d, d ∈ info ∧ ¬ issuable hmac wrap_key self pk d
  end.
Proof.
  revert acc. induction info as [|d info IH]; intros acc.
  - simpl. exists []. by rewrite app_nil_r.
  - cbn [ofold]. destruct d as [[[a v] m] n]. unfold wrap_descriptor at 1.
    destruct (_generate_key hmac self a (VInt v) m n) as [sk|e] eqn:Hsk.
    + cbn [obind]. destruct (wrap_key sk pk) as [c|] eqn:Hc.
      * cbn [obind]. specialize (IH (acc ++ [mkKeyInfo a v m c n])).
        destruct (ofold _ _ info) as [recs|e].
        -- destruct IH as (new & -> & Hnew).
           exists (mkKeyInfo a v m c n :: new). rewrite <- app_assoc.
           split; [done|]. constructor; [|done].
           simpl. repeat split; try done. by exists sk.
        -- destruct IH as (d & Hd & Hno). exists d. split; [by right|done].
      * cbn [obind]. exists (a, v, m, n). split; [left|].
        intros (sk' & c' & Hsk' & Hc'). congruence.
    + cbn [obind]. exists (a, v, m, n). split; [left|].
      intros (sk' & c' & Hsk' & Hc'). congruence.
Qed.

Lemma initialize_loop_spec self
    (items : list (string * (PK * list descriptor))) ks o ks' :
  NoDup items.*1 →
  initialize_loop hmac wrap_key self items ks = (o, ks') →
  (∀ u, u ∉ items.*1 → user_records u ks' = user_records u ks)
  ∧ (∀ u pk info, (u, (pk, info)) ∈ items →
       user_records u ks' = user_records u ks
       ∨ ∃ recs, Forall2 (issued hmac wrap_key self pk) info recs
                 ∧ user_records u ks' = user_records u ks ++ recs)
  ∧ (o = Return tt →
     ∀ u pk info, (u, (pk, info)) ∈ items →
       ∃ recs, Forall2 (issued hmac wrap_key self pk) info recs
               ∧ user_records u ks' = user_records u ks ++ recs)
  ∧ (o = Return tt
     ↔ ∀ u pk info d, (u, (pk, info)) ∈ items → d ∈ info →
         issuable hmac wrap_key self pk d).
Proof.
  revert ks. induction items as [|[u0 [pk0 info0]] rest IH];
    intros ks Hnodup Hrun.
  - simpl in Hrun. injection Hrun as <- <-.
    split; [done|]. split; [|split; [|split; [|done]]].
    + intros u pk info Hin. by apply elem_of_nil in Hin.
    + intros _ u pk info Hin. by apply elem_of_nil in Hin.
    + intros _ u pk info d Hin. by apply elem_of_nil in Hin.
  - simpl in Hnodup. apply NoDup_cons in Hnodup as [Hu0 Hnodup].
    cbn [initialize_loop] in Hrun.
    pose proof (wrap_descriptors_spec self pk0 info0 []) as Hinner.
    destruct (ofold _ _ info0) as [recs0|e].
    + destruct Hinner as (new & Hrecs & Hissued). simpl in Hrecs. subst new.
      destruct (IH _ Hnodup Hrun) as (Hout & Hany & Hret & Hiff).
      assert (∀ u, u ≠ u0 →
                user_records u (KeyStore.batch_insert u0 recs0 ks)
                = user_records u ks) as Hother.
      { intros u Hne. rewrite user_records_batch_insert.
        rewrite decide_False by done. by rewrite app_nil_r. }
      assert (user_records u0 ks' = user_records u0 ks ++ recs0) as Hhead.
      { rewrite (Hout u0 Hu0), user_records_batch_insert.
        by rewrite decide_True. }
      assert (∀ u pk info, (u, (pk, info)) ∈ rest → u ≠ u0) as Hrest.
      { intros u pk info Hin ->. apply Hu0.
        apply list_elem_of_fmap. by exists (u0, (pk, info)). }
      split; [|split; [|split]].
      * intros u Hu. simpl in Hu. apply not_elem_of_cons in Hu as [Hne Hu].
        by rewrite (Hout u Hu), Hother.
      * intros u pk info Hin. apply elem_of_cons in Hin as [Heq|Hin].
        -- injection Heq as -> -> ->. right. by exists recs0.
        -- rewrite <- (Hother u) by by eapply Hrest. by apply Hany.
      * intros Ho u pk info Hin. apply elem_of_cons in Hin as [Heq|Hin].
        -- injection Heq as -> -> ->. by exists recs0.
        -- rewrite <- (Hother u) by by eapply Hrest. by apply Hret.
      * rewrite Hiff. split.
        -- intros Hall u pk info d Hin Hd.
           apply elem_of_cons in Hin as [Heq|Hin]; [|by eapply Hall].
           injection Heq as -> -> ->.
           by eapply issued_all_issuable.
        -- intros Hall u pk info d Hin Hd. eapply Hall; [|done]. by right.
    + injection Hrun as <- <-. destruct Hinner as (d & Hd & Hno).
      split; [done|]. split; [by left|]. split; [done|].
      split; [done|]. intros Hall. exfalso. apply Hno.
      eapply Hall; [left|done].
Qed.

Lemma initialize_users_spec self
    (users : gmap string (PK * list descriptor)) ks :
  let r := initialize_users hmac wrap_key self users ks in
  (∀ u, users !! u = None → user_records u r.2 = user_records u ks)
  ∧ (∀ u pk info, users !! u = Some (pk, info) →
       user_records u r.2 = user_records u ks
       ∨ ∃ recs, Forall2 (issued hmac wrap_key self pk) info recs
                 ∧ user_records u r.2 = user_records u ks ++ recs)
  ∧ (r.1 = Return tt →
     ∀ u pk info, users !! u = Some (pk, info) →
       ∃ recs, Forall2 (issued hmac wrap_key self pk) info recs
               ∧ user_records u r.2 = user_records u ks ++ recs)
  ∧ (r.1 = Return tt
     ↔ ∀ u pk info d, users !! u = Some (pk, info) → d ∈ info →
         issuable hmac wrap_key self pk d).
Proof.
  intros r. unfold initialize_users in r.
  destruct r as [o ks'] eqn:Hrun. subst r. simpl.
  apply initialize_loop_spec in Hrun
    as (Hout & Hany & Hret & Hiff); [|apply NoDup_fst_map_to_list].
  split; [|split; [|split]].
  - intros u Hnone. apply Hout. intros Hin.
    apply list_elem_of_fmap in Hin as ([u' x] & -> & Hin).
    apply elem_of_map_to_list in Hin. simpl in Hnone. congruence.
  - intros u pk info Hu. apply Hany. by apply elem_of_map_to_list.
  - intros Ho u pk info Hu. apply Hret; [done|].
    by apply elem_of_map_to_list.
  - rewrite Hiff. split.
    + intros Hall u pk info d Hu. eapply Hall. by apply elem_of_map_to_list.
    + intros Hall u pk info d Hu. eapply Hall.
      by apply elem_of_map_to_list in Hu.
Qed.

(** X14: [initialize_users] stores the keys of a user all together or not
    at all, and never takes back what it stored: whatever its outcome, the
    records of a user in the key store are those of before, followed either
    by nothing or by the records of all the descriptors of that user, in
    their order, each carrying the fields of its descriptor and wrapping the
    key derived for them; a user who is not in [users] gets nothing. *)
Theorem initialize_users_all_or_nothing self
    (users : gmap string (PK * list descriptor)) ks u :
  let ks' := (initialize_users hmac wrap_key self users ks).2 in
  match users !! u with
  | None => user_records u ks' = user_records u ks
  | Some (pk, info) =>
      user_records u ks' = user_records u ks
      ∨ ∃ recs, Forall2 (issued hmac wrap_key self pk) info recs
                ∧ user_records u ks' = user_records u ks ++ recs
  end.
Proof.
  intros ks'.
  destruct (initialize_users_spec self users ks) as (Hnone & Hany & _).
  destruct (users !! u) as [[pk info]|] eqn:Hu; [by apply Hany | by apply Hnone].
Qed.

(** A run on a store that may fail which returns is the run on the store
    that does not fail. *)
Lemma failing_initialize_loop_returns batch_fault self
    (items : list (string * (PK * list descriptor))) ks ks' :
  Failing.initialize_loop batch_fault hmac wrap_key self items ks
  = (Return tt, ks') →
  initialize_loop hmac wrap_key self items ks = (Return tt, ks').
Proof.
  revert ks. induction items as [|[userid [RSA_pk info]] items IH];
    intros ks; [done|].
  cbn [Failing.initialize_loop initialize_loop].
  destruct (ofold _ _ _) as [keywraps|e]; [|done].
  destruct (batch_fault ks userid keywraps); [done|]. apply IH.
Qed.

Lemma failing_initialize_loop_reliable batch_fault self
    (items : list (string * (PK * list descriptor))) ks :
  (∀ ks0 u recs, batch_fault ks0 u recs = false) →
  Failing.initialize_loop batch_fault hmac wrap_key self items ks
  = initialize_loop hmac wrap_key self items ks.
Proof.
  intros Hok. revert ks.
  induction items as [|[userid [RSA_pk info]] items IH]; intros ks; [done|].
  cbn [Failing.initialize_loop initialize_loop].
  destruct (ofold _ _ _) as [keywraps|e]; [|done].
  rewrite Hok. apply IH.
Qed.

(** X15: on a key store whose [batch_insert] may fail, [initialize_users]
    returns only if every descriptor of every user can be issued (its key
    length is accepted by the derivation and the wrap primitive succeeds on
    the derived key under the public key of the user); when no
    [batch_insert] fails, that is also enough for it to return. *)
Theorem initialize_users_returns_iff batch_fault self
    (users : gmap string (PK * list descriptor)) ks :
  ((Failing.initialize_users batch_fault hmac wrap_key self users ks).1
   = Return tt →
   ∀ u pk info d, users !! u = Some (pk, info) → d ∈ info →
     issuable hmac wrap_key self pk d)
  ∧ ((∀ ks0 u recs, batch_fault ks0 u recs = false) →
     (∀ u pk info d, users !! u = Some (pk, info) → d ∈ info →
        issuable hmac wrap_key self pk d) →
     (Failing.initialize_users batch_fault hmac wrap_key self users ks).1
     = Return tt).
Proof.
  destruct (initialize_users_spec self users ks) as (_ & _ & _ & Hiff).
  unfold Failing.initialize_users. unfold initialize_users in Hiff. split.
  - intros Hret. apply Hiff.
    destruct (Failing.initialize_loop _ _ _ _ _ _) as [o ks'] eqn:Hrun.
    simpl in Hret. subst o.
    by rewrite (failing_initialize_loop_returns _ _ _ _ _ Hrun).
  - intros Hok Hall. rewrite failing_initialize_loop_reliable by done.
    by apply Hiff.
Qed.

(** X16: when [initialize_users] returns, every user of [users] has, after
    the records stored before, one record for each descriptor, in the order
    of the descriptors, and each record can be regenerated from its own
    fields: it wraps the key derived for the attribute, version, metadata
    and length it carries. *)
Theorem initialize_users_issues_all self
    (users : gmap string (PK * list descriptor)) ks u pk info :
  (initialize_users hmac wrap_key self users ks).1 = Return tt →
  users !! u = Some (pk, info) →
  ∃ recs, Forall2 (issued hmac wrap_key self pk) info recs
          ∧ user_records u (initialize_users hmac wrap_key self users ks).2
            = user_records u ks ++ recs.
Proof.
  intros Hret Hu.
  destruct (initialize_users_spec self users ks) as (_ & _ & Hall & _).
  by apply Hall.
Qed.

Lemma issued_for_descriptor self pk (info : list descriptor)
    (recs : list KeyInfo) d :
  Forall2 (issued hmac wrap_key self pk) info recs → d ∈ info →
  ∃ r, r ∈ recs ∧ issued hmac wrap_key self pk d r.
Proof.
  induction 1 as [|d0 r info recs Hd _ IH]; intros Hin.
  - by apply elem_of_nil in Hin.
  - apply elem_of_cons in Hin as [->|Hin].
    + exists r. split; [left | done].
    + destruct (IH Hin) as (r' & Hr' & Hissued). exists r'.
      split; [by right | done].
Qed.

Lemma elem_of_user_records (u : string) (r : KeyInfo) (ks : KeyStore.t) :
  r ∈ user_records u ks ↔ (u, r) ∈ ks.
Proof.
  unfold user_records. rewrite list_elem_of_fmap. split.
  - intros ([u' r'] & -> & Hrow). apply list_elem_of_filter in Hrow as [Hu ?].
    simpl in Hu. by subst u'.
  - intros Hrow. exists (u, r). split; [done|].
    by apply list_elem_of_filter.
Qed.

(** X17: when [initialize_users] returns, every key it was asked for can be
    looked up: for a descriptor (attr, vers, metadata, keylen) of a user, the
    key store lists the metadata for the user and the attribute, and the
    latest record it retrieves for them has a version of at least [vers]. *)
Theorem initialize_users_then_lookup self
    (users : gmap string (PK * list descriptor)) ks u pk info a v m n :
  (initialize_users hmac wrap_key self users ks).1 = Return tt →
  users !! u = Some (pk, info) →
  (a, v, m, n) ∈ info →
  let ks' := (initialize_users hmac wrap_key self users ks).2 in
  m ∈ KeyStore.get_metadatas u a ks'
  ∧ ∃ r, KeyStore.retrieve_latest_version u m a ks' = Some r
         ∧ (v ≤ vers r)%Z.
Proof.
  intros Hret Hu Hd ks'.
  destruct (initialize_users_spec self users ks) as (_ & _ & Hall & _).
  destruct (Hall Hret u pk info Hu) as (recs & Hissued & Hrecs).
  destruct (issued_for_descriptor self pk info recs _ Hissued Hd)
    as (r & Hr & Ha & Hv & Hm & _).
  assert ((u, r) ∈ ks') as Hrow.
  { apply elem_of_user_records. unfold ks'. rewrite Hrecs.
    apply elem_of_app. by right. }
  split.
  - apply elem_of_get_metadatas. by exists (u, r).
  - destruct (retrieve_latest_version_max u m a ks' (u, r) Hrow)
      as (r' & Hr' & Hle); [done|].
    exists r'. split; [done|]. simpl in Hle. lia.
Qed.
End KeyDistributorProperties.

(** * The further properties on concrete inputs *)

Lemma sha1_length (msg : list Z) : length (SHA1.sha1 msg) = 20.
Proof.
  unfold SHA1.sha1.
  destruct (SHA1.blocks _ _ _) as [[[[h0 h1] h2] h3] h4]. reflexivity.
Defined.

Lemma string_of_bytes_length (bs : list Z) :
  String.length (SHA1.string_of_bytes bs) = length bs.
Proof.
  unfold SHA1.string_of_bytes.
  induction bs as [|b bs IH]; simpl; [done | by rewrite IH].
Defined.

Lemma sha1_hmac_length (k m : string) : String.length (SHA1.hmac k m) = 20.
Proof.
  unfold SHA1.hmac, SHA1.hmac_bytes.
  rewrite string_of_bytes_length. apply sha1_length.
Defined.

Lemma generate_key_length_witness :
  (∀ k m, String.length (SHA1.hmac k m) = 20)
  ∧ (0 ≤ 5101 ≤ digest_size * (2 ^ 31 - 1))%Z
  ∧ ∃ key, _generate_key SHA1.hmac Examples.self "role" (VInt 1) "enc" 5101
           = Return key
           ∧ Z.of_nat (String.length key) = 5101%Z.
Proof.
  split; [exact sha1_hmac_length|].
  split; [unfold digest_size; lia|].
  apply (generate_key_length SHA1.hmac Examples.self "role" (VInt 1) "enc"
           5101 sha1_hmac_length).
  unfold digest_size. lia.
Defined.

Lemma no_delimiter_role : ¬ has_delimiter "role".
Proof. apply (bool_decide_unpack _). vm_compute. exact I. Defined.
Lemma no_delimiter_1 : ¬ has_delimiter (str (VInt 1)).
Proof. apply (bool_decide_unpack _). vm_compute. exact I. Defined.
Lemma no_delimiter_enc : ¬ has_delimiter "enc".
Proof. apply (bool_decide_unpack _). vm_compute. exact I. Defined.

Lemma key_info_inj_witness :
  key_info "role" (VInt 1) "enc" 16 = key_info "role" (VStr "1") "enc" 16
  ∧ "role" = "role" ∧ str (VInt 1) = str (VStr "1") ∧ "enc" = "enc"
  ∧ 16%Z = 16%Z.
Proof.
  assert (key_info "role" (VInt 1) "enc" 16
          = key_info "role" (VStr "1") "enc" 16) as Heq by reflexivity.
  split; [exact Heq|].
  exact (key_info_inj "role" (VInt 1) "enc" 16 "role" (VStr "1") "enc" 16
           no_delimiter_role no_delimiter_1 no_delimiter_enc
           no_delimiter_role no_delimiter_1 no_delimiter_enc Heq).
Defined.

Lemma generate_key_wraps_block_number_witness :
  (0 ≤ 5101 ≤ digest_size * (2 ^ 31 - 1))%Z
  ∧ _generate_key SHA1.hmac Examples.self "role" (VInt 1) "enc" 5101
    = Return (string_take (Z.to_nat 5101)
                (wrapping_blocks SHA1.hmac (_msk Examples.self)
                   (key_info "role" (VInt 1) "enc" 5101)
                   (spec_num_blocks 5101))).
Proof.
  split; [unfold digest_size; lia|].
  apply (generate_key_wraps_block_number SHA1.hmac Examples.self "role"
           (VInt 1) "enc" 5101).
  unfold digest_size. lia.
Defined.

(** Block 256 of a key of 5101 bytes is numbered 0. *)
Example block_256_is_numbered_0 :
  spec_num_blocks 5101 = 256 ∧ byte (256 `mod` 256) = byte 0.
Proof. by vm_compute. Qed.

Lemma metadatas_of_A_admin :
  KeyStore.get_metadatas "A" "admin" (keystore Examples.w0)
  = {[ "enc"; "sig" ]}.
Proof. vm_compute. reflexivity. Defined.

Lemma users_of_admin_but_A :
  AttrUserMap.users_by_attribute "admin" (attr_user_map Examples.w0) ∖ {["A"]}
  = {[ "B" ]}.
Proof. vm_compute. reflexivity. Defined.

Lemma revoke_stamps_some_metadata_witness :
  insert_call "B" Examples.sig_record_of_B
    ∈ new_calls Examples.w0 Examples.revoke_admin_from_A.2
  ∧ ∃ m, m ∈ KeyStore.get_metadatas "A" "admin" (keystore Examples.w0)
         ∧ rotated_vers Examples.w0 "A" "admin" m
           = Some (vers Examples.sig_record_of_B)
         ∧ rotated_keylen Examples.w0 revoke_defaults "A" "admin" m
           = Some (keylen Examples.sig_record_of_B).
Proof.
  assert (insert_call "B" Examples.sig_record_of_B
            ∈ new_calls Examples.w0 Examples.revoke_admin_from_A.2) as Hcall.
  { apply (bool_decide_unpack _). vm_compute. exact I. }
  split; [exact Hcall|].
  exact (revoke_stamps_some_metadata SHA1.hmac Examples.wrap_key Examples.self
           "A" "admin" Examples.user_pks None Examples.w0 "B"
           Examples.sig_record_of_B Hcall).
Defined.

Lemma w_one_agreeing : agreeing MoreExamples.w_one revoke_defaults "A" "admin".
Proof.
  assert (KeyStore.get_metadatas "A" "admin" (keystore MoreExamples.w_one)
          = {[ "enc" ]}) as Hmetas by (vm_compute; reflexivity).
  intros m m'. rewrite Hmetas. intros Hm Hm'.
  apply elem_of_singleton in Hm, Hm'. by subst m m'.
Defined.

Lemma w_one_insert :
  insert_call "B" MoreExamples.enc_record_of_B
    ∈ new_calls MoreExamples.w_one
        (revoke SHA1.hmac Examples.wrap_key Examples.self "A" "admin"
           Examples.user_pks None MoreExamples.w_one).2.
Proof. apply (bool_decide_unpack _). vm_compute. exact I. Defined.

Lemma revoke_versions_right_when_agreeing_witness :
  agreeing MoreExamples.w_one revoke_defaults "A" "admin"
  ∧ versioned_per_metadata MoreExamples.w_one
      (revoke SHA1.hmac Examples.wrap_key Examples.self "A" "admin"
         Examples.user_pks None MoreExamples.w_one).2
      revoke_defaults "A" "admin".
Proof.
  split; [exact w_one_agreeing|].
  exact (revoke_versions_right_when_agreeing SHA1.hmac Examples.wrap_key
           Examples.self "A" "admin" Examples.user_pks None MoreExamples.w_one
           w_one_agreeing).
Defined.

Lemma revoke_records_regenerate_when_agreeing_witness :
  ∃ sk pk, _generate_key SHA1.hmac Examples.self
             (attr MoreExamples.enc_record_of_B)
             (VInt (vers MoreExamples.enc_record_of_B))
             (metadata MoreExamples.enc_record_of_B)
             (keylen MoreExamples.enc_record_of_B) = Return sk
           ∧ Examples.user_pks !! "B" = Some pk
           ∧ Examples.wrap_key sk pk
             = Some (keywrap MoreExamples.enc_record_of_B).
Proof.
  exact (revoke_records_regenerate_when_agreeing SHA1.hmac Examples.wrap_key
           Examples.self "A" "admin" Examples.user_pks None MoreExamples.w_one
           "B" MoreExamples.enc_record_of_B w_one_agreeing w_one_insert).
Defined.

Lemma revoke_all_attrs_of_A_returns :
  revoke_all_attrs SHA1.hmac Examples.wrap_key Examples.self "A"
    Examples.user_pks None Examples.w0
  = (Return tt,
     (revoke_all_attrs SHA1.hmac Examples.wrap_key Examples.self "A"
        Examples.user_pks None Examples.w0).2).
Proof. vm_compute. reflexivity. Defined.

Lemma revoke_all_attrs_clears_user_witness :
  UserAttrMap.attributes_by_user "A"
    (user_attr_map
       (revoke_all_attrs SHA1.hmac Examples.wrap_key Examples.self "A"
          Examples.user_pks None Examples.w0).2) = ∅
  ∧ (∀ a, "A" ∉ AttrUserMap.users_by_attribute a
                  (attr_user_map
                     (revoke_all_attrs SHA1.hmac Examples.wrap_key
                        Examples.self "A" Examples.user_pks None
                        Examples.w0).2)).
Proof.
  destruct (revoke_all_attrs_clears_user SHA1.hmac Examples.wrap_key
              Examples.self "A" Examples.user_pks None Examples.w0 _ mirror_w0
              revoke_all_attrs_of_A_returns) as (Hnone & Hout & _).
  split; [exact Hnone | exact Hout].
Defined.

Lemma initialize_users_example_returns :
  (initialize_users SHA1.hmac Examples.wrap_key Examples.self
     MoreExamples.users []).1 = Return tt.
Proof. vm_compute. reflexivity. Defined.

Lemma users_lookup_B :
  MoreExamples.users !! "B" = Some ("pkB", [("admin", 1%Z, "enc", 16%Z)]).
Proof. vm_compute. reflexivity. Defined.

Lemma initialize_users_issues_all_witness :
  ∃ recs, Forall2 (issued SHA1.hmac Examples.wrap_key Examples.self "pkB")
            [("admin", 1%Z, "enc", 16%Z)] recs
          ∧ user_records "B"
              (initialize_users SHA1.hmac Examples.wrap_key Examples.self
                 MoreExamples.users []).2
            = user_records "B" [] ++ recs.
Proof.
  exact (initialize_users_issues_all SHA1.hmac Examples.wrap_key Examples.self
           MoreExamples.users [] "B" "pkB" [("admin", 1%Z, "enc", 16%Z)]
           initialize_users_example_returns users_lookup_B).
Defined.

Lemma initialize_users_then_lookup_witness :
  "enc" ∈ KeyStore.get_metadatas "B" "admin"
            (initialize_users SHA1.hmac Examples.wrap_key Examples.self
               MoreExamples.users []).2
  ∧ ∃ r, KeyStore.retrieve_latest_version "B" "enc" "admin"
           (initialize_users SHA1.hmac Examples.wrap_key Examples.self
              MoreExamples.users []).2 = Some r
         ∧ (1 ≤ vers r)%Z.
Proof.
  apply (initialize_users_then_lookup SHA1.hmac Examples.wrap_key
           Examples.self MoreExamples.users [] "B" "pkB"
           [("admin", 1%Z, "enc", 16%Z)] "admin" 1 "enc" 16
           initialize_users_example_returns users_lookup_B).
  left.
Defined.

(** Start-up and revocation together: the keys of [MoreExamples.users] are
    issued into an empty store, "admin" is revoked from A, and B, who held
    "admin" under "enc" alone, receives the key of version 2. *)
Example initialize_then_revoke :
  let ks := (initialize_users SHA1.hmac Examples.wrap_key Examples.self
               MoreExamples.users []).2 in
  let w := mkWorld ks (attr_user_map Examples.w0) (user_attr_map Examples.w0)
             (dicts Examples.w0) [] in
  let r := revoke SHA1.hmac Examples.wrap_key Examples.self "A" "admin"
             Examples.user_pks None w in
  r.1 = Return tt
  ∧ inserted (new_calls w r.2) = [("B", "enc", 2%Z, 16%Z)]
  ∧ user_records "A" (keystore r.2)
    = [mkKeyInfo "read" 1 "enc"
         (default "" (Examples.wrap_key
            (SHA1.string_of_bytes
               (SHA1.bytes_of_string
                  (match _generate_key SHA1.hmac Examples.self "read"
                           (VInt 1) "enc" 16 with
                   | Return k => k
                   | Raise _ => ""
                   end))) "pkA")) 16].
Proof. vm_compute. done. Qed.

Lemma B_is_another_admin :
  "B" ∈ AttrUserMap.users_by_attribute "admin" (attr_user_map Examples.w0)
        ∖ {["A"]}.
Proof. apply (bool_decide_unpack _). vm_compute. exact I. Defined.

Lemma sig_of_B : "sig" ∈ KeyStore.get_metadatas "B" "admin"
                          (keystore Examples.w0).
Proof. apply (bool_decide_unpack _). vm_compute. exact I. Defined.

Lemma sig_of_A : "sig" ∈ KeyStore.get_metadatas "A" "admin"
                          (keystore Examples.w0).
Proof. apply (bool_decide_unpack _). vm_compute. exact I. Defined.

Lemma revoke_redistributes_to_all_witness :
  ∃ info, insert_call "B" info
            ∈ new_calls Examples.w0 Examples.revoke_admin_from_A.2
          ∧ attr info = "admin" ∧ metadata info = "sig"
          ∧ ("B", info) ∈ keystore Examples.revoke_admin_from_A.2.
Proof.
  exact (revoke_redistributes_to_all SHA1.hmac Examples.wrap_key Examples.self
           "A" "admin" Examples.user_pks None Examples.w0
           Examples.revoke_admin_from_A.2 "B" "sig"
           revoke_admin_from_A_returns A_holds_admin B_is_another_admin
           sig_of_B sig_of_A).
Defined.

Lemma revoke_one_returns :
  revoke SHA1.hmac Examples.wrap_key Examples.self "A" "admin"
    Examples.user_pks None MoreExamples.w_one
  = (Return tt,
     (revoke SHA1.hmac Examples.wrap_key Examples.self "A" "admin"
        Examples.user_pks None MoreExamples.w_one).2).
Proof. vm_compute. reflexivity. Defined.

Lemma A_holds_admin_one :
  "A" ∈ AttrUserMap.users_by_attribute "admin"
          (attr_user_map MoreExamples.w_one).
Proof. apply (bool_decide_unpack _). vm_compute. exact I. Defined.

Lemma B_is_another_admin_one :
  "B" ∈ AttrUserMap.users_by_attribute "admin"
          (attr_user_map MoreExamples.w_one) ∖ {["A"]}.
Proof. apply (bool_decide_unpack _). vm_compute. exact I. Defined.

Lemma enc_of_B_one :
  "enc" ∈ KeyStore.get_metadatas "B" "admin" (keystore MoreExamples.w_one).
Proof. apply (bool_decide_unpack _). vm_compute. exact I. Defined.

Lemma enc_of_A_one :
  "enc" ∈ KeyStore.get_metadatas "A" "admin" (keystore MoreExamples.w_one).
Proof. apply (bool_decide_unpack _). vm_compute. exact I. Defined.

Lemma revoke_rotates_latest_version_witness :
  ∃ v r, rotated_vers MoreExamples.w_one "A" "admin" "enc" = Some v
         ∧ KeyStore.retrieve_latest_version "B" "enc" "admin"
             (keystore
                (revoke SHA1.hmac Examples.wrap_key Examples.self "A" "admin"
                   Examples.user_pks None MoreExamples.w_one).2) = Some r
         ∧ (v ≤ vers r)%Z.
Proof.
  exact (revoke_rotates_latest_version SHA1.hmac Examples.wrap_key
           Examples.self "A" "admin" Examples.user_pks None MoreExamples.w_one
           _ "B" "enc" w_one_agreeing revoke_one_returns A_holds_admin_one
           B_is_another_admin_one enc_of_B_one enc_of_A_one).
Defined.

(** Without the agreement the latest version of a remaining user can stay
    where it was: after "admin" is revoked from A in [Examples.w0], the
    record that the key store retrieves for B under "sig" is still the one
    of version 5, the record inserted for "sig" being stamped 2. *)
Example latest_version_of_B_not_rotated :
  vers <$> KeyStore.retrieve_latest_version "B" "sig" "admin"
             (keystore Examples.revoke_admin_from_A.2) = Some 5%Z
  ∧ keywrap <$> KeyStore.retrieve_latest_version "B" "sig" "admin"
                  (keystore Examples.revoke_admin_from_A.2) = Some "wrapped".
Proof. vm_compute. done. Qed.

(** Revoking "admin" from A in [Examples.w0] on a key store that refuses
    every insert: the rotation goes through and the first insert for B
    raises. *)
Lemma revoke_on_refusing_store_raises :
  Failing.revoke Faults.insert_fails SHA1.hmac Examples.wrap_key Examples.self
    "A" "admin" Examples.user_pks None Examples.w0
  = (Raise CollaboratorError,
     (Failing.revoke Faults.insert_fails SHA1.hmac Examples.wrap_key
        Examples.self "A" "admin" Examples.user_pks None Examples.w0).2).
Proof. vm_compute. reflexivity. Defined.

Lemma revoke_again_noop_witness :
  let w1 :=
    (Failing.revoke Faults.insert_fails SHA1.hmac Examples.wrap_key
       Examples.self "A" "admin" Examples.user_pks None Examples.w0).2 in
  reliable Faults.insert_fails (users_by_attribute_call "admin")
  ∧ reliable Faults.insert_fails (delete_user_call "admin" "A")
  ∧ Failing.revoke Faults.none SHA1.hmac Examples.wrap_key Examples.self "A"
      "admin" Examples.user_pks None w1
    = (Return tt, log (users_by_attribute_call "admin") w1).
Proof.
  intros w1.
  assert (reliable Faults.insert_fails (users_by_attribute_call "admin"))
    as Hub by (intros w; reflexivity).
  assert (reliable Faults.insert_fails (delete_user_call "admin" "A"))
    as Hdu by (intros w; reflexivity).
  split; [exact Hub|]. split; [exact Hdu|].
  apply (revoke_again_noop Faults.insert_fails SHA1.hmac Examples.wrap_key
           Faults.none Examples.self "A" "admin" Examples.user_pks None
           Examples.self Examples.user_pks None Examples.w0 Hub Hdu).
  reflexivity.
Defined.

Lemma revoke_raises_after_index_deletion_witness :
  "A" ∈ AttrUserMap.users_by_attribute "admin" (attr_user_map Examples.w0)
  ∧ ("A" ∉ AttrUserMap.users_by_attribute "admin"
             (attr_user_map
                (Failing.revoke Faults.insert_fails SHA1.hmac
                   Examples.wrap_key Examples.self "A" "admin"
                   Examples.user_pks None Examples.w0).2))
  ∧ ("admin" ∉ UserAttrMap.attributes_by_user "A"
                 (user_attr_map
                    (Failing.revoke Faults.insert_fails SHA1.hmac
                       Examples.wrap_key Examples.self "A" "admin"
                       Examples.user_pks None Examples.w0).2)).
Proof.
  destruct (revoke_raises_after_index_deletion Faults.insert_fails SHA1.hmac
              Examples.wrap_key Examples.self "A" "admin" Examples.user_pks
              None Examples.w0 CollaboratorError _
              (fun w => eq_refl) (fun w => eq_refl) (fun w => eq_refl)
              revoke_on_refusing_store_raises)
    as (Hheld & _ & _ & Hgone & Hgone').
  split; [exact Hheld|]. split; [exact Hgone | exact Hgone'].
Defined.

Lemma revoke_breaks_mirror_when_delete_attr_fails_witness :
  let r := Failing.revoke Faults.delete_attr_fails SHA1.hmac Examples.wrap_key
             Examples.self "A" "admin" Examples.user_pks None Examples.w0 in
  mirror Examples.w0
  ∧ r.1 = Raise CollaboratorError
  ∧ keystore r.2 = keystore Examples.w0
  ∧ ¬ mirror r.2.
Proof.
  intros r.
  destruct (revoke_breaks_mirror_when_delete_attr_fails
              Faults.delete_attr_fails SHA1.hmac Examples.wrap_key
              Examples.self "A" "admin" Examples.user_pks None Examples.w0
              (fun w => eq_refl) (fun w => eq_refl) (fun w => eq_refl)
              mirror_w0 A_holds_admin)
    as (Hraise & _ & _ & Hks & _ & Hbroken).
  split; [exact mirror_w0|]. split; [exact Hraise|].
  split; [exact Hks | exact Hbroken].
Defined.

Lemma revoke_returns_witness :
  (Failing.revoke Faults.none SHA1.hmac Examples.wrap_key Examples.self "A"
     "admin" Examples.user_pks None Examples.w0).1 = Return tt.
Proof.
  apply (revoke_returns Faults.none SHA1.hmac Examples.wrap_key Examples.self
           "A" "admin" Examples.user_pks None Examples.w0).
  - intros w c. reflexivity.
  - intros m n Hm Hn. rewrite metadatas_of_A_admin in Hm.
    apply elem_of_union in Hm as [Hm|Hm]; apply elem_of_singleton in Hm;
      subst m; vm_compute in Hn; injection Hn as <-; unfold digest_size; lia.
  - intros u Hu. rewrite users_of_admin_but_A in Hu.
    apply elem_of_singleton in Hu. subst u. by eexists.
  - intros u pk m sk _ _ _. by eexists.
Defined.

(** A store that refuses the batch of B: every descriptor of
    [MoreExamples.users] can be issued, yet [initialize_users] raises the
    error of the store, and the batch of A, handled before, stays. *)
Example initialize_users_on_refusing_store :
  let r := Failing.initialize_users Faults.batch_of_B_fails SHA1.hmac
             Examples.wrap_key Examples.self MoreExamples.users [] in
  (initialize_users SHA1.hmac Examples.wrap_key Examples.self
     MoreExamples.users []).1 = Return tt
  ∧ r.1 = Raise CollaboratorError
  ∧ length (user_records "A" r.2) = 3
  ∧ user_records "B" r.2 = [].
Proof. vm_compute. done. Qed.

(** The same revocation on collaborators that do not fail, with a directory
    that lacks the public key of B: the exception is the [KeyError] of the
    directory, raised after the keys of A were purged. *)
Example revoke_without_key_of_B :
  let r := Failing.revoke Faults.none SHA1.hmac Examples.wrap_key Examples.self
             "A" "admin" MoreExamples.pks_without_B None Examples.w0 in
  r.1 = Raise KeyError
  ∧ KeyStore.get_metadatas "A" "admin" (keystore r.2) = ∅
  ∧ inserted (new_calls Examples.w0 r.2) = [].
Proof. vm_compute. done. Qed.
